(** * QueueCTL: job registry, worker and command-line actions

    A shallow embedding of [src/job.js], [src/worker.js], [src/db.js] and
    the actions of [queuectl.js], followed by the properties of the job
    life cycle, of the worker, of the configuration and of the commands
    that read the tables.

    Conventions of the embedding.
    - The [jobs] table is a finite map from the primary key [id] to the row;
      the [config] table is a finite map from [key] to [value].
    - The numbers of JavaScript are doubles.  The counters of the code
      ([attempts], [max_retries], the backoff base) are integers [Z]; a
      double holds an integer exactly while its magnitude is below [2^53].
      Where a result can leave that range (the power and the product of
      the backoff delay) it is a [JS.Num]: an exact integer, a double
      beyond that range of which only the sign is kept, or a double that
      the embedding does not follow.  Timestamps are [Z] (an instant on
      the time line; the ISO text is not modelled).
    - A value that may be [null]/[undefined] is an [option].  A field of
      the parsed job spec that goes to a column which is not text
      ([max_retries], [scheduled_at]) can be any JSON value; it is a
      [Value]: what [||] sees of it, and what the store reads from it for
      the column.  The fields [id] and [command] are the texts that the
      store keeps for them.
    - The column [max_retries] is a 32-bit integer: the store refuses an
      insert with a number outside that range.  The column [attempts] is
      one as well; it starts at 0 and grows by one with a failed
      execution, and is not followed to the end of that range.
    - A thrown error is the left injection of a sum; [async] functions are
      run to completion, interleaving happens between the steps of the
      system at the end of the definitions. *)

From Stdlib Require Import ZArith Ascii String.
From stdpp Require Import gmap strings list fin_maps sorting.

Local Open Scope Z_scope.

(** ** JavaScript helpers *)

Module JS.

(** [s || d] on strings: the empty string is falsy. *)
Definition or_str (s : string) (d : string) : string :=
  if bool_decide (s = "") then d else s.

(** [x || d] where [x] is a number, [NaN] or [undefined] ([None] stands
    for both [NaN] and [undefined]); [0] is falsy. *)
Definition or_num (x : option Z) (d : Z) : Z :=
  match x with
  | Some n => if bool_decide (n = 0) then d else n
  | None => d
  end.

(** [!x] for an optional string. *)
Definition falsy_str (x : option string) : bool :=
  match x with
  | Some s => bool_decide (s = "")
  | None => true
  end.

Definition is_ws (c : ascii) : bool :=
  let n := nat_of_ascii c in
  bool_decide (n = 32%nat) || (bool_decide (9 ≤ n)%nat && bool_decide (n ≤ 13)%nat).

Fixpoint skip_ws (s : string) : string :=
  match s with
  | String c r => if is_ws c then skip_ws r else s
  | EmptyString => s
  end.

(** Value of a digit in radix up to 36. *)
Definition digit_val (c : ascii) : option Z :=
  let n := Z.of_nat (nat_of_ascii c) in
  if bool_decide (48 ≤ n) && bool_decide (n ≤ 57) then Some (n - 48)
  else if bool_decide (97 ≤ n) && bool_decide (n ≤ 122) then Some (n - 87)
  else if bool_decide (65 ≤ n) && bool_decide (n ≤ 90) then Some (n - 55)
  else None.

(** Longest prefix of digits of the radix; [acc] is [None] until a digit
    has been read. *)
Fixpoint digits (radix : Z) (s : string) (acc : option Z) : option Z :=
  match s with
  | String c r =>
      match digit_val c with
      | Some d =>
          if bool_decide (d < radix)
          then digits radix r (Some (default 0 acc * radix + d))
          else acc
      | None => acc
      end
  | EmptyString => acc
  end.

(** [parseInt(s)] without a radix argument: leading white space, a sign,
    an optional [0x] prefix, then the longest run of digits; [None] is
    [NaN].  The result is the integer that the digits spell; from [2^53]
    on JavaScript has a rounded double instead, which no use below tells
    apart: such a number is not 0, is outside the 32-bit integers and
    gives a power beyond [2^53]. *)
Definition parseInt (s : string) : option Z :=
  let s := skip_ws s in
  let '(sign, s) :=
    match s with
    | String "-"%char r => (-1, r)
    | String "+"%char r => (1, r)
    | _ => (1, s)
    end in
  let '(radix, s) :=
    match s with
    | String "0"%char (String "x"%char r) => (16, r)
    | String "0"%char (String "X"%char r) => (16, r)
    | _ => (10, s)
    end in
  (λ n, sign * n) <$> digits radix s None.

(** [parseInt(v)] where [v] may be [undefined]: the text "undefined" has
    no digit. *)
Definition parseInt_opt (v : option string) : option Z :=
  v ≫= parseInt.

(** A number that may have left the integers which a double holds
    exactly. *)
Inductive Num :=
| Exact (n : Z)            (* an integer of magnitude below [2^53] *)
| Beyond (negative : bool) (* a double of magnitude [2^53] or more, or infinite *)
| Inexact.                 (* a double that is not followed: a fraction *)

(** The double for the integer [n] that exact arithmetic gives: [n]
    itself below [2^53]; beyond, a rounded double of the same sign. *)
Definition num_of_Z (n : Z) : Num :=
  if bool_decide (Z.abs n < 2 ^ 53) then Exact n
  else Beyond (bool_decide (n < 0)).

(** [Math.pow(base, exponent)] on integers.  With a negative exponent the
    result is the inverse of an integer: 1 or -1 for those bases, infinite
    for 0, a fraction otherwise. *)
Definition Math_pow (base exponent : Z) : Num :=
  if bool_decide (0 ≤ exponent) then num_of_Z (base ^ exponent)
  else if bool_decide (Z.abs base = 1) then Exact (base ^ (- exponent))
  else if bool_decide (base = 0) then Beyond false
  else Inexact.

(** [x * 1000]. *)
Definition times_1000 (x : Num) : Num :=
  match x with
  | Exact n => num_of_Z (n * 1000)
  | Beyond negative => Beyond negative
  | Inexact => Inexact
  end.

End JS.

(** ** Data model ([supabase/migrations], [src/job.js]) *)

Inductive JobState := PENDING | PROCESSING | COMPLETED | FAILED | DEAD.

Global Instance JobState_eq_dec : EqDecision JobState.
Proof. solve_decision. Defined.

(** The text of a state, as [JobState] spells it. *)
Definition state_name (st : JobState) : string :=
  match st with
  | PENDING => "pending"
  | PROCESSING => "processing"
  | COMPLETED => "completed"
  | FAILED => "failed"
  | DEAD => "dead"
  end.

Definition dquote : string := String (ascii_of_nat 34) EmptyString.

Module Job.
(** A row of the [jobs] table. *)
Record t := mk {
  id : string;
  command : string;
  state : JobState;
  attempts : Z;
  max_retries : Z;
  created_at : Z;
  updated_at : Z;
  scheduled_at : option Z;
  last_error : option string;
  output : option string;
  locked_by : option string;
  locked_at : option Z
}.
End Job.

Global Instance Job_eq_dec : EqDecision Job.t.
Proof. solve_decision. Defined.

(** The 32-bit integers of the column [max_retries]. *)
Definition int4 (n : Z) : bool :=
  bool_decide (- 2 ^ 31 ≤ n) && bool_decide (n < 2 ^ 31).

(** A value of JavaScript on its way to a column that is not text, as far
    as the code and the store look at it: [truthy] is what [||] sees,
    [column] is the number (for [scheduled_at]: the instant) that the
    store reads from the value ([None]: it reads none, and refuses the
    value).  What the store reads from a value that is not of the column's
    type (a text for a number, say) is the store's affair and is given
    with the value. *)
Record Value := mkValue {
  truthy : bool;
  column : option Z
}.

(** An integer number, on its way to an integer column. *)
Definition number (n : Z) : Value :=
  mkValue (negb (bool_decide (n = 0))) (Some n).

(** What a 32-bit integer column takes of a value: the number read, when
    it is in the range of the column. *)
Definition integer_column (v : Value) : option Z :=
  match column v with
  | Some n => if int4 n then Some n else None
  | None => None
  end.

(** [undefined] and [null]. *)
Definition undefined : Value := mkValue false None.

(** [a || b]. *)
Definition or_value (a b : Value) : Value := if truthy a then a else b.

(** The object passed to [enqueueJob]. *)
Record JobData := mkJobData {
  jd_id : string;
  jd_command : string;
  jd_max_retries : Value;
  jd_scheduled_at : Value
}.

(** The column assignments of an [update]: [None] leaves the column as it
    is, [Some v] writes [v] (for a nullable column [Some None] writes
    [null]). *)
Record Updates := mkUpdates {
  u_state : option JobState;
  u_attempts : option Z;
  u_last_error : option (option string);
  u_output : option (option string);
  u_locked_by : option (option string);
  u_locked_at : option (option Z);
  u_updated_at : option Z
}.

Definition apply_updates (u : Updates) (j : Job.t) : Job.t :=
  Job.mk (Job.id j) (Job.command j)
    (default (Job.state j) (u_state u))
    (default (Job.attempts j) (u_attempts u))
    (Job.max_retries j)
    (Job.created_at j)
    (default (Job.updated_at j) (u_updated_at u))
    (Job.scheduled_at j)
    (default (Job.last_error j) (u_last_error u))
    (default (Job.output j) (u_output u))
    (default (Job.locked_by j) (u_locked_by u))
    (default (Job.locked_at j) (u_locked_at u)).

(** Errors that the code throws or receives. *)
Inductive Error :=
| DuplicateId            (* unique violation on [jobs.id] *)
| NoRows                 (* [.single()] on an empty result *)
| Refused                (* the store refuses a value for its column *)
| StoreFailure           (* a round trip to the store failed *)
| ExecFailure (msg : string)  (* rejected [execAsync]: exit code, timeout, launch *)
| Exit (code : Z) (stderr : string).  (* [process.exit] after [console.error] *)

Global Instance Error_eq_dec : EqDecision Error.
Proof. solve_decision. Defined.

(** [error.message].  For the three errors that come from the store the
    text is the store's own; the texts here stand for it. *)
Definition message (e : Error) : string :=
  match e with
  | DuplicateId => "duplicate key value violates unique constraint"
  | NoRows => "JSON object requested, multiple (or no) rows returned"
  | Refused => "value out of range for the type of the column"
  | StoreFailure => "fetch failed"
  | ExecFailure msg => msg
  | Exit _ msg => msg
  end.

Abbreviation Store := (gmap string Job.t).
Abbreviation Result A := (sum Error A).

(** ** The job registry ([src/job.js])

    Each function takes the instant [now] read by [new Date()] and the
    table, and gives its result and the table afterwards.  They describe a
    round trip that reaches the store; a failed round trip is added where
    the worker calls them. *)

(** [jobData.scheduled_at || null] as the store reads it: [Some None] is
    [null], [None] a value that the store refuses. *)
Definition scheduled_column (scheduled_at : Value) : option (option Z) :=
  if truthy scheduled_at then Some <$> column scheduled_at else Some None.

(** [enqueueJob], lines 11-37.  The store reads the values of the row
    before it inserts: it refuses the insert when it cannot read one of
    them, and the insert violates the primary key when the id is taken. *)
Definition enqueueJob (jobData : JobData) (now : Z) (s : Store)
  : Result Job.t * Store :=
  let max_retries := or_value (jd_max_retries jobData) (number 3) in
  match integer_column max_retries,
        scheduled_column (jd_scheduled_at jobData) with
  | Some max_retries, Some scheduled_at =>
      let job :=
        Job.mk (jd_id jobData) (jd_command jobData) PENDING 0 max_retries
          now now scheduled_at None None None None in
      match s !! jd_id jobData with
      | Some _ => (inl DuplicateId, s)
      | None => (inr job, <[jd_id jobData := job]> s)
      end
  | _, _ => (inl Refused, s)
  end.

(** [getJob], lines 62-72. *)
Definition getJob (jobId : string) (s : Store) : option Job.t := s !! jobId.

(** [updateJob], lines 74-85: an unconditional update of the row with the
    id; [.single()] fails when there is no such row. *)
Definition updateJob (jobId : string) (updates : Updates) (now : Z) (s : Store)
  : Result Job.t * Store :=
  match s !! jobId with
  | Some j =>
      let j' := apply_updates
        (mkUpdates (u_state updates) (u_attempts updates) (u_last_error updates)
           (u_output updates) (u_locked_by updates) (u_locked_at updates)
           (Some now)) j in
      (inr j', <[jobId := j']> s)
  | None => (inl NoRows, s)
  end.

(** [lockJob], lines 87-106: one update conditioned on
    [state = 'pending'] and [locked_by is null]; [.maybeSingle()] gives
    [null] when no row matched. *)
Definition lockJob (jobId workerId : string) (now : Z) (s : Store)
  : Result (option Job.t) * Store :=
  match s !! jobId with
  | Some j =>
      if bool_decide (Job.state j = PENDING) && bool_decide (Job.locked_by j = None)
      then
        let j' := apply_updates
          (mkUpdates (Some PROCESSING) None None None
             (Some (Some workerId)) (Some (Some now)) (Some now)) j in
        (inr (Some j'), <[jobId := j']> s)
      else (inr None, s)
  | None => (inr None, s)
  end.

(** The filter of [getNextPendingJob], lines 115-117. *)
Definition eligible (now : Z) (j : Job.t) : bool :=
  bool_decide (Job.state j = PENDING)
  && bool_decide (Job.locked_by j = None)
  && match Job.scheduled_at j with
     | None => true
     | Some t => bool_decide (t ≤ now)
     end.

(** [order('created_at', ascending).limit(1)]: the first row of the sorted
    result.  Among rows with the same [created_at] the store is free to
    return any; here the one met first is kept. *)
Definition oldest (rows : list Job.t) : option Job.t :=
  foldr (λ j acc,
           match acc with
           | Some k => if bool_decide (Job.created_at k < Job.created_at j)
                       then Some k else Some j
           | None => Some j
           end) None rows.

(** [getNextPendingJob], lines 108-124. *)
Definition getNextPendingJob (now : Z) (s : Store) : option Job.t :=
  oldest (filter (λ j, eligible now j = true) (snd <$> map_to_list s)).

(** [markJobCompleted], lines 126-133. *)
Definition markJobCompleted (jobId output : string) (now : Z) (s : Store)
  : Result Job.t * Store :=
  updateJob jobId
    (mkUpdates (Some COMPLETED) None None (Some (Some output))
       (Some None) (Some None) None) now s.

(** [markJobFailed], lines 135-145. *)
Definition markJobFailed (jobId error : string) (attempts maxRetries : Z)
    (now : Z) (s : Store) : Result Job.t * Store :=
  let state := if bool_decide (maxRetries ≤ attempts) then DEAD else FAILED in
  updateJob jobId
    (mkUpdates (Some state) (Some attempts) (Some (Some error)) None
       (Some None) (Some None) None) now s.

(** [requeueFailedJob], lines 147-153. *)
Definition requeueFailedJob (jobId : string) (now : Z) (s : Store)
  : Result Job.t * Store :=
  updateJob jobId
    (mkUpdates (Some PENDING) None None None (Some None) (Some None) None) now s.

(** The five mutating operations of the registry, as data, so that a
    statement can range over all of them. *)
Inductive RegistryOp :=
| Create (jobData : JobData)
| Claim (jobId workerId : string)
| Complete (jobId output : string)
| Fail (jobId error : string) (attempts maxRetries : Z)
| Requeue (jobId : string).

Definition apply_op (op : RegistryOp) (now : Z) (s : Store) : Store :=
  match op with
  | Create jobData => (enqueueJob jobData now s).2
  | Claim jobId workerId => (lockJob jobId workerId now s).2
  | Complete jobId output => (markJobCompleted jobId output now s).2
  | Fail jobId error attempts maxRetries =>
      (markJobFailed jobId error attempts maxRetries now s).2
  | Requeue jobId => (requeueFailedJob jobId now s).2
  end.

(** Tables that arise from the empty table by registry operations. *)
Inductive reachable_store : Store → Prop :=
| reach_empty : reachable_store ∅
| reach_op s op now : reachable_store s → reachable_store (apply_op op now s).

(** ** The process and its environment ([src/db.js], timers, the shell) *)

Inductive ExecResult :=
| ExecOk (stdout stderr : string)
| ExecError (msg : string).

(** A pending [setTimeout] whose callback requeues the job, with the
    delay that the timer is armed with ([None]: a delay that is not
    followed). *)
Record Timer := mkTimer {
  t_delay_ms : option Z;
  t_jobId : string
}.

(** The longest delay of a timer of Node. *)
Definition TIMEOUT_MAX : Z := 2 ^ 31 - 1.

(** The delay that Node arms a timer with: the delay asked for when it is
    within 1 .. [TIMEOUT_MAX], and 1 ms otherwise. *)
Definition armed (delay : JS.Num) : option Z :=
  match delay with
  | JS.Exact d =>
      Some (if bool_decide (1 ≤ d) && bool_decide (d ≤ TIMEOUT_MAX) then d else 1)
  | JS.Beyond _ => Some 1
  | JS.Inexact => None
  end.

(** Everything a call can read or change: both tables, the pending
    timers, the clock, the outcome of the coming round trips to the store
    ([true]: the round trip fails) and the outcome of running a command. *)
Record World := mkWorld {
  jobs : gmap string Job.t;
  config : gmap string string;
  timers : list Timer;
  clock : Z;
  faults : list bool;
  shell : string → ExecResult
}.

(** Computations that read and change a state and may throw. *)
Definition ST (S A : Type) : Type := S → Result A * S.

Global Instance ST_ret {S} : MRet (ST S) := λ A x s, (inr x, s).

Global Instance ST_bind {S} : MBind (ST S) := λ A B f c s,
  match c s with
  | (inr x, s') => f x s'
  | (inl e, s') => (inl e, s')
  end.

Definition throw {S A} (e : Error) : ST S A := λ s, (inl e, s).

(** [try { body } catch (e) { handler e }]; [process.exit] is not an
    exception and is not caught. *)
Definition try_catch {S A} (body : ST S A) (handler : Error → ST S A) : ST S A :=
  λ s,
    match body s with
    | (inl (Exit c m), s') => (inl (Exit c m), s')
    | (inl e, s') => handler e s'
    | (inr x, s') => (inr x, s')
    end.

(** [try { body } finally { fin }]. *)
Definition try_finally {S A} (body : ST S A) (fin : ST S unit) : ST S A :=
  λ s,
    match body s with
    | (r, s') =>
        match fin s' with
        | (inr _, s'') => (r, s'')
        | (inl e, s'') => (inl e, s'')
        end
    end.

(** One round trip to the [jobs] table. *)
Definition query {A} (q : Z → Store → Result A * Store) : ST World A :=
  λ σ,
    match faults σ with
    | true :: fs =>
        (inl StoreFailure,
         mkWorld (jobs σ) (config σ) (timers σ) (clock σ) fs (shell σ))
    | _ =>
        let '(r, s') := q (clock σ) (jobs σ) in
        (r, mkWorld s' (config σ) (timers σ) (clock σ) (tail (faults σ)) (shell σ))
    end.

(** [getConfig(key)] of [src/db.js]: [data?.value]. *)
Definition getConfig (key : string) : ST World (option string) :=
  λ σ,
    match faults σ with
    | true :: fs =>
        (inl StoreFailure,
         mkWorld (jobs σ) (config σ) (timers σ) (clock σ) fs (shell σ))
    | _ =>
        (inr (config σ !! key),
         mkWorld (jobs σ) (config σ) (timers σ) (clock σ) (tail (faults σ)) (shell σ))
    end.

Definition setTimeout (jobId : string) (delay : JS.Num) : ST World unit :=
  λ σ,
    (inr tt,
     mkWorld (jobs σ) (config σ) (timers σ ++ [mkTimer (armed delay) jobId])
       (clock σ) (faults σ) (shell σ)).

Definition execAsync (command : string) : ST World (string * string) :=
  λ σ,
    match shell σ command with
    | ExecOk stdout stderr => (inr (stdout, stderr), σ)
    | ExecError msg => (inl (ExecFailure msg), σ)
    end.

(** ** The worker ([src/worker.js]) *)

Record Worker := mkWorker {
  workerId : string;
  isRunning : bool;
  currentJob : option Job.t
}.

(** [parseInt(await getConfig('backoff_base')) || 2]. *)
Definition backoffBase (v : option string) : Z :=
  JS.or_num (JS.parseInt_opt v) 2.

(** The callback given to [setTimeout] by [handleJobFailure]. *)
Definition requeue_callback (jobId : string) : ST World unit :=
  try_catch (query (requeueFailedJob jobId) ;; mret tt) (λ err, mret tt).

(** [Worker.handleJobFailure]. *)
Definition handleJobFailure (job : Job.t) (error : Error) : ST World unit :=
  let attempts := Job.attempts job + 1 in
  let maxRetries := Job.max_retries job in
  let errorMessage := JS.or_str (message error) "Unknown error" in
  query (markJobFailed (Job.id job) errorMessage attempts maxRetries) ;;
  if bool_decide (attempts < maxRetries) then
    v ← getConfig "backoff_base";
    let delaySeconds := JS.Math_pow (backoffBase v) attempts in
    setTimeout (Job.id job) (JS.times_1000 delaySeconds)
  else mret tt.

(** The [try] block of [executeJob]. *)
Definition run_command (job : Job.t) : ST World unit :=
  '(stdout, stderr) ← execAsync (Job.command job);
  let output :=
    JS.or_str stdout (JS.or_str stderr "Command executed successfully") in
  query (markJobCompleted (Job.id job) output) ;;
  mret tt.

(** [Worker.executeJob]: whatever the [try] block throws, also a failure
    to store the completion, is handled as a failure of the job. *)
Definition executeJob (job : Job.t) : ST World unit :=
  try_catch (run_command job) (λ error, handleJobFailure job error).

Definition lift {A} (c : ST World A) : ST (Worker * World) A :=
  λ '(w, σ), let '(r, σ') := c σ in (r, (w, σ')).

Definition this : ST (Worker * World) Worker := λ s, (inr s.1, s).

Definition set_currentJob (j : option Job.t) : ST (Worker * World) unit :=
  λ '(w, σ), (inr tt, (mkWorker (workerId w) (isRunning w) j, σ)).

(** [Worker.processNextJob]: the guard, then [try]/[catch]/[finally]. *)
Definition processNextJob : ST (Worker * World) unit :=
  w ← this;
  if negb (isRunning w) || bool_decide (is_Some (currentJob w)) then mret tt
  else
    try_finally
      (try_catch
         (job ← lift (query (λ now s, (inr (getNextPendingJob now s), s)));
          match job with
          | None => mret tt
          | Some job =>
              lockedJob ← lift (query (lockJob (Job.id job) (workerId w)));
              match lockedJob with
              | None => mret tt
              | Some lockedJob =>
                  set_currentJob (Some lockedJob) ;;
                  lift (executeJob lockedJob)
              end
          end)
         (λ error, mret tt))
      (set_currentJob None).

(** A timer comes due: it leaves the list and its callback runs. *)
Definition fire (i : nat) : ST World unit :=
  λ σ,
    match timers σ !! i with
    | Some t =>
        requeue_callback (t_jobId t)
          (mkWorld (jobs σ) (config σ) (delete i (timers σ)) (clock σ)
             (faults σ) (shell σ))
    | None => (inr tt, σ)
    end.

(** ** The command-line actions ([queuectl.js]) *)

(** The parsed argument of [enqueue]. *)
Record JobSpec := mkJobSpec {
  spec_id : option string;
  spec_command : option string;
  spec_max_retries : Value;
  spec_scheduled_at : Value
}.

(** [catch (error) { console.error(prefix, error.message); process.exit(1) }] *)
Definition exit_on_error {A} (prefix : string) (c : ST World A) : ST World A :=
  try_catch c (λ error, throw (Exit 1 (prefix ++ message error))).

(** [parseInt(await getConfig('max_retries')) || 3]. *)
Definition default_max_retries (v : option string) : Z :=
  JS.or_num (JS.parseInt_opt v) 3.

(** [jobSpec.max_retries || parseInt(await getConfig('max_retries')) || 3];
    the configuration is read only when the field is falsy. *)
Definition enqueue_max_retries (jobSpec : JobSpec) : ST World Value :=
  if truthy (spec_max_retries jobSpec)
  then mret (spec_max_retries jobSpec)
  else v ← getConfig "max_retries"; mret (number (default_max_retries v)).

(** [jobSpec.id || randomUUID()]. *)
Definition enqueue_id (jobSpec : JobSpec) (uuid : string) : string :=
  if JS.falsy_str (spec_id jobSpec) then uuid else default uuid (spec_id jobSpec).

(** The action of [enqueue], [queuectl.js] lines 28-50, on the parsed
    argument; [uuid] is what [randomUUID()] would return. *)
Definition enqueue_action (jobSpec : JobSpec) (uuid : string) : ST World Job.t :=
  exit_on_error "Error enqueueing job: "
    (if JS.falsy_str (spec_command jobSpec)
     then throw (Exit 1 ("Error: Job must have a " ++ dquote ++ "command"
                         ++ dquote ++ " field"))
     else
       max_retries ← enqueue_max_retries jobSpec;
       query (enqueueJob
                (mkJobData
                   (enqueue_id jobSpec uuid)
                   (default "" (spec_command jobSpec))
                   max_retries
                   (or_value (spec_scheduled_at jobSpec) undefined)))).

(** The action of [dlq retry], [queuectl.js] lines 214-234. *)
Definition dlq_retry_action (jobId : string) : ST World unit :=
  exit_on_error "Error retrying job: "
    (job ← query (λ _ s, (inr (getJob jobId s), s));
     match job with
     | None => throw (Exit 1 ("Error: Job " ++ jobId ++ " not found"))
     | Some job =>
         if bool_decide (Job.state job ≠ DEAD)
         then throw (Exit 1 ("Error: Job " ++ jobId
                             ++ " is not in DLQ (current state: "
                             ++ state_name (Job.state job) ++ ")"))
         else query (requeueFailedJob jobId) ;; mret tt
     end).

(** ** The system: one store, several workers, the operator

    A state is the world together with the executions in flight: for each
    claimed job that its worker has not finished yet, the row that
    [lockJob] returned to the worker (the [lockedJob] that [executeJob]
    and [handleJobFailure] work from; a worker whose poll ticks overlap may
    have more than one).  A step is a command-line action, a
    claim by a worker (the conditional update of [lockJob]; the preceding
    select only picks the id), the execution of a claimed job, a timer
    coming due, or a change of the environment (time passing,
    configuration edits, store outages, what the shell will answer).

    A [dlq retry] is one step here, its read and its write together: a run
    in which it occurs stands for the executions in which nothing comes
    between the two round trips.  The properties of the life cycle that
    would not survive a write arriving later are stated for runs without
    [dlq retry]. *)

Record Sys := mkSys {
  world : World;
  held : gmap string Job.t
}.

Inductive Op :=
| OpEnv (clock : Z) (config : gmap string string) (faults : list bool)
        (shell : string → ExecResult)
| OpEnqueue (jobSpec : JobSpec) (uuid : string)
| OpClaim (workerId jobId : string)
| OpExecute (jobId : string)
| OpTimer (i : nat)
| OpDlqRetry (jobId : string).

Definition exec (op : Op) (σ : Sys) : Sys :=
  match op with
  | OpEnv c cfg f sh =>
      mkSys (mkWorld (jobs (world σ)) cfg (timers (world σ)) c f sh) (held σ)
  | OpEnqueue jobSpec uuid =>
      mkSys (enqueue_action jobSpec uuid (world σ)).2 (held σ)
  | OpClaim w jobId =>
      match query (lockJob jobId w) (world σ) with
      | (inr (Some lockedJob), σ') => mkSys σ' (<[jobId := lockedJob]> (held σ))
      | (_, σ') => mkSys σ' (held σ)
      end
  | OpExecute jobId =>
      match held σ !! jobId with
      | Some job => mkSys (executeJob job (world σ)).2 (delete jobId (held σ))
      | None => σ
      end
  | OpTimer i => mkSys (fire i (world σ)).2 (held σ)
  | OpDlqRetry jobId => mkSys (dlq_retry_action jobId (world σ)).2 (held σ)
  end.

Definition run (ops : list Op) (σ : Sys) : Sys :=
  foldl (λ σ op, exec op σ) σ ops.

(** The state after the migration: empty [jobs], default configuration. *)
Definition init : Sys :=
  mkSys
    (mkWorld ∅ (<["max_retries" := "3"]> (<["backoff_base" := "2"]> ∅)) [] 0 []
       (λ _, ExecOk "" ""))
    ∅.

Definition is_dlq_retry (op : Op) : bool :=
  match op with
  | OpDlqRetry _ => true
  | _ => false
  end.

(** ** Sample data used by the examples *)

Module Sample.

Definition sh_fail : string → ExecResult := λ _, ExecError "Command failed: false".
Definition sh_ok : string → ExecResult := λ _, ExecOk "done" "".

Definition cfg (max_retries backoff_base : string) : gmap string string :=
  <["max_retries" := max_retries]> (<["backoff_base" := backoff_base]> ∅).

(** A job that worker [w1] has claimed. *)
Definition claimed (attempts max_retries : Z) : Job.t :=
  Job.mk "a" "false" PROCESSING attempts max_retries 1 2 None None None
    (Some "w1") (Some 2).

Definition pending : Job.t :=
  Job.mk "a" "true" PENDING 0 3 5 5 None None None None None.

(** A world whose [jobs] table holds the one row [j]. *)
Definition world_of (j : Job.t) (config : gmap string string)
    (faults : list bool) (shell : string → ExecResult) : World :=
  mkWorld (<[Job.id j := j]> ∅) config [] 10 faults shell.

(** Two pending jobs: ["a"], the older, scheduled for instant 20, and
    ["b"], unscheduled. *)
Definition scheduled : Job.t :=
  Job.mk "a" "true" PENDING 0 3 1 1 (Some 20) None None None None.

Definition later : Job.t :=
  Job.mk "b" "true" PENDING 0 3 5 5 None None None None None.

Definition two_jobs : Store := <["a" := scheduled]> (<["b" := later]> ∅).

Definition t2 : JobSpec :=
  mkJobSpec (Some "t2") (Some "false") (number 2) undefined.

(** [t2] is enqueued, fails twice (the timer requeues it in between) and
    is dead. *)
Definition exhaust : list Op :=
  [OpEnv 10 (cfg "3" "2") [] sh_fail; OpEnqueue t2 "u";
   OpClaim "w1" "t2"; OpExecute "t2"; OpTimer 0;
   OpClaim "w1" "t2"; OpExecute "t2"].

(** Then the operator retries it from the DLQ and it fails again. *)
Definition dlq_retry_and_fail : list Op :=
  exhaust ++ [OpDlqRetry "t2"; OpClaim "w2" "t2"; OpExecute "t2"].

End Sample.

(** ** Vocabulary of the statements *)

(** The lock invariant of a row. *)
Definition lock_iff_processing (j : Job.t) : Prop :=
  Job.locked_by j ≠ None ↔ Job.state j = PROCESSING.

Definition is_exit (e : Error) : bool :=
  match e with
  | Exit _ _ => true
  | _ => false
  end.

(** A computation that never ends the process. *)
Definition never_exits {S A} (c : ST S A) : Prop :=
  ∀ s e, (c s).1 = inl e → is_exit e = false.

(** The retry ceiling that the [enqueue] action hands to [enqueueJob]:
    the value of
    [jobSpec.max_retries || parseInt(await getConfig('max_retries')) || 3]. *)
Definition enqueue_ceiling (jobSpec : JobSpec) (σ : World) : Value :=
  if truthy (spec_max_retries jobSpec)
  then spec_max_retries jobSpec
  else number (default_max_retries (config σ !! "max_retries")).


(** The delay, in ms, that the requeue timer is armed with after the
    failure that brings the count of attempts to [attempts]. *)
Definition timer_delay (base attempts : Z) : option Z :=
  armed (JS.times_1000 (JS.Math_pow base attempts)).

(** The rows that the updates of the registry write. *)
Definition row_locked (workerId : string) (now : Z) (j : Job.t) : Job.t :=
  apply_updates
    (mkUpdates (Some PROCESSING) None None None (Some (Some workerId))
       (Some (Some now)) (Some now)) j.

Definition row_completed (output : string) (now : Z) (j : Job.t) : Job.t :=
  apply_updates
    (mkUpdates (Some COMPLETED) None None (Some (Some output)) (Some None)
       (Some None) (Some now)) j.

Definition row_failed (error : string) (attempts maxRetries : Z) (now : Z)
    (j : Job.t) : Job.t :=
  apply_updates
    (mkUpdates (Some (if bool_decide (maxRetries ≤ attempts) then DEAD else FAILED))
       (Some attempts) (Some (Some error)) None (Some None) (Some None)
       (Some now)) j.

Definition row_requeued (now : Z) (j : Job.t) : Job.t :=
  apply_updates
    (mkUpdates (Some PENDING) None None None (Some None) (Some None) (Some now)) j.

(** What every row of a reachable table satisfies. *)
Definition row_ok (j : Job.t) : Prop :=
  0 ≤ Job.attempts j
  ∧ (Job.state j = DEAD → Job.max_retries j ≤ Job.attempts j).

(** The structure that ties the table, the executions in flight and the
    pending timers together. *)
Record Inv_c (s : Store) (hd : gmap string Job.t) (tm : list Timer) : Prop := {
  inv_key : ∀ k j, s !! k = Some j → Job.id j = k;
  inv_rows : ∀ k j, s !! k = Some j → row_ok j;
  inv_held : ∀ k j, hd !! k = Some j →
    s !! k = Some j ∧ Job.state j = PROCESSING;
  inv_timers : ∀ t, t ∈ tm →
    ∃ j, s !! t_jobId t = Some j ∧ Job.state j = FAILED;
  inv_nodup : NoDup (t_jobId <$> tm)
}.

Definition Inv (σ : Sys) : Prop :=
  Inv_c (jobs (world σ)) (held σ) (timers (world σ)).

(** The bound on attempts that holds as long as no dead job is requeued. *)
Definition bounded_row (j : Job.t) : Prop :=
  0 < Job.max_retries j →
  (Job.state j ≠ DEAD → Job.attempts j < Job.max_retries j)
  ∧ (Job.state j = DEAD → Job.attempts j = Job.max_retries j).

Definition Bounded (σ : Sys) : Prop :=
  ∀ k j, jobs (world σ) !! k = Some j → bounded_row j.


(** ** The reading functions of the registry ([src/job.js]) *)

(** [select('*')]: the rows of the table.  The store is taken to return
    every row that matches (no limit on the rows of an answer is set). *)
Definition all_rows (s : Store) : list Job.t := snd <$> map_to_list s.

(** The two orders of [.order('created_at', ...)]. *)
Definition older_first (a b : Job.t) : Prop := Job.created_at a ≤ Job.created_at b.
Definition newer_first (a b : Job.t) : Prop := Job.created_at b ≤ Job.created_at a.

Global Instance older_first_dec a b : Decision (older_first a b).
Proof. unfold older_first. apply _. Defined.

Global Instance newer_first_dec a b : Decision (newer_first a b).
Proof. unfold newer_first. apply _. Defined.

(** [getJobsByState], lines 39-49.  The argument is the text the caller
    passes; the column is compared with it.  Rows with the same
    [created_at] come in an order the store chooses. *)
Definition getJobsByState (state : string) (s : Store) : list Job.t :=
  merge_sort older_first
    (filter (λ j, state_name (Job.state j) = state) (all_rows s)).

(** [getAllJobs], lines 51-60. *)
Definition getAllJobs (s : Store) : list Job.t :=
  merge_sort newer_first (all_rows s).

(** The object that [getJobStats] returns. *)
Record Stats := mkStats {
  st_pending : Z;
  st_processing : Z;
  st_completed : Z;
  st_failed : Z;
  st_dead : Z;
  st_total : Z
}.

(** [stats[job.state]++]. *)
Definition bump (stats : Stats) (state : JobState) : Stats :=
  match state with
  | PENDING =>
      mkStats (st_pending stats + 1) (st_processing stats) (st_completed stats)
        (st_failed stats) (st_dead stats) (st_total stats)
  | PROCESSING =>
      mkStats (st_pending stats) (st_processing stats + 1) (st_completed stats)
        (st_failed stats) (st_dead stats) (st_total stats)
  | COMPLETED =>
      mkStats (st_pending stats) (st_processing stats) (st_completed stats + 1)
        (st_failed stats) (st_dead stats) (st_total stats)
  | FAILED =>
      mkStats (st_pending stats) (st_processing stats) (st_completed stats)
        (st_failed stats + 1) (st_dead stats) (st_total stats)
  | DEAD =>
      mkStats (st_pending stats) (st_processing stats) (st_completed stats)
        (st_failed stats) (st_dead stats + 1) (st_total stats)
  end.

(** [getJobStats], lines 155-177. *)
Definition getJobStats (s : Store) : Stats :=
  let data := all_rows s in
  foldl (λ stats job, bump stats (Job.state job))
    (mkStats 0 0 0 0 0 (Z.of_nat (length data))) data.

(** The counter of a state in the object. *)
Definition counter (stats : Stats) (state : JobState) : Z :=
  match state with
  | PENDING => st_pending stats
  | PROCESSING => st_processing stats
  | COMPLETED => st_completed stats
  | FAILED => st_failed stats
  | DEAD => st_dead stats
  end.

(** 1 when the two states are the same, else 0. *)
Definition indicator (st st' : JobState) : Z :=
  if decide (st = st') then 1 else 0.

(** ** The life cycle of a row

    [edge σ op j j']: the step [op], taken in the state [σ], makes the row
    [j'] out of the row [j] with the same id ([None]: there was no such
    row).  The rows written are those of the registry's updates. *)
Inductive edge (σ : Sys) (op : Op) : option Job.t → Job.t → Prop :=
| edge_create jobSpec uuid j' :
    op = OpEnqueue jobSpec uuid →
    Job.state j' = PENDING → Job.attempts j' = 0 → Job.locked_by j' = None →
    edge σ op None j'
| edge_claim w j :
    op = OpClaim w (Job.id j) →
    Job.state j = PENDING → Job.locked_by j = None →
    edge σ op (Some j) (row_locked w (clock (world σ)) j)
| edge_complete j output :
    op = OpExecute (Job.id j) →
    Job.state j = PROCESSING → held σ !! Job.id j = Some j →
    edge σ op (Some j) (row_completed output (clock (world σ)) j)
| edge_fail j error :
    op = OpExecute (Job.id j) →
    Job.state j = PROCESSING → held σ !! Job.id j = Some j →
    edge σ op (Some j)
      (row_failed error (Job.attempts j + 1) (Job.max_retries j)
         (clock (world σ)) j)
| edge_requeue i t j :
    op = OpTimer i →
    timers (world σ) !! i = Some t → t_jobId t = Job.id j →
    Job.state j = FAILED →
    edge σ op (Some j) (row_requeued (clock (world σ)) j)
| edge_dlq_retry j :
    op = OpDlqRetry (Job.id j) →
    Job.state j = DEAD →
    edge σ op (Some j) (row_requeued (clock (world σ)) j).

(** ** Scenarios used by the examples *)

Module Scenario.

Definition t1 : JobSpec :=
  mkJobSpec (Some "t1") (Some "true") undefined undefined.

(** [t1] is claimed and its command runs, but the store is down while the
    result is recorded. *)
Definition store_down : list Op :=
  [OpEnv 10 (Sample.cfg "3" "2") [] Sample.sh_ok; OpEnqueue t1 "u";
   OpClaim "w1" "t1";
   OpEnv 11 (Sample.cfg "3" "2") [true; true] Sample.sh_ok; OpExecute "t1"].

(** [t1] fails and the failure is recorded, but the configuration cannot
    be read for the backoff. *)
Definition retry_lost : list Op :=
  [OpEnv 10 (Sample.cfg "3" "2") [] Sample.sh_fail; OpEnqueue t1 "u";
   OpClaim "w1" "t1";
   OpEnv 11 (Sample.cfg "3" "2") [false; true] Sample.sh_fail; OpExecute "t1"].

(** [t1] runs to completion. *)
Definition success : list Op :=
  [OpEnv 10 (Sample.cfg "3" "2") [] Sample.sh_ok; OpEnqueue t1 "u";
   OpClaim "w1" "t1"; OpExecute "t1"].

End Scenario.

(** The columns that no update of the registry writes. *)
Definition keeps_columns (j j' : Job.t) : Prop :=
  Job.id j' = Job.id j ∧ Job.command j' = Job.command j
  ∧ Job.max_retries j' = Job.max_retries j
  ∧ Job.created_at j' = Job.created_at j
  ∧ Job.scheduled_at j' = Job.scheduled_at j.

(** ** The configuration ([src/db.js], [queuectl.js]) *)

(** [setConfig(key, value)], lines 57-64 of [src/db.js]: an upsert on the
    key, which stores the text as given. *)
Definition setConfig (key value : string) : ST World unit :=
  λ σ,
    match faults σ with
    | true :: fs =>
        (inl StoreFailure,
         mkWorld (jobs σ) (config σ) (timers σ) (clock σ) fs (shell σ))
    | _ =>
        (inr tt,
         mkWorld (jobs σ) (<[key := value]> (config σ)) (timers σ) (clock σ)
           (tail (faults σ)) (shell σ))
    end.

(** [key.replace(/-/g, '_')]. *)
Fixpoint replace_dashes (key : string) : string :=
  match key with
  | String c r =>
      String (if bool_decide (c = "-"%char) then "_"%char else c)
        (replace_dashes r)
  | EmptyString => EmptyString
  end.

(** [['max_retries', 'backoff_base']]. *)
Definition config_keys : list string := ["max_retries"; "backoff_base"].

Definition invalid_config_key : Error :=
  Exit 1 "Error: Invalid config key. Must be one of: max-retries, backoff-base".

(** The action of [config set], [queuectl.js] lines 243-263. *)
Definition config_set_action (key value : string) : ST World unit :=
  exit_on_error "Error setting config: "
    (let normalizedKey := replace_dashes key in
     if negb (bool_decide (normalizedKey ∈ config_keys))
     then throw invalid_config_key
     else if negb (bool_decide (is_Some (JS.parseInt value)))
     then throw (Exit 1 "Error: Value must be a number")
     else setConfig normalizedKey value).

(** The action of [config get], lines 269-284; the result is the value
    that is printed ([None]: the text [undefined]). *)
Definition config_get_action (key : string) : ST World (option string) :=
  exit_on_error "Error getting config: "
    (let normalizedKey := replace_dashes key in
     if negb (bool_decide (normalizedKey ∈ config_keys))
     then throw invalid_config_key
     else getConfig normalizedKey).

(** The action of [config list], lines 289-302; the result is the pair of
    values that is printed. *)
Definition config_list_action : ST World (option string * option string) :=
  exit_on_error "Error listing config: "
    (maxRetries ← getConfig "max_retries";
     backoffBase ← getConfig "backoff_base";
     mret (maxRetries, backoffBase)).

(** ** Listing ([queuectl.js]) *)

(** [Object.values(JobState)]. *)
Definition job_states : list string :=
  state_name <$> [PENDING; PROCESSING; COMPLETED; FAILED; DEAD].

(** The action of [list], lines 142-179; the result is the list of jobs
    that is printed. *)
Definition list_action (state : string) : ST World (list Job.t) :=
  exit_on_error "Error listing jobs: "
    (if bool_decide (state = "all")
     then query (λ _ s, (inr (getAllJobs s), s))
     else if negb (bool_decide (state ∈ job_states))
     then throw (Exit 1 ("Error: Invalid state. Must be one of: "
                         ++ String.concat ", " job_states))
     else query (λ _ s, (inr (getJobsByState state s), s))).

(** The action of [dlq list], lines 186-208. *)
Definition dlq_list_action : ST World (list Job.t) :=
  exit_on_error "Error listing DLQ: "
    (query (λ _ s, (inr (getJobsByState (state_name DEAD) s), s))).

(** ** The [workers] table ([supabase/migrations], [src/worker.js]) *)

Inductive WorkerStatus := ACTIVE | STOPPED.

Global Instance WorkerStatus_eq_dec : EqDecision WorkerStatus.
Proof. solve_decision. Defined.

(** A row of the [workers] table. *)
Record WorkerRow := mkWorkerRow {
  wr_id : string;
  wr_status : WorkerStatus;
  wr_started_at : Z;
  wr_last_heartbeat : Z;
  wr_current_job_id : option string
}.

Abbreviation Workers := (gmap string WorkerRow).

(** The store with its third table. *)
Record Db := mkDb {
  base : World;
  workers : Workers
}.




Definition set_stopped (r : WorkerRow) : WorkerRow :=
  mkWorkerRow (wr_id r) STOPPED (wr_started_at r) (wr_last_heartbeat r)
    (wr_current_job_id r).

(** [update({ status: 'stopped' }).eq('id', id)]. *)
Definition update_stopped (id : string) (now : Z) (s : Store) (t : Workers)
  : Workers :=
  match t !! id with
  | Some r => <[id := set_stopped r]> t
  | None => t
  end.


(** A statement on the [workers] table whose result the caller does not
    look at ([await supabase.from('workers')...] with nothing bound): when
    the round trip fails nothing is written, and the caller goes on either
    way. *)
Definition send (statement : Z → Store → Workers → Workers) : ST Db unit :=
  λ d,
    let σ := base d in
    match faults σ with
    | true :: fs =>
        (inr tt,
         mkDb (mkWorld (jobs σ) (config σ) (timers σ) (clock σ) fs (shell σ))
           (workers d))
    | _ =>
        (inr tt,
         mkDb (mkWorld (jobs σ) (config σ) (timers σ) (clock σ)
                 (tail (faults σ)) (shell σ))
           (statement (clock σ) (jobs σ) (workers d)))
    end.




(** *** The methods of [Worker] that write the table *)

Definition liftW {A} (c : ST Db A) : ST (Worker * Db) A :=
  λ '(w, d), let '(r, d') := c d in (r, (w, d')).


Definition thisW : ST (Worker * Db) Worker := λ s, (inr s.1, s).

Definition set_isRunning (b : bool) : ST (Worker * Db) unit :=
  λ '(w, d), (inr tt, (mkWorker (workerId w) b (currentJob w), d)).





(** The loop of [stop], lines 197-200: while the marker is set, wait.
    [during] lists what the rest of the process does during each wait;
    the result is [false] when the marker is still set after all of
    them. *)
Fixpoint wait_idle (during : list (ST (Worker * Db) unit))
  : ST (Worker * Db) bool :=
  λ s,
    match currentJob s.1 with
    | None => (inr true, s)
    | Some _ =>
        match during with
        | c :: rest => wait_idle rest (c s).2
        | [] => (inr false, s)
        end
    end.

(** [Worker.stop], lines 185-209; the result tells whether the loop was
    left. *)
Definition stop (during : list (ST (Worker * Db) unit))
  : ST (Worker * Db) bool :=
  set_isRunning false ;;
  wait_idle during ≫= λ idle : bool,
    if idle
    then w ← thisW; liftW (send (update_stopped (workerId w))) ;; mret true
    else mret false.




(** ** The client of the store ([src/db.js], [getSupabase])

    The text of the [.env] file is taken to be ASCII, so that a character
    is a byte: the white space of [trim] is then the set that [parseInt]
    skips, and the line ends that [.] does not match are the line feed and
    the carriage return. *)

Definition LF : ascii := ascii_of_nat 10.
Definition CR : ascii := ascii_of_nat 13.

(** [envContent.split('\n')]. *)
Fixpoint split_lines (s : string) : list string :=
  match s with
  | EmptyString => [EmptyString]
  | String c r =>
      if bool_decide (c = LF) then EmptyString :: split_lines r
      else
        match split_lines r with
        | l :: ls => String c l :: ls
        | [] => [String c EmptyString]
        end
  end.

(** [s.trim()]. *)
Fixpoint trim_end (s : string) : string :=
  match s with
  | EmptyString => EmptyString
  | String c r =>
      match trim_end r with
      | EmptyString => if JS.is_ws c then EmptyString else String c EmptyString
      | r' => String c r'
      end
  end.

Definition trim (s : string) : string := trim_end (JS.skip_ws s).

(** The group [([^#=]+)]: the longest prefix without [#] and [=], and
    what follows it. *)
Fixpoint key_part (s : string) : string * string :=
  match s with
  | String c r =>
      if bool_decide (c = "#"%char) || bool_decide (c = "="%char)
      then (EmptyString, s)
      else let '(k, rest) := key_part r in (String c k, rest)
  | EmptyString => (EmptyString, EmptyString)
  end.

Fixpoint has_char (c : ascii) (s : string) : bool :=
  match s with
  | String c' r => bool_decide (c' = c) || has_char c r
  | EmptyString => false
  end.

(** [line.match(re)] for the expression of line 22, which reads: start of
    the text, a group of one or more characters other than [#] and [=],
    an [=], a group of any characters but line ends, end of the text.  The
    result is the two groups.  The first group cannot hold an [=], so it
    ends at the first one; the second must then reach the end of the text
    without meeting a line end. *)
Definition match_line (line : string) : option (string * string) :=
  match key_part line with
  | (String c k, String "="%char v) =>
      if has_char CR v || has_char LF v then None else Some (String c k, v)
  | _ => None
  end.

(** The body of the [forEach]. *)
Definition read_line (envVars : gmap string string) (line : string)
  : gmap string string :=
  match match_line line with
  | Some (key, value) => <[trim key := trim value]> envVars
  | None => envVars
  end.

Definition parse_env (envContent : string) : gmap string string :=
  foldl read_line ∅ (split_lines envContent).

(** [a || b] on texts that may be [undefined]. *)
Definition or_undefined (a b : option string) : option string :=
  if JS.falsy_str a then b else a.

Definition init_failure (msg : string) : Error :=
  Exit 1 ("Failed to initialize Supabase client: " ++ msg).

Section Client.

(** The client object and [createClient], which may throw (with the given
    message). *)
Context {Client : Type} (createClient : string → string → sum string Client).

(** [getSupabase], lines 11-43.  [supabase] is the module variable that
    caches the client; [env_file] is what [readFileSync] gives for [.env]
    (on the left the message of the error that it throws), [process_env]
    the environment of the process.  The result goes with the new value
    of the module variable.  (The functions above are modelled with the
    client made.) *)
Definition getSupabase (supabase : option Client) (env_file : sum string string)
    (process_env : gmap string string) : Result Client * option Client :=
  match supabase with
  | Some client => (inr client, supabase)
  | None =>
      match env_file with
      | inl msg => (inl (init_failure msg), None)
      | inr envContent =>
          let envVars := parse_env envContent in
          let supabaseUrl :=
            or_undefined (envVars !! "SUPABASE_URL")
              (process_env !! "SUPABASE_URL") in
          let supabaseKey :=
            or_undefined (envVars !! "SUPABASE_SERVICE_ROLE_KEY")
              (process_env !! "SUPABASE_SERVICE_ROLE_KEY") in
          if JS.falsy_str supabaseUrl || JS.falsy_str supabaseKey
          then
            (inl (init_failure
                    "SUPABASE_URL and SUPABASE_SERVICE_ROLE_KEY must be set in .env file"),
             None)
          else
            match createClient (default "" supabaseUrl) (default "" supabaseKey) with
            | inr client => (inr client, Some client)
            | inl msg => (inl (init_failure msg), None)
            end
      end
  end.

End Client.

(** A text file written with the given line end after each line. *)
Definition unlines (eol : string) (lines : list string) : string :=
  foldr (λ l rest : string, (l ++ eol ++ rest)%string) EmptyString lines.
(** * Properties *)

(** ** The registry *)

Lemma updateJob_row jobId u now (s : Store) j :
  s !! jobId = Some j →
  updateJob jobId u now s =
    (inr (apply_updates
            (mkUpdates (u_state u) (u_attempts u) (u_last_error u) (u_output u)
               (u_locked_by u) (u_locked_at u) (Some now)) j),
     <[jobId :=
         apply_updates
           (mkUpdates (u_state u) (u_attempts u) (u_last_error u) (u_output u)
              (u_locked_by u) (u_locked_at u) (Some now)) j]> s).
Proof. intros H. unfold updateJob. by rewrite H. Qed.

Lemma updateJob_no_row jobId u now (s : Store) :
  s !! jobId = None → updateJob jobId u now s = (inl NoRows, s).
Proof. intros H. unfold updateJob. by rewrite H. Qed.

(** What a registry operation can do to the row under a key: leave it, or
    write the row the operation builds. *)
Ltac registry_cases :=
  unfold apply_op, enqueueJob, lockJob, markJobCompleted, markJobFailed,
    requeueFailedJob, updateJob in *;
  repeat case_match; simplify_eq/=;
  repeat match goal with
    | H : <[_ := _]> _ !! _ = Some _ |- _ =>
        rewrite lookup_insert in H; case_decide; simplify_eq/=
    end.

(** C1. [lockJob] moves the job to [processing], with [locked_by] the
    worker and [locked_at] the instant of the call, exactly when the row
    exists, is [pending] and has no lock at the time of the update; in
    every other case it returns nothing and leaves the table as it is. *)
Theorem lockJob_conditional (jobId workerId : string) (now : Z) (s : Store) :
  (∀ j, s !! jobId = Some j → Job.state j = PENDING → Job.locked_by j = None →
     ∃ j', lockJob jobId workerId now s = (inr (Some j'), <[jobId := j']> s)
       ∧ Job.state j' = PROCESSING
       ∧ Job.locked_by j' = Some workerId
       ∧ Job.locked_at j' = Some now
       ∧ Job.updated_at j' = now
       ∧ Job.id j' = Job.id j ∧ Job.command j' = Job.command j
       ∧ Job.attempts j' = Job.attempts j
       ∧ Job.max_retries j' = Job.max_retries j
       ∧ Job.created_at j' = Job.created_at j
       ∧ Job.scheduled_at j' = Job.scheduled_at j
       ∧ Job.last_error j' = Job.last_error j
       ∧ Job.output j' = Job.output j)
  ∧ ((¬ ∃ j, s !! jobId = Some j ∧ Job.state j = PENDING ∧ Job.locked_by j = None) →
     lockJob jobId workerId now s = (inr None, s)).
Proof.
  split.
  - intros j Hj Hst Hl. unfold lockJob. rewrite Hj.
    rewrite !bool_decide_eq_true_2 by done. simpl.
    eexists. split; [reflexivity|]. simpl. tauto.
  - intros Hno. unfold lockJob.
    destruct (s !! jobId) as [j|] eqn:Hj; [|done].
    destruct (bool_decide (Job.state j = PENDING)) eqn:E1;
      destruct (bool_decide (Job.locked_by j = None)) eqn:E2; simpl; try done.
    apply bool_decide_eq_true in E1, E2. exfalso. apply Hno. eauto.
Qed.

Lemma lockJob_conditional_witness :
  ∃ j', lockJob "a" "w1" 7 (<["a" := Sample.pending]> ∅)
        = (inr (Some j'), <["a" := j']> (<["a" := Sample.pending]> ∅))
        ∧ Job.state j' = PROCESSING ∧ Job.locked_by j' = Some "w1".
Proof.
  destruct (lockJob_conditional "a" "w1" 7 (<["a" := Sample.pending]> ∅))
    as [H _].
  destruct (H Sample.pending) as (j' & E & ? & ? & _); [reflexivity..|].
  exists j'. auto.
Defined.

(** C3. On an existing row [markJobFailed] writes [dead] when
    [attempts >= maxRetries] and [failed] otherwise, stores the error text
    and the attempts it was given, and clears both lock columns; and among
    the registry operations only [markJobFailed] makes a row [dead]: a row
    that is [dead] after an operation was [dead] before it, or the
    operation was a [Fail] on that row with [attempts >= maxRetries]. *)
Theorem markJobFailed_only_source_of_dead :
  (∀ jobId error attempts maxRetries now (s : Store) j,
     s !! jobId = Some j →
     ∃ j', markJobFailed jobId error attempts maxRetries now s
             = (inr j', <[jobId := j']> s)
       ∧ (maxRetries ≤ attempts → Job.state j' = DEAD)
       ∧ (attempts < maxRetries → Job.state j' = FAILED)
       ∧ Job.last_error j' = Some error
       ∧ Job.attempts j' = attempts
       ∧ Job.locked_by j' = None
       ∧ Job.locked_at j' = None
       ∧ Job.id j' = Job.id j ∧ Job.command j' = Job.command j
       ∧ Job.max_retries j' = Job.max_retries j
       ∧ Job.created_at j' = Job.created_at j
       ∧ Job.scheduled_at j' = Job.scheduled_at j
       ∧ Job.output j' = Job.output j)
  ∧ (∀ op now (s : Store) k j',
       apply_op op now s !! k = Some j' → Job.state j' = DEAD →
       (∃ j, s !! k = Some j ∧ Job.state j = DEAD)
       ∨ (∃ error attempts maxRetries,
            op = Fail k error attempts maxRetries ∧ maxRetries ≤ attempts)).
Proof.
  split.
  - intros jobId error attempts maxRetries now s j Hj.
    unfold markJobFailed. rewrite (updateJob_row _ _ _ _ _ Hj).
    eexists. split; [reflexivity|]. simpl.
    repeat split; intros; case_bool_decide; done || lia.
  - intros op now s k j' Hk Hd.
    destruct op; registry_cases; eauto.
    right. eexists _, _, _. split; [reflexivity|].
    by case_bool_decide.
Qed.

Lemma markJobFailed_only_source_of_dead_witness :
  ∃ j', markJobFailed "a" "boom" 2 2 9 (<["a" := Sample.claimed 1 2]> ∅)
        = (inr j', <["a" := j']> (<["a" := Sample.claimed 1 2]> ∅))
        ∧ Job.state j' = DEAD ∧ Job.attempts j' = 2.
Proof.
  destruct markJobFailed_only_source_of_dead as [H _].
  destruct (H "a" "boom" 2 2 9 (<["a" := Sample.claimed 1 2]> ∅)
              (Sample.claimed 1 2))
    as (j' & E & Hd & _ & _ & Ha & _); [reflexivity|].
  exists j'. split; [exact E|]. split; [apply Hd; lia|exact Ha].
Defined.

Lemma apply_op_lock_iff_processing op now (s : Store) :
  (∀ k j, s !! k = Some j → lock_iff_processing j) →
  ∀ k j, apply_op op now s !! k = Some j → lock_iff_processing j.
Proof.
  intros Hinv k j Hk.
  destruct op; registry_cases; eauto; by unfold lock_iff_processing.
Qed.

(** C4. In every table reached from the empty one by the registry
    operations (create, claim, complete, fail, requeue, with any
    arguments), each row has [locked_by] set if and only if its state is
    [processing]. *)
Theorem locked_iff_processing (s : Store) :
  reachable_store s →
  ∀ k j, s !! k = Some j → lock_iff_processing j.
Proof.
  induction 1 as [|s op now _ IH].
  - intros k j Hk. by rewrite lookup_empty in Hk.
  - by apply apply_op_lock_iff_processing.
Qed.

Lemma locked_iff_processing_witness :
  lock_iff_processing
    (Job.mk "a" "true" PROCESSING 0 3 1 2 None None None (Some "w1") (Some 2)).
Proof.
  apply (locked_iff_processing
           (apply_op (Claim "a" "w1") 2
              (apply_op (Create (mkJobData "a" "true" undefined undefined)) 1 ∅))
           (reach_op _ _ _ (reach_op _ _ _ reach_empty)) "a").
  vm_compute. reflexivity.
Defined.

(** *** Selection of the next job *)

Lemma eligible_true now j :
  eligible now j = true ↔
  Job.state j = PENDING ∧ Job.locked_by j = None
  ∧ (Job.scheduled_at j = None ∨ ∃ t, Job.scheduled_at j = Some t ∧ t ≤ now).
Proof.
  unfold eligible. rewrite !andb_true_iff, !bool_decide_eq_true.
  destruct (Job.scheduled_at j) as [t|].
  - rewrite bool_decide_eq_true. split.
    + intros [[? ?] ?]. eauto 10.
    + intros (? & ? & [?|(t' & ? & ?)]); simplify_eq. done.
  - split; [intros [[? ?] _]; auto | intros (? & ? & _); auto].
Qed.

Lemma oldest_nil rows : oldest rows = None ↔ rows = [].
Proof.
  destruct rows as [|j rows]; [done|]. simpl.
  split; [|done]. destruct (oldest rows); [case_bool_decide|]; done.
Qed.

Lemma oldest_minimal rows j :
  oldest rows = Some j →
  j ∈ rows ∧ ∀ k, k ∈ rows → Job.created_at j ≤ Job.created_at k.
Proof.
  revert j. induction rows as [|r rows IH]; intros j; [done|]. simpl.
  destruct (oldest rows) as [k|] eqn:Ho.
  - destruct (IH k eq_refl) as [Hin Hmin]. case_bool_decide; intros [= <-].
    + split; [by right|]. intros x [->|Hx]%elem_of_cons; [lia|auto].
    + split; [by left|]. intros x [->|Hx]%elem_of_cons; [lia|].
      specialize (Hmin x Hx). lia.
  - apply oldest_nil in Ho as ->. intros [= <-].
    split; [by left|]. intros x [->|Hx]%elem_of_cons; [lia|].
    by apply elem_of_nil in Hx.
Qed.

Lemma candidates_elem now (s : Store) j :
  j ∈ filter (λ j, eligible now j = true) (snd <$> map_to_list s) ↔
  eligible now j = true ∧ ∃ k, s !! k = Some j.
Proof.
  rewrite list_elem_of_filter, list_elem_of_fmap. split.
  - intros [He ([k j'] & -> & Hin)]. apply elem_of_map_to_list in Hin. eauto.
  - intros [He [k Hk]]. split; [done|].
    exists (k, j). by rewrite elem_of_map_to_list.
Qed.

(** C7. [getNextPendingJob] returns a row of the table that is [pending],
    unlocked and whose [scheduled_at] is null or not after [now], and no
    such row was created earlier; it returns nothing exactly when there is
    no such row.  A job scheduled after [now] is not returned; once
    [scheduled_at <= now] it is returned, provided it is still pending and
    unlocked and every other candidate was created later. *)
Theorem getNextPendingJob_oldest_eligible (now : Z) (s : Store) :
  (∀ j, getNextPendingJob now s = Some j →
     (∃ k, s !! k = Some j)
     ∧ Job.state j = PENDING ∧ Job.locked_by j = None
     ∧ (Job.scheduled_at j = None ∨ ∃ t, Job.scheduled_at j = Some t ∧ t ≤ now)
     ∧ ∀ k' j', s !! k' = Some j' → Job.state j' = PENDING →
         Job.locked_by j' = None →
         (Job.scheduled_at j' = None ∨ ∃ t, Job.scheduled_at j' = Some t ∧ t ≤ now) →
         Job.created_at j ≤ Job.created_at j')
  ∧ (getNextPendingJob now s = None ↔
     ∀ k j, s !! k = Some j →
       ¬ (Job.state j = PENDING ∧ Job.locked_by j = None
          ∧ (Job.scheduled_at j = None ∨ ∃ t, Job.scheduled_at j = Some t ∧ t ≤ now)))
  ∧ (∀ j t, Job.scheduled_at j = Some t → now < t →
       getNextPendingJob now s ≠ Some j)
  ∧ (∀ k j t, s !! k = Some j → Job.state j = PENDING → Job.locked_by j = None →
       Job.scheduled_at j = Some t → t ≤ now →
       (∀ k' j', s !! k' = Some j' → eligible now j' = true → j' ≠ j →
          Job.created_at j < Job.created_at j') →
       getNextPendingJob now s = Some j).
Proof.
  assert (Hsome : ∀ j, getNextPendingJob now s = Some j →
            eligible now j = true ∧ (∃ k, s !! k = Some j)
            ∧ ∀ k' j', s !! k' = Some j' → eligible now j' = true →
                Job.created_at j ≤ Job.created_at j').
  { intros j Hj. apply oldest_minimal in Hj as [Hin Hmin].
    apply candidates_elem in Hin as [He Hk]. repeat split; [done..|].
    intros k' j' Hk' He'. apply Hmin, candidates_elem. eauto. }
  assert (Hnone : getNextPendingJob now s = None ↔
            ∀ k j, s !! k = Some j → eligible now j ≠ true).
  { unfold getNextPendingJob. rewrite oldest_nil. split.
    - intros Hnil k j Hk He.
      assert (Hin : j ∈ filter (λ j, eligible now j = true) (snd <$> map_to_list s))
        by (apply candidates_elem; eauto).
      rewrite Hnil in Hin. by apply elem_of_nil in Hin.
    - intros Hno.
      destruct (filter _ _) as [|j l] eqn:Hf; [done|].
      assert (Hin : j ∈ filter (λ j, eligible now j = true) (snd <$> map_to_list s))
        by (rewrite Hf; left).
      apply candidates_elem in Hin as [He [k Hk]]. by destruct (Hno k j). }
  split; [|split; [|split]].
  - intros j Hj. destruct (Hsome j Hj) as (He & Hk & Hmin).
    apply eligible_true in He as (? & ? & ?). repeat split; [done..|].
    intros k' j' Hk' ? ? ?. apply (Hmin k' j' Hk'). by apply eligible_true.
  - rewrite Hnone. split; intros H k j Hk; specialize (H k j Hk);
      by rewrite eligible_true in *.
  - intros j t Hs Hlt Hj. destruct (Hsome j Hj) as (He & _).
    apply eligible_true in He as (_ & _ & [?|(t' & ? & ?)]); simplify_eq. lia.
  - intros k j t Hk Hst Hl Hs Ht Hothers.
    assert (He : eligible now j = true) by (apply eligible_true; eauto 10).
    destruct (getNextPendingJob now s) as [j'|] eqn:Hj'.
    + destruct (Hsome j' eq_refl) as (He' & [k' Hk'] & Hmin).
      destruct (decide (j' = j)) as [->|Hne]; [done|].
      specialize (Hothers k' j' Hk' He' Hne). specialize (Hmin k j Hk He). lia.
    + by destruct (proj1 Hnone eq_refl k j Hk).
Qed.

Lemma getNextPendingJob_oldest_eligible_witness :
  getNextPendingJob 20 Sample.two_jobs = Some Sample.scheduled
  ∧ getNextPendingJob 19 Sample.two_jobs ≠ Some Sample.scheduled.
Proof.
  split.
  - destruct (getNextPendingJob_oldest_eligible 20 Sample.two_jobs)
      as (_ & _ & _ & H).
    apply (H "a" Sample.scheduled 20); [reflexivity..|lia|].
    intros k' j' Hk' _ Hne. unfold Sample.two_jobs in Hk'.
    rewrite lookup_insert in Hk'. case_decide; [by simplify_eq|].
    rewrite lookup_insert in Hk'. case_decide; [|by rewrite lookup_empty in Hk'].
    injection Hk' as <-. simpl. lia.
  - destruct (getNextPendingJob_oldest_eligible 19 Sample.two_jobs)
      as (_ & _ & H & _).
    apply (H Sample.scheduled 20); [reflexivity|lia].
Defined.

(** ** The worker *)

(** What one round trip does to the world. *)
Lemma query_cases {A} (q : Z → Store → Result A * Store) σ :
  (query q σ =
     (inl StoreFailure,
      mkWorld (jobs σ) (config σ) (timers σ) (clock σ) (tail (faults σ)) (shell σ))
   ∧ head (faults σ) = Some true)
  ∨ (query q σ =
       ((q (clock σ) (jobs σ)).1,
        mkWorld (q (clock σ) (jobs σ)).2 (config σ) (timers σ) (clock σ)
          (tail (faults σ)) (shell σ))
     ∧ head (faults σ) ≠ Some true).
Proof.
  unfold query. destruct (faults σ) as [|[] fs]; simpl; auto;
    right; destruct (q _ _); auto.
Qed.

Lemma getConfig_cases key σ :
  (getConfig key σ =
     (inl StoreFailure,
      mkWorld (jobs σ) (config σ) (timers σ) (clock σ) (tail (faults σ)) (shell σ))
   ∧ head (faults σ) = Some true)
  ∨ (getConfig key σ =
       (inr (config σ !! key),
        mkWorld (jobs σ) (config σ) (timers σ) (clock σ) (tail (faults σ)) (shell σ))
     ∧ head (faults σ) ≠ Some true).
Proof. unfold getConfig. destruct (faults σ) as [|[] fs]; simpl; auto. Qed.

Lemma backoffBase_configured v b :
  JS.parseInt v = Some b → b ≠ 0 → backoffBase (Some v) = b.
Proof.
  intros Hp Hb. unfold backoffBase, JS.or_num. simpl. rewrite Hp.
  by rewrite bool_decide_eq_false_2.
Qed.

Lemma backoffBase_default v :
  JS.parseInt_opt v = None ∨ JS.parseInt_opt v = Some 0 → backoffBase v = 2.
Proof. unfold backoffBase. by intros [-> | ->]. Qed.

(** The delay of the timer when the exponent is not negative: the exact
    product when it is a delay that Node takes, 1 ms otherwise.  (Where
    the doubles are not exact the product is beyond [2^31].) *)
Lemma timer_delay_nonneg base attempts :
  0 ≤ attempts →
  timer_delay base attempts
  = Some (if bool_decide (1 ≤ base ^ attempts * 1000)
             && bool_decide (base ^ attempts * 1000 ≤ 2 ^ 31 - 1)
          then base ^ attempts * 1000 else 1).
Proof.
  intros Hk. unfold timer_delay, JS.Math_pow, JS.num_of_Z.
  rewrite bool_decide_eq_true_2 by done.
  set (p := base ^ attempts).
  assert (H53 : 2 ^ 31 < 2 ^ 53) by (vm_compute; reflexivity).
  case_bool_decide as Hp; cbn [JS.times_1000].
  - unfold JS.num_of_Z. case_bool_decide as Hq; cbn [armed]; unfold TIMEOUT_MAX.
    + done.
    + f_equal. repeat case_bool_decide; cbn [andb]; try done; lia.
  - cbn [armed]. f_equal. repeat case_bool_decide; cbn [andb]; try done; lia.
Qed.

(** The timers after [handleJobFailure]: unchanged, or one more. *)
Lemma handleJobFailure_timers job error σ :
  let k := Job.attempts job + 1 in
  let σ' := (handleJobFailure job error σ).2 in
  timers σ' = timers σ
  ∨ (k < Job.max_retries job
     ∧ (∃ j', jobs σ' !! Job.id job = Some j' ∧ Job.state j' = FAILED)
     ∧ timers σ' =
         timers σ ++ [mkTimer (timer_delay (backoffBase (config σ !! "backoff_base")) k)
                        (Job.id job)]).
Proof.
  intros k σ'. subst k σ'. unfold handleJobFailure, mbind, ST_bind.
  destruct (query_cases
              (markJobFailed (Job.id job) (JS.or_str (message error) "Unknown error")
                 (Job.attempts job + 1) (Job.max_retries job)) σ)
    as [[-> _]|[-> _]]; [by left|].
  destruct (markJobFailed _ _ _ _ _ _) as [[e|j'] s'] eqn:Hm; simpl; [by left|].
  case_bool_decide as Hlt; [|by left].
  match goal with |- context [getConfig ?k ?w] =>
    destruct (getConfig_cases k w) as [[-> _]|[-> _]] end; [by left|].
  right. simpl. split; [done|]. split; [|done].
  unfold markJobFailed, updateJob in Hm. case_match; simplify_eq.
  eexists. rewrite lookup_insert_eq. split; [done|]. simpl.
  by rewrite bool_decide_eq_false_2 by lia.
Qed.

(** C5 as written fails for a configured base of 0: the worker replaces it
    by 2, so the first retry waits 2 s where [0 ^ 1] is 0. *)
Lemma backoff_zero_base_counterexample :
  JS.parseInt "0" = Some 0
  ∧ timers (handleJobFailure (Sample.claimed 0 3) (ExecFailure "boom")
              (Sample.world_of (Sample.claimed 0 3) (Sample.cfg "3" "0") []
                 Sample.sh_fail)).2
    = [mkTimer (Some 2000) "a"]
  ∧ 2000 ≠ 0 ^ 1 * 1000.
Proof. vm_compute. repeat split; congruence. Qed.

(** C5, amended.  After the k-th failed attempt ([k] the new count of
    attempts) the worker arms at most one timer; it does so only when
    [k < max_retries], and always then if the row exists and the store
    answers.  The delay of the timer is [b ^ k] seconds when that is a
    delay that Node takes, between 1 ms and [2^31 - 1] ms, and 1 ms when
    it is not (a negative base with an odd [k], a power that is too
    large); [b] is the configured [backoff_base] when that text parses to
    a non-zero integer, and 2 when it is missing, not a number or 0. *)
Theorem backoff_delay (job : Job.t) (error : Error) (σ : World) :
  0 ≤ Job.attempts job →
  let k := Job.attempts job + 1 in
  let b := backoffBase (config σ !! "backoff_base") in
  let σ' := (handleJobFailure job error σ).2 in
  (timers σ' = timers σ
   ∨ (k < Job.max_retries job
      ∧ timers σ' = timers σ ++ [mkTimer (timer_delay b k) (Job.id job)]))
  ∧ (is_Some (jobs σ !! Job.id job) → faults σ = [] → k < Job.max_retries job →
     timers σ' = timers σ ++ [mkTimer (timer_delay b k) (Job.id job)])
  ∧ (1 ≤ b ^ k * 1000 ≤ 2 ^ 31 - 1 → timer_delay b k = Some (b ^ k * 1000))
  ∧ (b ^ k * 1000 < 1 ∨ 2 ^ 31 - 1 < b ^ k * 1000 → timer_delay b k = Some 1)
  ∧ (∀ v n, config σ !! "backoff_base" = Some v → JS.parseInt v = Some n →
       n ≠ 0 → b = n)
  ∧ (JS.parseInt_opt (config σ !! "backoff_base") = None
     ∨ JS.parseInt_opt (config σ !! "backoff_base") = Some 0 → b = 2).
Proof.
  intros Hk k b σ'. split; [|split; [|split; [|split; [|split]]]].
  - destruct (handleJobFailure_timers job error σ) as [?|(? & _ & ?)]; auto.
  - intros [j Hj] Hf Hlt. subst σ' b k.
    unfold handleJobFailure, mbind, ST_bind, query, getConfig.
    rewrite Hf. simpl. unfold markJobFailed.
    rewrite (updateJob_row _ _ _ _ _ Hj). simpl.
    by rewrite bool_decide_eq_true_2.
  - intros [H1 H2]. rewrite timer_delay_nonneg by (subst k; lia).
    by rewrite !bool_decide_eq_true_2.
  - intros H. rewrite timer_delay_nonneg by (subst k; lia). f_equal.
    repeat case_bool_decide; cbn [andb]; try done; lia.
  - intros v n Hv Hp Hn. subst b. rewrite Hv. by apply backoffBase_configured.
  - apply backoffBase_default.
Qed.

Lemma backoff_delay_witness :
  timers (handleJobFailure (Sample.claimed 0 3) (ExecFailure "boom")
            (Sample.world_of (Sample.claimed 0 3) (Sample.cfg "3" "2") []
               Sample.sh_fail)).2
  = [] ++ [mkTimer (Some (2 ^ 1 * 1000)) "a"].
Proof.
  destruct (backoff_delay (Sample.claimed 0 3) (ExecFailure "boom")
              (Sample.world_of (Sample.claimed 0 3) (Sample.cfg "3" "2") []
                 Sample.sh_fail)) as (_ & H & Hd & _ & Hb & _); [simpl; lia|].
  rewrite H.
  - rewrite (Hb "2" 2); [| vm_compute; reflexivity
                          | vm_compute; reflexivity | lia].
    rewrite (Hb "2" 2) in Hd; [| vm_compute; reflexivity
                               | vm_compute; reflexivity | lia].
    rewrite Hd; [reflexivity|]. vm_compute. split; discriminate.
  - vm_compute. eauto.
  - reflexivity.
  - simpl. lia.
Defined.

(** *** The current-job marker *)

Lemma never_exits_ret {S A} (x : A) : never_exits (mret x : ST S A).
Proof. by intros s e. Qed.

Lemma never_exits_bind {S A B} (c : ST S A) (f : A → ST S B) :
  never_exits c → (∀ x, never_exits (f x)) → never_exits (c ≫= f).
Proof.
  intros Hc Hf s e. unfold mbind, ST_bind.
  destruct (c s) as [[e'|x] s'] eqn:E.
  - simpl. intros [= <-]. apply (Hc s). by rewrite E.
  - apply Hf.
Qed.

Lemma never_exits_try_catch {S A} (body : ST S A) (h : Error → ST S A) :
  never_exits body → (∀ e, never_exits (h e)) → never_exits (try_catch body h).
Proof.
  intros Hb Hh s e. unfold try_catch.
  destruct (body s) as [[e'|x] s'] eqn:E; [|done].
  assert (is_exit e' = false) by (apply (Hb s); by rewrite E).
  destruct e'; try done; apply Hh.
Qed.

Lemma never_exits_query {A} (q : Z → Store → Result A * Store) :
  (∀ now s e, (q now s).1 = inl e → is_exit e = false) →
  never_exits (query q).
Proof.
  intros Hq σ e.
  destruct (query_cases q σ) as [[-> _]|[-> _]]; simpl; [by intros [= <-]|].
  apply Hq.
Qed.

Lemma never_exits_getConfig key : never_exits (getConfig key).
Proof.
  intros σ e.
  destruct (getConfig_cases key σ) as [[-> _]|[-> _]]; simpl; [by intros [= <-]|done].
Qed.

Lemma never_exits_lift {A} (c : ST World A) : never_exits c → never_exits (lift c).
Proof.
  intros Hc [w σ] e. unfold lift. specialize (Hc σ e).
  by destruct (c σ) as [r σ'].
Qed.

Lemma updateJob_never_exits jobId u now (s : Store) e :
  (updateJob jobId u now s).1 = inl e → is_exit e = false.
Proof. unfold updateJob. case_match; simpl; by intros [= <-]. Qed.

Lemma handleJobFailure_never_exits job error : never_exits (handleJobFailure job error).
Proof.
  unfold handleJobFailure.
  apply never_exits_bind.
  - apply never_exits_query. intros. by eapply updateJob_never_exits.
  - intros _. case_bool_decide; [|apply never_exits_ret].
    apply never_exits_bind; [apply never_exits_getConfig|].
    by intros v σ e.
Qed.

Lemma executeJob_never_exits job : never_exits (executeJob job).
Proof.
  unfold executeJob. apply never_exits_try_catch.
  - apply never_exits_bind.
    + intros σ e. unfold execAsync. case_match; simpl; [done|by intros [= <-]].
    + intros [stdout stderr]. apply never_exits_bind; [|intros; apply never_exits_ret].
      apply never_exits_query. intros. by eapply updateJob_never_exits.
  - apply handleJobFailure_never_exits.
Qed.

(** A [catch] that only logs turns every exception into a normal return. *)
Lemma try_catch_log {S} (body : ST S unit) s :
  never_exits body → (try_catch body (λ _, mret tt) s).1 = inr tt.
Proof.
  intros Hb. unfold try_catch.
  destruct (body s) as [[e|[]] s'] eqn:E; [|done].
  assert (is_exit e = false) by (apply (Hb s); by rewrite E).
  by destruct e.
Qed.

Lemma try_finally_state {S A} (body : ST S A) (fin : ST S unit) s :
  (try_finally body fin s).2 = (fin (body s).2).2.
Proof.
  unfold try_finally. destruct (body s) as [r s']. simpl.
  by destruct (fin s') as [[e|[]] s''].
Qed.

Lemma set_currentJob_marker j s :
  currentJob (set_currentJob j s).2.1 = j.
Proof. by destruct s as [w σ]. Qed.

(** C9 as written fails for an invocation that finds the worker busy: the
    guard returns at once and the marker still names the running job. *)
Lemma processNextJob_busy_counterexample :
  currentJob
    (processNextJob
       (mkWorker "w1" true (Some (Sample.claimed 0 3)),
        Sample.world_of (Sample.claimed 0 3) (Sample.cfg "3" "2") []
          Sample.sh_ok)).2.1
  = Some (Sample.claimed 0 3).
Proof. reflexivity. Qed.

Lemma processNextJob_guard w σ :
  isRunning w = false ∨ currentJob w ≠ None →
  processNextJob (w, σ) = (inr tt, (w, σ)).
Proof.
  intros H. unfold processNextJob, mbind, ST_bind, this. simpl.
  destruct H as [-> | H]; [done|].
  destruct (currentJob w) eqn:E; [|done].
  rewrite bool_decide_eq_true_2 by eauto. by rewrite orb_true_r.
Qed.

Lemma processNextJob_run w σ :
  isRunning w = true → currentJob w = None →
  ∃ body : ST (Worker * World) unit,
    never_exits body
    ∧ processNextJob (w, σ) =
        try_finally (try_catch body (λ _, mret tt)) (set_currentJob None) (w, σ).
Proof.
  intros Hr Hc. eexists. split; [|].
  2: { unfold processNextJob, mbind at 1, ST_bind at 1, this. simpl.
       rewrite Hr, Hc. reflexivity. }
  apply never_exits_bind.
  { apply never_exits_lift, never_exits_query. by intros now s e. }
  intros [job|]; [|apply never_exits_ret].
  apply never_exits_bind.
  { apply never_exits_lift, never_exits_query. intros now s e.
    unfold lockJob. repeat case_match; done. }
  intros [lockedJob|]; [|apply never_exits_ret].
  apply never_exits_bind; [by intros [w0 σ0] e|].
  intros _. apply never_exits_lift, executeJob_never_exits.
Qed.

(** C9, amended.  [processNextJob] never throws.  An invocation on a worker
    that holds no job ends with the marker null, whatever the store and the
    command do (failed round trips, a failing command, a failure while the
    failure is recorded); an invocation on a worker that already holds a
    job returns at once and changes nothing. *)
Theorem processNextJob_releases_marker (w : Worker) (σ : World) :
  (processNextJob (w, σ)).1 = inr tt
  ∧ (currentJob w = None → currentJob (processNextJob (w, σ)).2.1 = None)
  ∧ (currentJob w ≠ None → (processNextJob (w, σ)).2 = (w, σ)).
Proof.
  destruct (isRunning w) eqn:Hr; [destruct (currentJob w) as [j|] eqn:Hc|].
  - rewrite processNextJob_guard by (right; congruence). done.
  - destruct (processNextJob_run w σ Hr Hc) as (body & Hb & ->).
    split; [|split; [|done]].
    + unfold try_finally.
      pose proof (try_catch_log body (w, σ) Hb) as Hlog.
      destruct (try_catch body _ (w, σ)) as [r [w' σ']]. simpl in *. by subst r.
    + intros _. rewrite try_finally_state. apply set_currentJob_marker.
  - rewrite processNextJob_guard by (by left). done.
Qed.

Lemma processNextJob_releases_marker_witness :
  currentJob
    (processNextJob
       (mkWorker "w1" true None,
        Sample.world_of Sample.pending (Sample.cfg "3" "2")
          [false; false; true] Sample.sh_fail)).2.1
  = None.
Proof.
  apply (processNextJob_releases_marker (mkWorker "w1" true None)).
  reflexivity.
Defined.

(** ** The command-line actions *)

Lemma default_max_retries_nonzero v : default_max_retries v ≠ 0.
Proof.
  unfold default_max_retries, JS.or_num.
  destruct (JS.parseInt_opt v); [case_bool_decide|]; done.
Qed.

Lemma default_max_retries_configured v n :
  JS.parseInt v = Some n → n ≠ 0 → default_max_retries (Some v) = n.
Proof.
  intros Hp Hn. unfold default_max_retries, JS.or_num. simpl. rewrite Hp.
  by rewrite bool_decide_eq_false_2.
Qed.

Lemma default_max_retries_fallback v :
  JS.parseInt_opt v = None ∨ JS.parseInt_opt v = Some 0 →
  default_max_retries v = 3.
Proof. unfold default_max_retries. by intros [-> | ->]. Qed.

(** The value that the action hands on is truthy. *)
Lemma enqueue_ceiling_truthy jobSpec σ : truthy (enqueue_ceiling jobSpec σ) = true.
Proof.
  unfold enqueue_ceiling. destruct (truthy (spec_max_retries jobSpec)) eqn:E; [done|].
  cbn [number truthy]. rewrite bool_decide_eq_false_2; [done|].
  apply default_max_retries_nonzero.
Qed.

Lemma integer_column_Some v m :
  integer_column v = Some m → column v = Some m ∧ int4 m = true.
Proof.
  unfold integer_column. destruct (column v) as [n|]; [|done].
  destruct (int4 n) eqn:E; [|done]. by intros [= <-].
Qed.

Lemma number_column n m :
  integer_column (number n) = Some m → m = n ∧ int4 n = true.
Proof.
  intros [Hc Hr]%integer_column_Some. cbn [number column] in Hc.
  by simplify_eq.
Qed.

Lemma number_column_int4 n : int4 n = true → integer_column (number n) = Some n.
Proof. unfold integer_column, number. cbn [column]. by intros ->. Qed.

Lemma number_column_refused n : int4 n = false → integer_column (number n) = None.
Proof. unfold integer_column, number. cbn [column]. by intros ->. Qed.

Lemma int4_range n : int4 n = true ↔ - 2 ^ 31 ≤ n < 2 ^ 31.
Proof.
  unfold int4. rewrite andb_true_iff, !bool_decide_eq_true. tauto.
Qed.

Lemma scheduled_column_or v :
  scheduled_column (or_value v undefined) = scheduled_column v.
Proof. unfold scheduled_column, or_value. by destruct (truthy v) eqn:E; rewrite ?E. Qed.

Lemma enqueueJob_fresh jobData now (s : Store) max_retries scheduled_at :
  integer_column (or_value (jd_max_retries jobData) (number 3)) = Some max_retries →
  scheduled_column (jd_scheduled_at jobData) = Some scheduled_at →
  s !! jd_id jobData = None →
  enqueueJob jobData now s =
    (inr (Job.mk (jd_id jobData) (jd_command jobData) PENDING 0
            max_retries now now scheduled_at None None None None),
     <[jd_id jobData :=
         Job.mk (jd_id jobData) (jd_command jobData) PENDING 0
           max_retries now now scheduled_at None None None None]> s).
Proof. intros Hm Hs H. unfold enqueueJob. by rewrite Hm, Hs, H. Qed.

Lemma enqueueJob_duplicate jobData now (s : Store) :
  is_Some (integer_column (or_value (jd_max_retries jobData) (number 3))) →
  is_Some (scheduled_column (jd_scheduled_at jobData)) →
  is_Some (s !! jd_id jobData) →
  enqueueJob jobData now s = (inl DuplicateId, s).
Proof. intros [m Hm] [sc Hs] [j H]. unfold enqueueJob. by rewrite Hm, Hs, H. Qed.

Lemma enqueueJob_refused jobData now (s : Store) :
  integer_column (or_value (jd_max_retries jobData) (number 3)) = None
  ∨ scheduled_column (jd_scheduled_at jobData) = None →
  enqueueJob jobData now s = (inl Refused, s).
Proof.
  unfold enqueueJob. intros [-> | ->]; [done|].
  by destruct (integer_column (or_value (jd_max_retries jobData) (number 3))).
Qed.

(** What [enqueueJob] does: nothing, or the insert of a new pending row. *)
Lemma enqueueJob_cases jobData now (s : Store) :
  (∃ e, enqueueJob jobData now s = (inl e, s) ∧ is_exit e = false)
  ∨ ∃ job, enqueueJob jobData now s = (inr job, <[jd_id jobData := job]> s)
      ∧ s !! jd_id jobData = None ∧ Job.id job = jd_id jobData
      ∧ Job.state job = PENDING ∧ Job.attempts job = 0
      ∧ Job.locked_by job = None
      ∧ integer_column (or_value (jd_max_retries jobData) (number 3))
        = Some (Job.max_retries job).
Proof.
  unfold enqueueJob.
  destruct (integer_column (or_value (jd_max_retries jobData) (number 3))) as [m|];
    [|by left; eauto].
  destruct (scheduled_column (jd_scheduled_at jobData)) as [sc|];
    [|by left; eauto].
  destruct (s !! jd_id jobData) eqn:E; [by left; eauto|].
  right. eexists. split; [reflexivity|]. by repeat split.
Qed.

(** The [enqueue] action when the store answers. *)
Lemma enqueue_action_ok jobSpec uuid σ :
  faults σ = [] → JS.falsy_str (spec_command jobSpec) = false →
  let id := enqueue_id jobSpec uuid in
  let σ1 := mkWorld (jobs σ) (config σ) (timers σ) (clock σ) [] (shell σ) in
  (∀ max_retries scheduled_at,
     integer_column (enqueue_ceiling jobSpec σ) = Some max_retries →
     scheduled_column (spec_scheduled_at jobSpec) = Some scheduled_at →
     jobs σ !! id = None →
     enqueue_action jobSpec uuid σ =
       (inr (Job.mk id (default "" (spec_command jobSpec)) PENDING 0
               max_retries (clock σ) (clock σ) scheduled_at None None None None),
        mkWorld
          (<[id := Job.mk id (default "" (spec_command jobSpec)) PENDING 0
                     max_retries (clock σ) (clock σ) scheduled_at
                     None None None None]> (jobs σ))
          (config σ) (timers σ) (clock σ) [] (shell σ)))
  ∧ (is_Some (integer_column (enqueue_ceiling jobSpec σ)) →
     is_Some (scheduled_column (spec_scheduled_at jobSpec)) →
     is_Some (jobs σ !! id) →
     enqueue_action jobSpec uuid σ =
       (inl (Exit 1 ("Error enqueueing job: " ++ message DuplicateId)), σ1))
  ∧ (integer_column (enqueue_ceiling jobSpec σ) = None
     ∨ scheduled_column (spec_scheduled_at jobSpec) = None →
     enqueue_action jobSpec uuid σ =
       (inl (Exit 1 ("Error enqueueing job: " ++ message Refused)), σ1)).
Proof.
  intros Hf Hc id σ1.
  assert (Hmr : enqueue_max_retries jobSpec σ = (inr (enqueue_ceiling jobSpec σ), σ1)).
  { unfold enqueue_max_retries, enqueue_ceiling, σ1.
    destruct (truthy _).
    - destruct σ; simpl in *; by subst.
    - unfold mbind, ST_bind, getConfig. by rewrite Hf. }
  assert (Hor : or_value (enqueue_ceiling jobSpec σ) (number 3)
                = enqueue_ceiling jobSpec σ).
  { unfold or_value. by rewrite enqueue_ceiling_truthy. }
  unfold enqueue_action, exit_on_error, try_catch. rewrite Hc.
  unfold mbind, ST_bind. rewrite Hmr. unfold query, σ1. cbn [faults jobs clock].
  fold id. split; [|split].
  - intros m sc Hm Hs Hid.
    rewrite (enqueueJob_fresh _ _ _ m sc);
      cbn [jd_id jd_command jd_max_retries jd_scheduled_at];
      rewrite ?Hor, ?scheduled_column_or; done.
  - intros Hm Hs Hid.
    rewrite enqueueJob_duplicate;
      cbn [jd_id jd_command jd_max_retries jd_scheduled_at];
      rewrite ?Hor, ?scheduled_column_or; done.
  - intros H.
    rewrite enqueueJob_refused;
      cbn [jd_id jd_command jd_max_retries jd_scheduled_at];
      rewrite ?Hor, ?scheduled_column_or; done.
Qed.

(** ** What each call does to the table and to the timers *)

Lemma requeueFailedJob_row jobId now (s : Store) j :
  s !! jobId = Some j →
  requeueFailedJob jobId now s
  = (inr (row_requeued now j), <[jobId := row_requeued now j]> s).
Proof. intros H. unfold requeueFailedJob. by rewrite (updateJob_row _ _ _ _ _ H). Qed.

Lemma markJobFailed_row jobId error attempts maxRetries now (s : Store) j :
  s !! jobId = Some j →
  markJobFailed jobId error attempts maxRetries now s
  = (inr (row_failed error attempts maxRetries now j),
     <[jobId := row_failed error attempts maxRetries now j]> s).
Proof. intros H. unfold markJobFailed. by rewrite (updateJob_row _ _ _ _ _ H). Qed.

Lemma markJobCompleted_row jobId output now (s : Store) j :
  s !! jobId = Some j →
  markJobCompleted jobId output now s
  = (inr (row_completed output now j), <[jobId := row_completed output now j]> s).
Proof. intros H. unfold markJobCompleted. by rewrite (updateJob_row _ _ _ _ _ H). Qed.

Lemma lockJob_row jobId workerId now (s : Store) :
  (lockJob jobId workerId now s = (inr None, s))
  ∨ (∃ j, s !! jobId = Some j ∧ Job.state j = PENDING ∧ Job.locked_by j = None
        ∧ lockJob jobId workerId now s
          = (inr (Some (row_locked workerId now j)),
             <[jobId := row_locked workerId now j]> s)).
Proof.
  unfold lockJob. destruct (s !! jobId) as [j|] eqn:Hj; [|by left].
  destruct (bool_decide (Job.state j = PENDING)) eqn:E1;
    destruct (bool_decide (Job.locked_by j = None)) eqn:E2; simpl; auto.
  apply bool_decide_eq_true in E1, E2. right. eauto 10.
Qed.

Lemma handleJobFailure_effect job error σ :
  let σ' := (handleJobFailure job error σ).2 in
  let k := Job.attempts job + 1 in
  (jobs σ' = jobs σ ∧ timers σ' = timers σ)
  ∨ (∃ j, jobs σ !! Job.id job = Some j
        ∧ jobs σ' =
            <[Job.id job :=
                row_failed (JS.or_str (message error) "Unknown error") k
                  (Job.max_retries job) (clock σ) j]> (jobs σ)
        ∧ (timers σ' = timers σ
           ∨ (k < Job.max_retries job
              ∧ timers σ' =
                  timers σ
                  ++ [mkTimer (timer_delay (backoffBase (config σ !! "backoff_base")) k)
                        (Job.id job)]))).
Proof.
  intros σ' k. subst σ' k. unfold handleJobFailure, mbind, ST_bind.
  destruct (query_cases
              (markJobFailed (Job.id job) (JS.or_str (message error) "Unknown error")
                 (Job.attempts job + 1) (Job.max_retries job)) σ)
    as [[-> _]|[-> _]]; [by left|].
  destruct (jobs σ !! Job.id job) as [j|] eqn:Hj.
  - rewrite (markJobFailed_row _ _ _ _ _ _ _ Hj). simpl.
    right. exists j. split; [done|].
    case_bool_decide as Hlt; [|by auto].
    match goal with |- context [getConfig ?k ?w] =>
      destruct (getConfig_cases k w) as [[-> _]|[-> _]] end; simpl; auto.
  - unfold markJobFailed. rewrite updateJob_no_row by done. by left.
Qed.

Lemma run_command_effect job σ :
  let r := run_command job σ in
  config r.2 = config σ ∧ clock r.2 = clock σ ∧ timers r.2 = timers σ
  ∧ match r.1 with
    | inr _ =>
        ∃ j output, jobs σ !! Job.id job = Some j
          ∧ jobs r.2 = <[Job.id job := row_completed output (clock σ) j]> (jobs σ)
    | inl e => is_exit e = false ∧ jobs r.2 = jobs σ
    end.
Proof.
  unfold run_command, mbind, ST_bind, execAsync.
  destruct (shell σ (Job.command job)) as [stdout stderr|msg]; [|done].
  match goal with |- context [query ?q σ] =>
    destruct (query_cases q σ) as [[-> _]|[-> _]] end; [done|].
  destruct (jobs σ !! Job.id job) as [j|] eqn:Hj.
  - rewrite (markJobCompleted_row _ _ _ _ _ Hj). simpl. eauto 10.
  - unfold markJobCompleted. by rewrite updateJob_no_row.
Qed.

Lemma executeJob_effect job σ :
  let σ' := (executeJob job σ).2 in
  let k := Job.attempts job + 1 in
  (jobs σ' = jobs σ ∧ timers σ' = timers σ)
  ∨ (∃ j output, jobs σ !! Job.id job = Some j
        ∧ jobs σ' = <[Job.id job := row_completed output (clock σ) j]> (jobs σ)
        ∧ timers σ' = timers σ)
  ∨ (∃ j error, jobs σ !! Job.id job = Some j
        ∧ jobs σ' =
            <[Job.id job :=
                row_failed error k (Job.max_retries job) (clock σ) j]> (jobs σ)
        ∧ (timers σ' = timers σ
           ∨ (k < Job.max_retries job
              ∧ ∃ delay, timers σ' = timers σ ++ [mkTimer delay (Job.id job)]))).
Proof.
  intros σ' k. subst σ' k. unfold executeJob, try_catch.
  pose proof (run_command_effect job σ) as Hr. simpl in Hr.
  destruct (run_command job σ) as [[e|[]] σ1]; simpl in Hr.
  - destruct Hr as (Hcfg & Hclk & Htm & Hne & Hjobs).
    pose proof (handleJobFailure_effect job e σ1) as He. simpl in He.
    rewrite Hjobs, Htm, Hclk, Hcfg in He.
    destruct e; try done;
      (destruct He as [?|(j & Hj & Hs & [Ht|[Hlt Ht]])]; [by left|..];
       right; right; exists j; eexists; (split; [done|]); (split; [done|]); eauto).
  - destruct Hr as (_ & _ & Htm & j & output & Hj & Hs). right; left. eauto 10.
Qed.

Lemma claim_effect jobId workerId σ :
  let r := query (lockJob jobId workerId) σ in
  timers r.2 = timers σ
  ∧ ((jobs r.2 = jobs σ ∧ ∀ j, r.1 ≠ inr (Some j))
     ∨ (∃ j, jobs σ !! jobId = Some j ∧ Job.state j = PENDING
           ∧ Job.locked_by j = None
           ∧ r.1 = inr (Some (row_locked workerId (clock σ) j))
           ∧ jobs r.2 = <[jobId := row_locked workerId (clock σ) j]> (jobs σ))).
Proof.
  intros r. subst r.
  destruct (query_cases (lockJob jobId workerId) σ) as [[-> _]|[-> _]];
    (split; [done|]); [by left|].
  destruct (lockJob_row jobId workerId (clock σ) (jobs σ))
    as [->|(j & Hj & Hst & Hl & ->)]; [by left|right; eauto 10].
Qed.

Lemma requeue_callback_effect jobId σ :
  let σ' := (requeue_callback jobId σ).2 in
  timers σ' = timers σ
  ∧ (jobs σ' = jobs σ
     ∨ ∃ j, jobs σ !! jobId = Some j
          ∧ jobs σ' = <[jobId := row_requeued (clock σ) j]> (jobs σ)).
Proof.
  intros σ'. subst σ'. unfold requeue_callback, try_catch, mbind, ST_bind.
  destruct (query_cases (requeueFailedJob jobId) σ) as [[-> _]|[-> _]];
    [by auto|].
  destruct (jobs σ !! jobId) as [j|] eqn:Hj.
  - rewrite (requeueFailedJob_row _ _ _ _ Hj). simpl. eauto.
  - unfold requeueFailedJob. rewrite updateJob_no_row by done. simpl. auto.
Qed.

Lemma fire_effect i σ :
  let σ' := (fire i σ).2 in
  (σ' = σ ∧ timers σ !! i = None)
  ∨ (∃ t, timers σ !! i = Some t
        ∧ timers σ' = delete i (timers σ)
        ∧ (jobs σ' = jobs σ
           ∨ ∃ j, jobs σ !! t_jobId t = Some j
                ∧ jobs σ' = <[t_jobId t := row_requeued (clock σ) j]> (jobs σ))).
Proof.
  intros σ'. subst σ'. unfold fire.
  destruct (timers σ !! i) as [t|] eqn:Ht; [|by left].
  right. exists t. split; [done|].
  match goal with |- context [requeue_callback ?k ?w] =>
    pose proof (requeue_callback_effect k w) as He end.
  simpl in He. done.
Qed.

Lemma dlq_retry_effect jobId σ :
  let r := dlq_retry_action jobId σ in
  timers r.2 = timers σ
  ∧ ((jobs r.2 = jobs σ ∧ ∃ msg, r.1 = inl (Exit 1 msg))
     ∨ ∃ j, jobs σ !! jobId = Some j ∧ Job.state j = DEAD
          ∧ jobs r.2 = <[jobId := row_requeued (clock σ) j]> (jobs σ)).
Proof.
  intros r. subst r.
  unfold dlq_retry_action, exit_on_error, try_catch, mbind, ST_bind.
  match goal with |- context [query ?q σ] =>
    destruct (query_cases q σ) as [[-> _]|[-> _]] end; simpl; [by eauto 10|].
  unfold getJob. destruct (jobs σ !! jobId) as [j|] eqn:Hj; simpl; [|by eauto 10].
  case_bool_decide as Hd; simpl; [by eauto 10|].
  assert (Job.state j = DEAD) by (by destruct (decide (Job.state j = DEAD))).
  match goal with |- context [query ?q ?w] =>
    destruct (query_cases q w) as [[-> _]|[-> _]] end; simpl; [by eauto 10|].
  rewrite (requeueFailedJob_row _ _ _ _ Hj). simpl. eauto 10.
Qed.

Lemma enqueue_effect jobSpec uuid σ :
  let σ' := (enqueue_action jobSpec uuid σ).2 in
  timers σ' = timers σ
  ∧ (jobs σ' = jobs σ
     ∨ ∃ job, jobs σ !! Job.id job = None
          ∧ jobs σ' = <[Job.id job := job]> (jobs σ)
          ∧ Job.state job = PENDING ∧ Job.attempts job = 0
          ∧ Job.locked_by job = None
          ∧ ((truthy (spec_max_retries jobSpec) = true
              ∧ column (spec_max_retries jobSpec) = Some (Job.max_retries job))
             ∨ Job.max_retries job ≠ 0)).
Proof.
  intros σ'. subst σ'. unfold enqueue_action, exit_on_error, try_catch.
  destruct (JS.falsy_str (spec_command jobSpec)); [by auto|].
  unfold mbind, ST_bind.
  assert (Hmr : ∃ r σ1, enqueue_max_retries jobSpec σ = (r, σ1)
                  ∧ timers σ1 = timers σ ∧ jobs σ1 = jobs σ
                  ∧ (∀ e, r = inl e → e = StoreFailure)
                  ∧ ∀ v, r = inr v →
                      truthy v = true
                      ∧ ((truthy (spec_max_retries jobSpec) = true
                          ∧ v = spec_max_retries jobSpec)
                         ∨ ∃ d, d ≠ 0 ∧ v = number d)).
  { unfold enqueue_max_retries. destruct (truthy _) eqn:Etr.
    - eexists _, _. split; [reflexivity|].
      split; [done|]. split; [done|]. split; [done|].
      intros v' [= <-]. split; [done|]. by left.
    - unfold mbind, ST_bind.
      destruct (getConfig_cases "max_retries" σ) as [[-> _]|[-> _]];
        eexists _, _; (split; [reflexivity|]);
        (split; [done|]); (split; [done|]); split.
      + by intros e [= <-].
      + done.
      + done.
      + intros v' [= <-]. split.
        * cbn [number truthy]. rewrite bool_decide_eq_false_2; [done|].
          apply default_max_retries_nonzero.
        * right. eexists. split; [|done]. apply default_max_retries_nonzero. }
  destruct Hmr as (r & σ1 & -> & Ht & Hj & He & Hv).
  destruct r as [e|v]; [rewrite (He e eq_refl); simpl; rewrite ?Ht, ?Hj; by auto|].
  destruct (Hv v eq_refl) as [Htr Hsrc].
  match goal with |- context [query ?q σ1] =>
    destruct (query_cases q σ1) as [[-> _]|[-> _]] end; simpl;
    rewrite ?Ht, ?Hj; [by auto|].
  match goal with |- context [enqueueJob ?d ?n ?s] =>
    destruct (enqueueJob_cases d n s)
      as [(e & -> & Hne)|(job & -> & Hfresh & Hid & Hst & Ha & Hl & Hm)] end.
  - cbn [fst snd]. destruct e; try done; cbn [snd jobs timers]; auto.
  - cbn [fst snd jobs timers jd_id] in *. split; [done|]. right.
    exists job. rewrite Hid. repeat split; try done.
    unfold or_value in Hm. cbn [jd_max_retries] in Hm. rewrite Htr in Hm.
    destruct Hsrc as [[? ->]|(d & Hd & ->)]; [left|right].
    + split; [done|]. by apply integer_column_Some in Hm as [? _].
    + apply number_column in Hm as [-> _]. done.
Qed.

(** ** The system *)

Lemma Inv_init : Inv init.
Proof.
  split; simpl.
  - intros k j H. by rewrite lookup_empty in H.
  - intros k j H. by rewrite lookup_empty in H.
  - intros w j H. by rewrite lookup_empty in H.
  - intros t H. by apply elem_of_nil in H.
  - constructor.
Qed.

(** A fresh row enters the table. *)
Lemma Inv_insert_fresh (s : Store) hd tm job :
  Inv_c s hd tm → s !! Job.id job = None → row_ok job →
  Inv_c (<[Job.id job := job]> s) hd tm.
Proof.
  intros [Hk Hr Hh Ht Hn] Hfresh Hok. split; [| | | |done].
  - intros k j. rewrite lookup_insert. case_decide; [by intros [= <-]|apply Hk].
  - intros k j. rewrite lookup_insert. case_decide; [by intros [= <-]|apply Hr].
  - intros k j Hw. destruct (Hh k j Hw) as (Hj & ?).
    rewrite lookup_insert_ne by congruence. done.
  - intros t Hin. destruct (Ht t Hin) as (j & Hj & ?).
    exists j. rewrite lookup_insert_ne by congruence. done.
Qed.

(** The row under [k] is overwritten by [j']: the structure survives when
    [j'] keeps the key and is a sound row, every execution in flight is
    either an old one of another job or the one of [k] with the row [j'],
    and every timer is either an old one for another key or one for [k]
    with [j'] failed. *)
Lemma Inv_write (s : Store) hd tm k j' hd' tm' :
  Inv_c s hd tm → Job.id j' = k → row_ok j' →
  (∀ k0 j0, hd' !! k0 = Some j0 →
     (hd !! k0 = Some j0 ∧ k0 ≠ k)
     ∨ (k0 = k ∧ j0 = j' ∧ Job.state j' = PROCESSING)) →
  (∀ t, t ∈ tm' →
     (t ∈ tm ∧ t_jobId t ≠ k) ∨ (t_jobId t = k ∧ Job.state j' = FAILED)) →
  NoDup (t_jobId <$> tm') →
  Inv_c (<[k := j']> s) hd' tm'.
Proof.
  intros [Hk Hr Hh Ht Hn] Hid Hok Hhd Htm Hnd. split; [| | | |done].
  - intros k0 j. rewrite lookup_insert.
    case_decide; [intros [= <-]; congruence|apply Hk].
  - intros k0 j. rewrite lookup_insert. case_decide; [by intros [= <-]|apply Hr].
  - intros k0 j0 Hw. destruct (Hhd k0 j0 Hw) as [[Hold Hne]|(-> & -> & ?)].
    + destruct (Hh k0 j0 Hold) as (Hj & ?).
      rewrite lookup_insert_ne by congruence. done.
    + rewrite lookup_insert_eq. done.
  - intros t Hin. destruct (Htm t Hin) as [[Hold Hne]|[Heq Hf]].
    + destruct (Ht t Hold) as (j & Hj & ?).
      exists j. rewrite lookup_insert_ne by congruence. done.
    + exists j'. rewrite Heq, lookup_insert_eq. done.
Qed.

(** Executions and timers never point at a row in another state. *)
Lemma held_not_key (s : Store) hd tm k j k0 j0 :
  Inv_c s hd tm → s !! k = Some j → Job.state j ≠ PROCESSING →
  hd !! k0 = Some j0 → k0 ≠ k.
Proof.
  intros [_ _ Hh _ _] Hj Hst Hw Heq. subst k.
  destruct (Hh k0 j0 Hw) as (Hj0 & ?). congruence.
Qed.

Lemma timer_not_key (s : Store) hd tm k j t :
  Inv_c s hd tm → s !! k = Some j → Job.state j ≠ FAILED →
  t ∈ tm → t_jobId t ≠ k.
Proof.
  intros [_ _ _ Ht _] Hj Hst Hin Heq. subst k.
  destruct (Ht t Hin) as (j0 & Hj0 & ?). congruence.
Qed.

Lemma NoDup_delete_fmap (tm : list Timer) i :
  NoDup (t_jobId <$> tm) → NoDup (t_jobId <$> delete i tm).
Proof.
  intros H. rewrite list_fmap_delete.
  eapply sublist_NoDup; [exact H|apply sublist_delete].
Qed.

Lemma delete_other_key (tm : list Timer) i t t' :
  NoDup (t_jobId <$> tm) → tm !! i = Some t → t' ∈ delete i tm →
  t' ∈ tm ∧ t_jobId t' ≠ t_jobId t.
Proof.
  intros Hnd Hi Hin. split; [by eapply list_elem_of_delete_inv|].
  apply list_elem_of_lookup in Hin as [n Hn].
  intros Heq.
  assert (Hn' : ∃ m, m ≠ i ∧ tm !! m = Some t').
  { destruct (decide (n < i)%nat).
    - exists n. rewrite list_lookup_delete_lt in Hn by done. split; [lia|done].
    - exists (S n). rewrite list_lookup_delete_ge in Hn by lia. split; [lia|done]. }
  destruct Hn' as (m & Hne & Hm). apply Hne.
  eapply (NoDup_lookup (t_jobId <$> tm)); [done| |].
  - rewrite list_lookup_fmap, Hm. simpl. by rewrite Heq.
  - by rewrite list_lookup_fmap, Hi.
Qed.

Lemma row_ok_locked w now j : row_ok j → row_ok (row_locked w now j).
Proof. intros (? & ?). by repeat split. Qed.

Lemma row_ok_completed output now j : row_ok j → row_ok (row_completed output now j).
Proof. intros (? & ?). by repeat split. Qed.

Lemma row_ok_requeued now j : row_ok j → row_ok (row_requeued now j).
Proof. intros (? & ?). by repeat split. Qed.

Lemma row_ok_failed error now j :
  row_ok j →
  row_ok (row_failed error (Job.attempts j + 1) (Job.max_retries j) now j).
Proof.
  intros (? & ?). repeat split; simpl; [lia|].
  case_bool_decide; done.
Qed.

Lemma Inv_env σ c cfg f sh : Inv σ → Inv (exec (OpEnv c cfg f sh) σ).
Proof. done. Qed.

Lemma Inv_enqueue σ jobSpec uuid : Inv σ → Inv (exec (OpEnqueue jobSpec uuid) σ).
Proof.
  intros HI. unfold Inv. simpl.
  destruct (enqueue_effect jobSpec uuid (world σ))
    as [Ht [Hj|(job & Hfresh & Hj & Hst & Ha & Hl & Hm)]]; rewrite Ht, Hj; [done|].
  apply Inv_insert_fresh; [done..|].
  repeat split; [lia|]. by rewrite Hst.
Qed.

Lemma Inv_claim σ w jobId : Inv σ → Inv (exec (OpClaim w jobId) σ).
Proof.
  intros HI. unfold exec.
  destruct (claim_effect jobId w (world σ))
    as [Ht [[Hj Hr]|(j & Hj & Hst & Hl & Hr & Hs)]].
  - destruct (query (lockJob jobId w) (world σ)) as [[e|[l|]] σ'];
      simpl in *; [|by destruct (Hr l)|]; unfold Inv; simpl; by rewrite Ht, Hj.
  - destruct (query (lockJob jobId w) (world σ)) as [r σ']. simpl in *. subst r.
    unfold Inv. simpl. rewrite Ht, Hs.
    apply (Inv_write _ (held σ) (timers (world σ))); [done| | | | |apply HI].
    + simpl. by eapply inv_key.
    + apply row_ok_locked. by eapply inv_rows.
    + intros k0 j0. rewrite lookup_insert. case_decide; simplify_eq.
      * intros [= <-]. by right.
      * intros Hw0. by left.
    + intros t Hin. left. split; [done|].
      eapply timer_not_key; [done..| |done]. by rewrite Hst.
Qed.

Lemma Inv_execute σ jobId : Inv σ → Inv (exec (OpExecute jobId) σ).
Proof.
  intros HI. unfold exec. destruct (held σ !! jobId) as [job|] eqn:Hw; [|done].
  destruct (inv_held _ _ _ HI jobId job Hw) as (Hjob & Hst).
  pose proof (inv_key _ _ _ HI jobId job Hjob) as Hid.
  assert (Hheld : ∀ k0 j0, delete jobId (held σ) !! k0 = Some j0 →
            held σ !! k0 = Some j0 ∧ k0 ≠ Job.id job).
  { intros k0 j0. rewrite lookup_delete. case_decide; [done|].
    intros Hw0. split; [done|congruence]. }
  assert (Htimer : ∀ t, t ∈ timers (world σ) → t_jobId t ≠ Job.id job).
  { intros t Hin. rewrite Hid.
    eapply timer_not_key; [done..| |done]. by rewrite Hst. }
  unfold Inv. simpl.
  destruct (executeJob_effect job (world σ))
    as [[Hj Ht]|[(j & out & Hj & Hs & Ht)|(j & err & Hj & Hs & Ht)]].
  - rewrite Hj, Ht. destruct HI as [Hk Hr Hh Htm Hn]. split; try done.
    intros k0 j0 Hw0. apply Hh. by apply Hheld.
  - simpl in *. rewrite Hs, Ht. rewrite Hid in Hj. simplify_eq.
    apply (Inv_write _ (held σ) (timers (world σ))); [done|done| | | |apply HI].
    + apply row_ok_completed. by eapply inv_rows.
    + intros k0 j0 Hw0. left. by apply Hheld.
    + intros t Hin. left. split; [done|by apply Htimer].
  - simpl in *. rewrite Hs. rewrite Hid in Hj. simplify_eq.
    destruct Ht as [Ht|(Hlt & delay & Ht)]; rewrite Ht.
    + apply (Inv_write _ (held σ) (timers (world σ))); [done|done| | | |apply HI].
      * apply row_ok_failed. by eapply inv_rows.
      * intros k0 j0 Hw0. left. by apply Hheld.
      * intros t Hin. left. split; [done|by apply Htimer].
    + apply (Inv_write _ (held σ) (timers (world σ))); [done|done| | | |].
      * apply row_ok_failed. by eapply inv_rows.
      * intros k0 j0 Hw0. left. by apply Hheld.
      * intros t [Hin|Hin]%elem_of_app.
        -- left. split; [done|by apply Htimer].
        -- apply list_elem_of_singleton in Hin as ->. right. split; [done|].
           simpl. by rewrite bool_decide_eq_false_2 by lia.
      * rewrite fmap_app. apply NoDup_app. split; [apply HI|].
        split; [|apply NoDup_singleton].
        intros k [t [-> Hin]]%list_elem_of_fmap Hk.
        apply list_elem_of_singleton in Hk. by apply (Htimer t Hin).
Qed.

Lemma Inv_timer σ i : Inv σ → Inv (exec (OpTimer i) σ).
Proof.
  intros HI. unfold Inv. simpl.
  destruct (fire_effect i (world σ))
    as [[-> _]|(t & Hi & Ht & [Hj|(j & Hj & Hs)])]; [done|..].
  - rewrite Ht, Hj. destruct HI as [Hk Hr Hh Htm Hn]. split; try done.
    + intros t' Hin. apply Htm. by eapply list_elem_of_delete_inv.
    + by apply NoDup_delete_fmap.
  - simpl in *. rewrite Ht, Hs.
    destruct (inv_timers _ _ _ HI t) as (j' & Hj' & Hst);
      [by eapply list_elem_of_lookup_2|]. simplify_eq.
    apply (Inv_write _ (held σ) (timers (world σ))); [done| | | | |].
    + simpl. by eapply inv_key.
    + apply row_ok_requeued. by eapply inv_rows.
    + intros k0 j0 Hw0. left. split; [done|].
      eapply held_not_key; [done..| |done]. by rewrite Hst.
    + intros t' Hin. left.
      by eapply delete_other_key; [apply HI|..].
    + apply NoDup_delete_fmap, HI.
Qed.

Lemma Inv_dlq_retry σ jobId : Inv σ → Inv (exec (OpDlqRetry jobId) σ).
Proof.
  intros HI. unfold Inv. simpl.
  destruct (dlq_retry_effect jobId (world σ))
    as [Ht [[Hj _]|(j & Hj & Hst & Hs)]]; simpl in *; rewrite Ht.
  - by rewrite Hj.
  - rewrite Hs.
    apply (Inv_write _ (held σ) (timers (world σ))); [done| | | | |apply HI].
    + simpl. by eapply inv_key.
    + apply row_ok_requeued. by eapply inv_rows.
    + intros k0 j0 Hw0. left. split; [done|].
      eapply held_not_key; [done..| |done]. by rewrite Hst.
    + intros t Hin. left. split; [done|].
      eapply timer_not_key; [done..| |done]. by rewrite Hst.
Qed.

Lemma Inv_exec op σ : Inv σ → Inv (exec op σ).
Proof.
  destruct op; [apply Inv_env|apply Inv_enqueue|apply Inv_claim
               |apply Inv_execute|apply Inv_timer|apply Inv_dlq_retry].
Qed.

Lemma Inv_run ops σ : Inv σ → Inv (run ops σ).
Proof.
  revert σ. induction ops as [|op ops IH]; intros σ HI; [done|].
  simpl. apply IH. by apply Inv_exec.
Qed.

(** *** The bound on attempts *)

Lemma insert_rows (P : Job.t → Prop) (s : Store) k j' :
  (∀ k0 j, s !! k0 = Some j → P j) → P j' →
  ∀ k0 j, <[k := j']> s !! k0 = Some j → P j.
Proof.
  intros Hs Hj' k0 j. rewrite lookup_insert.
  case_decide; [by intros [= <-]|apply Hs].
Qed.

Lemma bounded_keep_attempts j j' :
  bounded_row j → Job.state j ≠ DEAD → Job.state j' ≠ DEAD →
  Job.attempts j' = Job.attempts j → Job.max_retries j' = Job.max_retries j →
  bounded_row j'.
Proof.
  intros Hb Hst Hst' Ha Hm Hpos. rewrite Ha, Hm in *.
  destruct (Hb Hpos) as [Hlt _]. split; [auto|done].
Qed.

Lemma bounded_failed error now j :
  bounded_row j → Job.state j ≠ DEAD →
  bounded_row (row_failed error (Job.attempts j + 1) (Job.max_retries j) now j).
Proof.
  intros Hb Hst Hpos. simpl in *. destruct (Hb Hpos) as [Hlt _].
  specialize (Hlt Hst). case_bool_decide; split; intros; try done; lia.
Qed.

Lemma Bounded_exec op σ :
  is_dlq_retry op = false → Inv σ → Bounded σ → Bounded (exec op σ).
Proof.
  intros Hop HI HB. unfold Bounded.
  destruct op as [c cfg f sh|jobSpec uuid|w jobId|jobId|i|jobId]; try done; simpl.
  - destruct (enqueue_effect jobSpec uuid (world σ))
      as [_ [->|(job & Hfresh & -> & Hst & Ha & Hl & Hm)]]; [done|].
    apply insert_rows; [done|].
    intros Hpos. rewrite Hst, Ha. split; [lia|done].
  - destruct (claim_effect jobId w (world σ))
      as [_ [[Hj Hr]|(j & Hj & Hst & Hl & Hr & Hs)]].
    + destruct (query (lockJob jobId w) (world σ)) as [[e|[l|]] σ'];
        simpl in *; [|by destruct (Hr l)|]; by rewrite Hj.
    + destruct (query (lockJob jobId w) (world σ)) as [r σ'].
      simpl in *. subst r. simpl. rewrite Hs.
      apply insert_rows; [done|].
      apply (bounded_keep_attempts j); [by eapply HB|by rewrite Hst|done..].
  - destruct (held σ !! jobId) as [job|] eqn:Hw; [|done]. simpl.
    destruct (inv_held _ _ _ HI jobId job Hw) as (Hjob & Hst).
    pose proof (inv_key _ _ _ HI jobId job Hjob) as Hid.
    destruct (executeJob_effect job (world σ))
      as [[-> _]|[(j & out & Hj & -> & _)|(j & err & Hj & -> & _)]];
      [done|..]; simpl in *; rewrite Hid in Hj; simplify_eq;
      (apply insert_rows; [done|]).
    + apply (bounded_keep_attempts job); [by eapply HB|by rewrite Hst|done..].
    + apply bounded_failed; [by eapply HB|by rewrite Hst].
  - destruct (fire_effect i (world σ))
      as [[-> _]|(t & Hi & _ & [->|(j & Hj & ->)])]; [done..|].
    destruct (inv_timers _ _ _ HI t) as (j' & Hj' & Hst);
      [by eapply list_elem_of_lookup_2|].
    simpl in *. rewrite Hj in Hj'. injection Hj' as <-.
    apply insert_rows; [done|].
    apply (bounded_keep_attempts j); [by eapply HB|by rewrite Hst|done..].
Qed.

Lemma Bounded_run ops σ :
  Forall (λ op, is_dlq_retry op = false) ops →
  Inv σ → Bounded σ → Bounded (run ops σ).
Proof.
  intros Hops. revert σ.
  induction Hops as [|op ops Hop _ IH]; intros σ HI HB; [done|].
  simpl. apply IH; [by apply Inv_exec|by apply Bounded_exec].
Qed.

Lemma query_no_fault {A} (q : Z → Store → Result A * Store) σ :
  faults σ = [] →
  query q σ =
    ((q (clock σ) (jobs σ)).1,
     mkWorld (q (clock σ) (jobs σ)).2 (config σ) (timers σ) (clock σ) []
       (shell σ)).
Proof. intros Hf. unfold query. rewrite Hf. by destruct (q _ _). Qed.

(** A failure that uses up the retries: the row is dead, no timer. *)
Lemma handleJobFailure_exhausted job error σ j :
  faults σ = [] → jobs σ !! Job.id job = Some j →
  Job.max_retries job ≤ Job.attempts job + 1 →
  jobs (handleJobFailure job error σ).2
  = <[Job.id job :=
        row_failed (JS.or_str (message error) "Unknown error")
          (Job.attempts job + 1) (Job.max_retries job) (clock σ) j]> (jobs σ).
Proof.
  intros Hf Hj Hle. unfold handleJobFailure, mbind, ST_bind.
  rewrite query_no_fault by done. rewrite (markJobFailed_row _ _ _ _ _ _ _ Hj).
  cbn [fst snd]. by rewrite bool_decide_eq_false_2 by lia.
Qed.

Lemma executeJob_command_fails job σ msg :
  shell σ (Job.command job) = ExecError msg →
  executeJob job σ = handleJobFailure job (ExecFailure msg) σ.
Proof.
  intros Hs. unfold executeJob, try_catch, run_command, mbind, ST_bind, execAsync.
  by rewrite Hs.
Qed.

(** The operator requeues a dead job and it fails again: one more
    attempt, and dead again. *)
Lemma dlq_retry_then_fail σ k j w c cfg msg :
  Inv σ → jobs (world σ) !! k = Some j → Job.state j = DEAD →
  ∃ j', jobs (world (run [OpEnv c cfg [] (λ _, ExecError msg);
                           OpDlqRetry k; OpClaim w k; OpExecute k] σ)) !! k
        = Some j'
        ∧ Job.state j' = DEAD
        ∧ Job.attempts j' = Job.attempts j + 1
        ∧ Job.max_retries j' = Job.max_retries j.
Proof.
  intros HI Hj Hst.
  pose proof (inv_key _ _ _ HI k j Hj) as Hid.
  destruct (inv_rows _ _ _ HI k j Hj) as (_ & Hdead). specialize (Hdead Hst).
  unfold run. cbn [foldl].
  set (sh := λ _ : string, ExecError msg).
  set (σ1 := exec (OpEnv c cfg [] sh) σ).
  (* the operator's retry *)
  assert (E2 : exec (OpDlqRetry k) σ1
               = mkSys
                   (mkWorld (<[k := row_requeued c j]> (jobs (world σ))) cfg
                      (timers (world σ)) c [] sh)
                   (held σ)).
  { unfold exec, dlq_retry_action, exit_on_error, try_catch, mbind, ST_bind.
    rewrite query_no_fault by done. cbn [fst snd world σ1 exec jobs clock getJob].
    unfold getJob. rewrite Hj. rewrite bool_decide_eq_false_2 by (intros H; by apply H).
    rewrite query_no_fault by done. cbn [jobs clock].
    by rewrite (requeueFailedJob_row _ _ _ _ Hj). }
  rewrite E2. clear E2 σ1.
  (* the claim *)
  set (rl := row_locked w c (row_requeued c j)).
  match goal with |- context [exec (OpClaim w k) ?s] =>
    assert (E3 : exec (OpClaim w k) s
                 = mkSys
                     (mkWorld
                        (<[k := rl]> (<[k := row_requeued c j]> (jobs (world σ))))
                        cfg (timers (world σ)) c [] sh)
                     (<[k := rl]> (held σ))) end.
  { unfold exec. cbn [world]. rewrite query_no_fault by done.
    unfold lockJob. cbn [jobs clock]. rewrite lookup_insert_eq. by cbn. }
  rewrite E3. clear E3.
  (* the execution fails *)
  unfold exec. cbn [held world]. rewrite lookup_insert_eq. cbn [world].
  rewrite (executeJob_command_fails _ _ msg) by done.
  assert (Hrl : Job.id rl = k) by done.
  erewrite handleJobFailure_exhausted;
    [|done|cbn [jobs]; rewrite Hrl; apply lookup_insert_eq|subst rl; cbn; lia].
  rewrite Hrl, lookup_insert_eq. eexists. split; [reflexivity|].
  subst rl. cbn. rewrite bool_decide_eq_true_2 by lia. done.
Qed.

(** C2 as written fails in the very scenario it names: [t2] with
    [max_retries = 2] is dead after two failures with [attempts = 2]; the
    operator requeues it from the DLQ, it fails once more, and it is dead
    with [attempts = 3]. *)
Lemma dlq_retry_exceeds_counterexample :
  (λ j, (Job.state j, Job.attempts j, Job.max_retries j))
    <$> jobs (world (run Sample.exhaust init)) !! "t2" = Some (DEAD, 2, 2)
  ∧ (λ j, (Job.state j, Job.attempts j, Job.max_retries j))
      <$> jobs (world (run Sample.dlq_retry_and_fail init)) !! "t2"
    = Some (DEAD, 3, 2)
  ∧ ¬ (3 ≤ 2).
Proof. vm_compute. repeat split; congruence. Qed.

(** C2, amended.  In every state the system reaches, a dead row has
    [attempts >= max_retries]; as long as no dead job has been requeued
    from the DLQ, a row whose [max_retries] is positive has
    [attempts <= max_retries], with equality when it is dead; and when the
    operator requeues a dead job and it fails again, it is dead again with
    one more attempt (so above [max_retries]). *)
Theorem attempts_bounded (ops : list Op) (k : string) (j : Job.t) :
  jobs (world (run ops init)) !! k = Some j →
  (Job.state j = DEAD → Job.max_retries j ≤ Job.attempts j)
  ∧ (Forall (λ op, is_dlq_retry op = false) ops → 0 < Job.max_retries j →
     Job.attempts j ≤ Job.max_retries j
     ∧ (Job.state j = DEAD → Job.attempts j = Job.max_retries j))
  ∧ (Job.state j = DEAD →
     ∀ w c cfg msg,
       ∃ j', jobs (world (run (ops ++ [OpEnv c cfg [] (λ _, ExecError msg);
                                        OpDlqRetry k; OpClaim w k; OpExecute k])
                            init)) !! k = Some j'
             ∧ Job.state j' = DEAD
             ∧ Job.attempts j' = Job.attempts j + 1
             ∧ Job.max_retries j' = Job.max_retries j).
Proof.
  intros Hj. pose proof (Inv_run ops init Inv_init) as HI.
  split; [|split].
  - by destruct (inv_rows _ _ _ HI k j Hj) as (_ & ?).
  - intros Hops Hpos.
    assert (HB : Bounded (run ops init)).
    { apply Bounded_run; [done|apply Inv_init|].
      intros k0 j0 H0. simpl in H0. by rewrite lookup_empty in H0. }
    destruct (HB k j Hj Hpos) as [Hlt Heq]. split; [|done].
    destruct (decide (Job.state j = DEAD)) as [Hd|Hd]; [rewrite Heq by done|];
      [lia|specialize (Hlt Hd); lia].
  - intros Hd w c cfg msg. unfold run at 1. rewrite foldl_app.
    by apply dlq_retry_then_fail.
Qed.

Lemma attempts_bounded_witness :
  Job.attempts
    (Job.mk "t2" "false" DEAD 2 2 10 10 None (Some "Command failed: false")
       None None None)
  ≤ Job.max_retries
      (Job.mk "t2" "false" DEAD 2 2 10 10 None (Some "Command failed: false")
         None None None).
Proof.
  apply (attempts_bounded Sample.exhaust "t2").
  - vm_compute. reflexivity.
  - repeat constructor.
  - simpl. lia.
Defined.

(** ** Requeue *)

(** C6 as written fails in its last part: [requeueFailedJob] does not look
    at the state it finds; a job that a worker is processing, or a
    completed one, goes back to [pending] just the same. *)
Lemma requeue_any_state_counterexample :
  Job.state (Sample.claimed 1 3) = PROCESSING
  ∧ (λ j, (Job.state j, Job.locked_by j))
      <$> (requeueFailedJob "a" 9 (<["a" := Sample.claimed 1 3]> ∅)).2 !! "a"
    = Some (PENDING, None)
  ∧ Job.state
      <$> (requeueFailedJob "a" 9
             (<["a" := row_completed "done" 8 (Sample.claimed 1 3)]> ∅)).2 !! "a"
    = Some PENDING.
Proof. vm_compute. done. Qed.

(** C6, amended.  On every existing row, whatever its state (so in
    particular on a failed or dead one), [requeueFailedJob] writes
    [pending], clears [locked_by] and [locked_at] and leaves [attempts],
    [id], [command], [max_retries], [last_error] (and [created_at],
    [scheduled_at], [output]) as they were.  The restriction to failed and
    dead jobs is made by its two callers: [dlq retry] changes nothing and
    exits with an error unless the row it read is dead, and the worker arms
    the requeue timer only after [markJobFailed] wrote [failed]; in every
    state the system reaches, the job of a pending timer is still failed. *)
Theorem requeueFailedJob_frame :
  (∀ jobId now (s : Store) j,
     s !! jobId = Some j →
     ∃ j', requeueFailedJob jobId now s = (inr j', <[jobId := j']> s)
       ∧ Job.state j' = PENDING
       ∧ Job.locked_by j' = None ∧ Job.locked_at j' = None
       ∧ Job.attempts j' = Job.attempts j
       ∧ Job.id j' = Job.id j ∧ Job.command j' = Job.command j
       ∧ Job.max_retries j' = Job.max_retries j
       ∧ Job.last_error j' = Job.last_error j
       ∧ Job.created_at j' = Job.created_at j
       ∧ Job.scheduled_at j' = Job.scheduled_at j
       ∧ Job.output j' = Job.output j)
  ∧ (∀ jobId σ,
       (∀ j, jobs σ !! jobId = Some j → Job.state j ≠ DEAD) →
       jobs (dlq_retry_action jobId σ).2 = jobs σ
       ∧ ∃ msg, (dlq_retry_action jobId σ).1 = inl (Exit 1 msg))
  ∧ (∀ job error σ,
       timers (handleJobFailure job error σ).2 ≠ timers σ →
       ∃ j', jobs (handleJobFailure job error σ).2 !! Job.id job = Some j'
             ∧ Job.state j' = FAILED)
  ∧ (∀ ops t,
       t ∈ timers (world (run ops init)) →
       ∃ j, jobs (world (run ops init)) !! t_jobId t = Some j
            ∧ Job.state j = FAILED).
Proof.
  split; [|split; [|split]].
  - intros jobId now s j Hj. rewrite (requeueFailedJob_row _ _ _ _ Hj).
    eexists. split; [reflexivity|]. simpl. tauto.
  - intros jobId σ Hnd.
    destruct (dlq_retry_effect jobId σ) as [_ [?|(j & Hj & Hst & _)]]; [done|].
    by destruct (Hnd j Hj).
  - intros job error σ Hne.
    destruct (handleJobFailure_timers job error σ) as [?|(_ & ? & _)]; done.
  - intros ops t Hin.
    by apply (inv_timers _ _ _ (Inv_run ops init Inv_init)).
Qed.

Lemma requeueFailedJob_frame_witness :
  ∃ j', requeueFailedJob "a" 9
          (<["a" := row_failed "boom" 2 2 8 (Sample.claimed 1 2)]> ∅)
        = (inr j', <["a" := j']>
                     (<["a" := row_failed "boom" 2 2 8 (Sample.claimed 1 2)]> ∅))
        ∧ Job.state j' = PENDING ∧ Job.attempts j' = 2.
Proof.
  destruct requeueFailedJob_frame as [H _].
  destruct (H "a" 9 (<["a" := row_failed "boom" 2 2 8 (Sample.claimed 1 2)]> ∅)
              (row_failed "boom" 2 2 8 (Sample.claimed 1 2)))
    as (j' & E & Hst & _ & _ & Ha & _); [reflexivity|].
  exists j'. split; [exact E|]. split; [exact Hst|]. rewrite Ha. reflexivity.
Defined.

(** ** Creation *)

(** C8 as written fails where it says that an absent [max_retries]
    defaults to the configured value: with ["0"] configured the action
    stores 3; and [enqueueJob] on its own never reads the configuration,
    it stores 3 whatever is configured. *)
Lemma enqueue_default_counterexample :
  JS.parseInt "0" = Some 0
  ∧ Job.max_retries
      <$> jobs (enqueue_action
                  (mkJobSpec (Some "a") (Some "true") undefined undefined) "u"
                  (mkWorld ∅ (Sample.cfg "0" "2") [] 10 [] Sample.sh_ok)).2 !! "a"
    = Some 3
  ∧ Job.max_retries
      <$> (enqueueJob (mkJobData "a" "true" undefined undefined) 10 ∅).2 !! "a"
    = Some 3.
Proof. vm_compute. done. Qed.

Lemma number_truthy n : truthy (number n) = true ↔ n ≠ 0.
Proof.
  unfold number. cbn [truthy]. rewrite negb_true_iff, bool_decide_eq_false. done.
Qed.






(** C8, amended.  When the store answers, the [enqueue] action on a spec
    with a non-empty command and an unused id (the spec's, or a fresh UUID
    when it has none) inserts the row [state = pending], [attempts = 0],
    the given command, and returns that row, provided the store can read
    the two values that the action passes on: the row has the
    [max_retries] and the [scheduled_at] that the store reads from them
    ([scheduled_at] empty when the spec has none).  The value passed on
    for [max_retries] is the spec's own when that is truthy, and otherwise
    the number [default_max_retries]: the configured value when its text
    parses to a non-zero integer and 3 when it is missing, not a number or
    0.  A number is truthy unless it is 0, and the 32-bit column reads it
    as itself between -2^31 and 2^31 - 1 and refuses it outside.  When a
    job with the id exists, or the store refuses one of the two values,
    the action exits with code 1 and the table is unchanged; a spec
    without a command is refused before the store is touched.
    [enqueueJob] itself does the same with 3 as its only fallback, and
    tells the duplicate key from the refused value. *)
Theorem enqueue_creates (jobSpec : JobSpec) (uuid : string) (σ : World) :
  faults σ = [] →
  let id := enqueue_id jobSpec uuid in
  let ceiling := enqueue_ceiling jobSpec σ in
  let σ1 := mkWorld (jobs σ) (config σ) (timers σ) (clock σ) [] (shell σ) in
  (JS.falsy_str (spec_command jobSpec) = false → jobs σ !! id = None →
   ∀ max_retries scheduled_at,
     integer_column ceiling = Some max_retries →
     scheduled_column (spec_scheduled_at jobSpec) = Some scheduled_at →
     enqueue_action jobSpec uuid σ =
       (inr (Job.mk id (default "" (spec_command jobSpec)) PENDING 0
               max_retries (clock σ) (clock σ) scheduled_at None None None None),
        mkWorld
          (<[id := Job.mk id (default "" (spec_command jobSpec)) PENDING 0
                     max_retries (clock σ) (clock σ) scheduled_at
                     None None None None]> (jobs σ))
          (config σ) (timers σ) (clock σ) [] (shell σ)))
  ∧ (JS.falsy_str (spec_command jobSpec) = false →
     is_Some (jobs σ !! id) ∨ integer_column ceiling = None
       ∨ scheduled_column (spec_scheduled_at jobSpec) = None →
     (enqueue_action jobSpec uuid σ).2 = σ1
     ∧ ∃ text, (enqueue_action jobSpec uuid σ).1
               = inl (Exit 1 ("Error enqueueing job: " ++ text)))
  ∧ (JS.falsy_str (spec_command jobSpec) = true →
     (enqueue_action jobSpec uuid σ).2 = σ
     ∧ ∃ msg, (enqueue_action jobSpec uuid σ).1 = inl (Exit 1 msg))
  ∧ (truthy (spec_max_retries jobSpec) = true → ceiling = spec_max_retries jobSpec)
  ∧ (truthy (spec_max_retries jobSpec) = false →
     ceiling = number (default_max_retries (config σ !! "max_retries")))
  ∧ (∀ n, (truthy (number n) = true ↔ n ≠ 0)
          ∧ (- 2 ^ 31 ≤ n < 2 ^ 31 → integer_column (number n) = Some n)
          ∧ (n < - 2 ^ 31 ∨ 2 ^ 31 ≤ n → integer_column (number n) = None))
  ∧ (truthy undefined = false ∧ scheduled_column undefined = Some None)
  ∧ (∀ v n, config σ !! "max_retries" = Some v → JS.parseInt v = Some n →
       n ≠ 0 → default_max_retries (config σ !! "max_retries") = n)
  ∧ (JS.parseInt_opt (config σ !! "max_retries") = None
     ∨ JS.parseInt_opt (config σ !! "max_retries") = Some 0 →
     default_max_retries (config σ !! "max_retries") = 3)
  ∧ (∀ jobData now (s : Store),
       let value := or_value (jd_max_retries jobData) (number 3) in
       (∀ max_retries scheduled_at,
          integer_column value = Some max_retries →
          scheduled_column (jd_scheduled_at jobData) = Some scheduled_at →
          s !! jd_id jobData = None →
          enqueueJob jobData now s =
            (inr (Job.mk (jd_id jobData) (jd_command jobData) PENDING 0
                    max_retries now now scheduled_at None None None None),
             <[jd_id jobData :=
                 Job.mk (jd_id jobData) (jd_command jobData) PENDING 0
                   max_retries now now scheduled_at None None None None]> s))
       ∧ (is_Some (integer_column value) →
          is_Some (scheduled_column (jd_scheduled_at jobData)) →
          is_Some (s !! jd_id jobData) →
          enqueueJob jobData now s = (inl DuplicateId, s))
       ∧ (integer_column value = None
          ∨ scheduled_column (jd_scheduled_at jobData) = None →
          enqueueJob jobData now s = (inl Refused, s))).
Proof.
  intros Hf id ceiling σ1.
  split; [|split; [|split; [|split; [|split; [|split; [|split;
    [|split; [|split]]]]]]]].
  - intros Hc Hfresh m sc Hm Hs.
    destruct (enqueue_action_ok jobSpec uuid σ Hf Hc) as (H & _).
    by apply H.
  - intros Hc Hcase.
    destruct (enqueue_action_ok jobSpec uuid σ Hf Hc) as (_ & Hdup & Href).
    destruct (integer_column ceiling) as [m|] eqn:Hm;
      [|rewrite Href by (by left); split; [done|by eexists]].
    destruct (scheduled_column (spec_scheduled_at jobSpec)) as [sc|] eqn:Hs;
      [|rewrite Href by (by right); split; [done|by eexists]].
    destruct Hcase as [Hid|[?|?]]; [|done..].
    rewrite Hdup by (done || by eexists). split; [done|by eexists].
  - intros Hc. unfold enqueue_action, exit_on_error, try_catch. rewrite Hc.
    simpl. eauto.
  - intros Htr. subst ceiling. unfold enqueue_ceiling. by rewrite Htr.
  - intros Htr. subst ceiling. unfold enqueue_ceiling. by rewrite Htr.
  - intros n. split; [apply number_truthy|]. split.
    + intros Hn. apply number_column_int4. by apply int4_range.
    + intros Hn. apply number_column_refused.
      destruct (int4 n) eqn:E; [|done]. apply int4_range in E. lia.
  - done.
  - intros v n -> Hp Hn. by apply default_max_retries_configured.
  - apply default_max_retries_fallback.
  - intros jobData now s value. split; [|split].
    + intros m sc. apply enqueueJob_fresh.
    + apply enqueueJob_duplicate.
    + apply enqueueJob_refused.
Qed.

Lemma enqueue_creates_witness :
  enqueue_action (mkJobSpec (Some "a") (Some "true") undefined undefined) "u"
    (mkWorld ∅ (Sample.cfg "5" "2") [] 10 [] Sample.sh_ok)
  = (inr (Job.mk "a" "true" PENDING 0 5 10 10 None None None None None),
     mkWorld
       (<["a" := Job.mk "a" "true" PENDING 0 5 10 10 None None None None None]> ∅)
       (Sample.cfg "5" "2") [] 10 [] Sample.sh_ok).
Proof.
  destruct (enqueue_creates
              (mkJobSpec (Some "a") (Some "true") undefined undefined) "u"
              (mkWorld ∅ (Sample.cfg "5" "2") [] 10 [] Sample.sh_ok))
    as (H & _); [reflexivity|].
  apply H; reflexivity.
Defined.



(** ** Two runs of the system *)

(** A job whose command succeeds: completed, no attempt counted, unlocked. *)
Example run_success :
  (λ j, (Job.state j, Job.attempts j, Job.locked_by j, Job.output j))
    <$> jobs (world (run [OpEnv 10 (Sample.cfg "3" "2") [] Sample.sh_ok;
                          OpEnqueue
                            (mkJobSpec (Some "t1") (Some "true") undefined undefined)
                            "u";
                          OpClaim "w1" "t1"; OpExecute "t1"] init)) !! "t1"
  = Some (COMPLETED, 0, None, Some "done").
Proof. vm_compute. reflexivity. Qed.

(** A job whose command fails with [max_retries = 2]: failed with a 2 s
    timer after the first attempt, dead after the second. *)
Example run_exhaust :
  timers (world (run (take 4 Sample.exhaust) init)) = [mkTimer (Some 2000) "t2"]
  ∧ (λ j, (Job.state j, Job.attempts j, Job.locked_by j))
      <$> jobs (world (run Sample.exhaust init)) !! "t2"
    = Some (DEAD, 2, None)
  ∧ timers (world (run Sample.exhaust init)) = [].
Proof. vm_compute. done. Qed.

(** * Further properties *)

(** ** Listing and counting *)

Global Instance older_first_total : Total older_first.
Proof. intros a b. unfold older_first. lia. Qed.

Global Instance older_first_trans : Transitive older_first.
Proof. intros a b c. unfold older_first. lia. Qed.

Global Instance newer_first_total : Total newer_first.
Proof. intros a b. unfold newer_first. lia. Qed.

Global Instance newer_first_trans : Transitive newer_first.
Proof. intros a b c. unfold newer_first. lia. Qed.

Lemma all_rows_elem (s : Store) j : j ∈ all_rows s ↔ ∃ k, s !! k = Some j.
Proof.
  unfold all_rows. rewrite list_elem_of_fmap. split.
  - intros ([k j'] & -> & Hin). apply elem_of_map_to_list in Hin. eauto.
  - intros [k Hk]. exists (k, j). by rewrite elem_of_map_to_list.
Qed.

Lemma all_rows_length (s : Store) : length (all_rows s) = size s.
Proof. unfold all_rows. by rewrite length_fmap, length_map_to_list. Qed.

Lemma state_name_inj st st' : state_name st = state_name st' → st = st'.
Proof. by destruct st, st'. Qed.

Lemma no_elem_nil {A} (l : list A) : (∀ x, x ∉ l) → l = [].
Proof. destruct l as [|x l]; [done|]. intros H. destruct (H x). by left. Qed.

Lemma getJobsByState_elem state (s : Store) j :
  j ∈ getJobsByState state s ↔
  state_name (Job.state j) = state ∧ ∃ k, s !! k = Some j.
Proof.
  unfold getJobsByState. rewrite merge_sort_Permutation.
  by rewrite list_elem_of_filter, all_rows_elem.
Qed.

(** X1. [getJobsByState] lists the rows whose state has the given name,
    each once, the oldest first; for a text that names no state the list is
    empty. *)
Theorem getJobsByState_lists (state : string) (s : Store) :
  (∀ j, j ∈ getJobsByState state s ↔
        state_name (Job.state j) = state ∧ ∃ k, s !! k = Some j)
  ∧ getJobsByState state s
    ≡ₚ filter (λ j, state_name (Job.state j) = state) (all_rows s)
  ∧ StronglySorted older_first (getJobsByState state s)
  ∧ ((∀ st, state_name st ≠ state) → getJobsByState state s = []).
Proof.
  split; [intros j; apply getJobsByState_elem|].
  split; [apply merge_sort_Permutation|].
  split; [apply StronglySorted_merge_sort; apply _|].
  intros Hno. apply no_elem_nil. intros j [Hj _]%getJobsByState_elem.
  by apply (Hno (Job.state j)).
Qed.

Lemma getJobsByState_lists_witness :
  getJobsByState "Pending" Sample.two_jobs = [].
Proof.
  apply (getJobsByState_lists "Pending" Sample.two_jobs).
  intros st. by destruct st.
Defined.

(** X2. [getAllJobs] lists every row of the table once, the newest
    first. *)
Theorem getAllJobs_lists (s : Store) :
  (∀ j, j ∈ getAllJobs s ↔ ∃ k, s !! k = Some j)
  ∧ getAllJobs s ≡ₚ all_rows s
  ∧ length (getAllJobs s) = size s
  ∧ StronglySorted newer_first (getAllJobs s).
Proof.
  split; [|split; [|split]].
  - intros j. unfold getAllJobs. by rewrite merge_sort_Permutation, all_rows_elem.
  - apply merge_sort_Permutation.
  - unfold getAllJobs. by rewrite merge_sort_Permutation, all_rows_length.
  - apply StronglySorted_merge_sort; apply _.
Qed.

Lemma getAllJobs_lists_witness :
  length (getAllJobs Sample.two_jobs) = size Sample.two_jobs.
Proof. apply (getAllJobs_lists Sample.two_jobs). Defined.

(** Counting by [stats[job.state]++]. *)
Lemma foldl_bump (l : list Job.t) (init : Stats) :
  st_total (foldl (λ stats job, bump stats (Job.state job)) init l) = st_total init
  ∧ ∀ st,
      counter (foldl (λ stats job, bump stats (Job.state job)) init l) st
      = counter init st
        + Z.of_nat (length (filter (λ j, Job.state j = st) l)).
Proof.
  revert init. induction l as [|j l IH]; intros init; simpl.
  - split; [done|]. intros st. lia.
  - destruct (IH (bump init (Job.state j))) as [Ht Hc]. split.
    + rewrite Ht. by destruct (Job.state j).
    + intros st. rewrite Hc, filter_cons.
      destruct (decide (Job.state j = st)) as [<-|Hne]; simpl.
      * destruct (Job.state j); simpl; lia.
      * destruct (Job.state j), st; simpl; try done; lia.
Qed.

Lemma count_states (l : list Job.t) :
  length l
  = (length (filter (λ j, Job.state j = PENDING) l)
     + length (filter (λ j, Job.state j = PROCESSING) l)
     + length (filter (λ j, Job.state j = COMPLETED) l)
     + length (filter (λ j, Job.state j = FAILED) l)
     + length (filter (λ j, Job.state j = DEAD) l))%nat.
Proof.
  induction l as [|j l IH]; [done|]. rewrite !filter_cons.
  destruct (Job.state j); simpl; repeat case_decide; simpl; try done; lia.
Qed.

Lemma counter_getJobStats (s : Store) st :
  counter (getJobStats s) st
  = Z.of_nat (length (filter (λ j, Job.state j = st) (all_rows s))).
Proof.
  unfold getJobStats.
  destruct (foldl_bump (all_rows s)
              (mkStats 0 0 0 0 0 (Z.of_nat (length (all_rows s))))) as [_ Hc].
  rewrite Hc. by destruct st.
Qed.

Lemma total_getJobStats (s : Store) :
  st_total (getJobStats s) = Z.of_nat (size s).
Proof.
  unfold getJobStats.
  destruct (foldl_bump (all_rows s)
              (mkStats 0 0 0 0 0 (Z.of_nat (length (all_rows s))))) as [-> _].
  simpl. by rewrite all_rows_length.
Qed.

(** X3. [getJobStats]: the counter of each state is the number of rows
    that [getJobsByState] lists for it, [total] is the number of rows of
    the table, and the five counters add up to [total]. *)
Theorem getJobStats_counts (s : Store) :
  (∀ st, counter (getJobStats s) st
         = Z.of_nat (length (getJobsByState (state_name st) s)))
  ∧ st_total (getJobStats s) = Z.of_nat (size s)
  ∧ st_pending (getJobStats s) + st_processing (getJobStats s)
    + st_completed (getJobStats s) + st_failed (getJobStats s)
    + st_dead (getJobStats s)
    = st_total (getJobStats s).
Proof.
  split; [|split].
  - intros st. rewrite counter_getJobStats. f_equal.
    unfold getJobsByState. rewrite merge_sort_Permutation.
    f_equal. apply list_filter_iff. intros j. split; [by intros ->|].
    apply state_name_inj.
  - apply total_getJobStats.
  - rewrite total_getJobStats, <- all_rows_length.
    pose proof (counter_getJobStats s PENDING) as H1.
    pose proof (counter_getJobStats s PROCESSING) as H2.
    pose proof (counter_getJobStats s COMPLETED) as H3.
    pose proof (counter_getJobStats s FAILED) as H4.
    pose proof (counter_getJobStats s DEAD) as H5.
    simpl in *. rewrite H1, H2, H3, H4, H5.
    pose proof (count_states (all_rows s)). lia.
Qed.

Lemma getJobStats_counts_witness :
  st_total (getJobStats Sample.two_jobs) = Z.of_nat (size Sample.two_jobs).
Proof. apply (getJobStats_counts Sample.two_jobs). Defined.

(** ** Rows that are not there, and rows that are taken *)

(** X4. An id that is not in the table: the three updates of the life
    cycle (and [updateJob] itself) fail with the error of [.single()] and
    leave the table as it is; [lockJob] and [getJob], which end in
    [.maybeSingle()], return [null] without an error. *)
Theorem registry_missing_row (jobId : string) (now : Z) (s : Store) :
  s !! jobId = None →
  (∀ output, markJobCompleted jobId output now s = (inl NoRows, s))
  ∧ (∀ error attempts maxRetries,
       markJobFailed jobId error attempts maxRetries now s = (inl NoRows, s))
  ∧ requeueFailedJob jobId now s = (inl NoRows, s)
  ∧ (∀ updates, updateJob jobId updates now s = (inl NoRows, s))
  ∧ (∀ workerId, lockJob jobId workerId now s = (inr None, s))
  ∧ getJob jobId s = None.
Proof.
  intros Hno. unfold markJobCompleted, markJobFailed, requeueFailedJob.
  repeat split; intros; rewrite ?updateJob_no_row by done; try done.
  - unfold lockJob. by rewrite Hno.
Qed.

Lemma registry_missing_row_witness :
  requeueFailedJob "zz" 9 Sample.two_jobs = (inl NoRows, Sample.two_jobs).
Proof.
  apply (registry_missing_row "zz" 9 Sample.two_jobs). reflexivity.
Defined.

(** X5. A job is claimed once: after a [lockJob] that returned the row,
    the row is in the table, processing and locked by that worker, and a
    further [lockJob] on the same id, by any worker (the same one
    included) at any time, returns [null] and changes nothing. *)
Theorem lockJob_exclusive (jobId w1 w2 : string) (t1 t2 : Z) (s s1 : Store)
    (j1 : Job.t) :
  lockJob jobId w1 t1 s = (inr (Some j1), s1) →
  s1 !! jobId = Some j1
  ∧ Job.state j1 = PROCESSING ∧ Job.locked_by j1 = Some w1
  ∧ lockJob jobId w2 t2 s1 = (inr None, s1).
Proof.
  intros H.
  destruct (lockJob_row jobId w1 t1 s) as [E|(j & Hj & Hst & Hl & E)];
    rewrite E in H; simplify_eq.
  rewrite lookup_insert_eq. repeat split; try done.
  unfold lockJob. rewrite lookup_insert_eq. done.
Qed.

Lemma lockJob_exclusive_witness :
  lockJob "a" "w2" 8
    (<["a" := row_locked "w1" 7 Sample.pending]> (<["a" := Sample.pending]> ∅))
  = (inr None,
     <["a" := row_locked "w1" 7 Sample.pending]> (<["a" := Sample.pending]> ∅)).
Proof.
  apply (lockJob_exclusive "a" "w1" "w2" 7 8 (<["a" := Sample.pending]> ∅)
           _ (row_locked "w1" 7 Sample.pending)).
  reflexivity.
Defined.

Lemma getNextPendingJob_Some now (s : Store) j :
  getNextPendingJob now s = Some j →
  eligible now j = true ∧ ∃ k, s !! k = Some j.
Proof.
  intros H. apply oldest_minimal in H as [Hin _].
  by apply candidates_elem in Hin.
Qed.

Lemma lock_after_select (now now' : Z) (workerId : string) (s : Store) j :
  (∀ k j, s !! k = Some j → Job.id j = k) →
  getNextPendingJob now s = Some j →
  lockJob (Job.id j) workerId now' s
  = (inr (Some (row_locked workerId now' j)),
     <[Job.id j := row_locked workerId now' j]> s).
Proof.
  intros Hkey Hsel.
  apply getNextPendingJob_Some in Hsel as (Hel & k & Hk).
  pose proof (Hkey _ _ Hk) as <-.
  apply eligible_true in Hel as (Hst & Hl & _).
  destruct (lockJob_row (Job.id j) workerId now' s)
    as [E|(j0 & Hj0 & _ & _ & E)]; [|by simplify_eq].
  unfold lockJob in E. rewrite Hk in E.
  rewrite !bool_decide_eq_true_2 in E by done. simplify_eq/=.
Qed.

(** X6. Select, then lock.  In a table keyed by the id, the job that
    [getNextPendingJob] returns can be claimed at once: [lockJob] on its id
    returns the row with the lock written.  From then on no select returns
    that job again; what a later select returns is another row, untouched
    by the claim. *)
Theorem select_then_lock (now now' : Z) (workerId : string) (s : Store)
    (j : Job.t) :
  (∀ k j, s !! k = Some j → Job.id j = k) →
  getNextPendingJob now s = Some j →
  lockJob (Job.id j) workerId now' s
  = (inr (Some (row_locked workerId now' j)),
     <[Job.id j := row_locked workerId now' j]> s)
  ∧ ∀ now'' j',
      getNextPendingJob now'' (<[Job.id j := row_locked workerId now' j]> s)
      = Some j' →
      Job.id j' ≠ Job.id j ∧ s !! Job.id j' = Some j'.
Proof.
  intros Hkey Hsel. split; [by eapply lock_after_select|].
  apply getNextPendingJob_Some in Hsel as (Hel & k & Hk).
  pose proof (Hkey _ _ Hk) as <-.
  - intros now'' j' Hsel'.
    apply getNextPendingJob_Some in Hsel' as (Hel' & k' & Hk').
    apply eligible_true in Hel' as (Hst' & _).
    rewrite lookup_insert in Hk'. case_decide as Hd.
    + by simplify_eq.
    + pose proof (Hkey _ _ Hk') as <-. split; [|done].
      intros Heq. rewrite Heq in *. simplify_eq.
Qed.

Lemma select_then_lock_witness :
  lockJob (Job.id Sample.scheduled) "w1" 21 Sample.two_jobs
  = (inr (Some (row_locked "w1" 21 Sample.scheduled)),
     <[Job.id Sample.scheduled := row_locked "w1" 21 Sample.scheduled]>
       Sample.two_jobs).
Proof.
  apply (select_then_lock 20 21 "w1" Sample.two_jobs Sample.scheduled).
  - intros k j. unfold Sample.two_jobs. rewrite !lookup_insert_Some, lookup_empty.
    intros [[<- <-]|[_ [[<- <-]|[_ ?]]]]; done.
  - vm_compute. reflexivity.
Defined.

(** ** One poll of a worker *)

Lemma getConfig_no_fault key σ :
  faults σ = [] →
  getConfig key σ =
    (inr (config σ !! key),
     mkWorld (jobs σ) (config σ) (timers σ) (clock σ) [] (shell σ)).
Proof. intros H. unfold getConfig. by rewrite H. Qed.

(** X7. A poll that finds nothing to do.  When no job is eligible, or the
    select does not reach the store, [processNextJob] makes that one round
    trip and nothing else: both tables and the timers are as before, the
    marker is null and the failure is swallowed. *)
Theorem processNextJob_nothing_to_do (w : Worker) (σ : World) :
  isRunning w = true → currentJob w = None →
  head (faults σ) = Some true ∨ getNextPendingJob (clock σ) (jobs σ) = None →
  processNextJob (w, σ)
  = (inr tt,
     (mkWorker (workerId w) true None,
      mkWorld (jobs σ) (config σ) (timers σ) (clock σ) (tail (faults σ))
        (shell σ))).
Proof.
  intros Hr Hc H.
  unfold processNextJob, mbind at 1, ST_bind at 1, this. simpl.
  rewrite Hr, Hc. simpl.
  unfold try_finally, try_catch, mbind, ST_bind, lift.
  match goal with |- context [query ?q σ] =>
    destruct (query_cases q σ) as [[E Hf]|[E Hf]]; rewrite E; clear E end;
    simpl.
  - by rewrite Hr.
  - destruct H as [H | ->]; [done|]. simpl. by rewrite Hr.
Qed.

Lemma processNextJob_nothing_to_do_witness :
  processNextJob
    (mkWorker "w1" true None,
     mkWorld Sample.two_jobs (Sample.cfg "3" "2") [] 10 [true] Sample.sh_ok)
  = (inr tt,
     (mkWorker "w1" true None,
      mkWorld Sample.two_jobs (Sample.cfg "3" "2") [] 10 [] Sample.sh_ok)).
Proof.
  apply (processNextJob_nothing_to_do (mkWorker "w1" true None)
           (mkWorld Sample.two_jobs (Sample.cfg "3" "2") [] 10 [true]
              Sample.sh_ok)); [reflexivity|reflexivity|].
  left. reflexivity.
Defined.

(** What a poll does up to the execution, when the store answers. *)
Lemma processNextJob_claims w σ j :
  isRunning w = true → currentJob w = None → faults σ = [] →
  (∀ k j, jobs σ !! k = Some j → Job.id j = k) →
  getNextPendingJob (clock σ) (jobs σ) = Some j →
  processNextJob (w, σ)
  = let lockedJob := row_locked (workerId w) (clock σ) j in
    let r :=
      try_catch (executeJob lockedJob) (λ _, mret tt)
        (mkWorld (<[Job.id j := lockedJob]> (jobs σ)) (config σ) (timers σ)
           (clock σ) [] (shell σ)) in
    (inr tt, (mkWorker (workerId w) true None, r.2)).
Proof.
  intros Hr Hc Hf Hkey Hsel.
  pose proof (lock_after_select (clock σ) (clock σ) (workerId w) (jobs σ) j
                Hkey Hsel) as Hlock.
  unfold processNextJob, mbind at 1, ST_bind at 1, this. simpl.
  rewrite Hr, Hc. simpl.
  unfold try_finally, try_catch, mbind, ST_bind, lift.
  rewrite query_no_fault by done. simpl. rewrite Hsel.
  rewrite query_no_fault by done. simpl. rewrite Hlock. simpl.
  destruct (executeJob _ _) as [[e|[]] σ'] eqn:E; simpl.
  - pose proof (executeJob_never_exits _ _ _ (f_equal fst E)) as Hne.
    destruct e; simpl in *; try done; by rewrite Hr.
  - by rewrite Hr.
Qed.

Lemma handleJobFailure_no_fault job error σ j :
  faults σ = [] → jobs σ !! Job.id job = Some j →
  handleJobFailure job error σ
  = (inr tt,
     mkWorld
       (<[Job.id job :=
            row_failed (JS.or_str (message error) "Unknown error")
              (Job.attempts job + 1) (Job.max_retries job) (clock σ) j]> (jobs σ))
       (config σ)
       (timers σ
        ++ (if bool_decide (Job.attempts job + 1 < Job.max_retries job)
            then [mkTimer
                    (timer_delay (backoffBase (config σ !! "backoff_base"))
                       (Job.attempts job + 1))
                    (Job.id job)]
            else []))
       (clock σ) [] (shell σ)).
Proof.
  intros Hf Hj. unfold handleJobFailure, timer_delay, mbind, ST_bind.
  rewrite query_no_fault by done.
  rewrite (markJobFailed_row _ _ _ _ _ _ _ Hj). simpl.
  case_bool_decide.
  - rewrite getConfig_no_fault by done. done.
  - unfold mret, ST_ret. by rewrite app_nil_r.
Qed.

Lemma held_row_locked (s : Store) w now j :
  <[Job.id j := row_locked w now j]> s !! Job.id (row_locked w now j)
  = Some (row_locked w now j).
Proof. simpl. by rewrite lookup_insert_eq. Qed.



(** X9. A poll whose command fails.  The row is written failed, or dead
    when this was the last attempt allowed, with one attempt more, the
    message of the error and the lock cleared; a requeue timer is set
    exactly when attempts remain.  Its delay is the one the runtime arms:
    [backoff_base ^ attempts] seconds when that lies between 1 ms and
    2^31 - 1 ms, and 1 ms otherwise. *)
Theorem processNextJob_fails (w : Worker) (σ : World) (j : Job.t)
    (msg : string) :
  isRunning w = true → currentJob w = None → faults σ = [] →
  (∀ k j, jobs σ !! k = Some j → Job.id j = k) →
  getNextPendingJob (clock σ) (jobs σ) = Some j →
  shell σ (Job.command j) = ExecError msg →
  let b := backoffBase (config σ !! "backoff_base") in
  let k := Job.attempts j + 1 in
  processNextJob (w, σ)
  = (inr tt,
     (mkWorker (workerId w) true None,
      mkWorld
        (<[Job.id j :=
             row_failed (JS.or_str msg "Unknown error") k
               (Job.max_retries j) (clock σ)
               (row_locked (workerId w) (clock σ) j)]> (jobs σ))
        (config σ)
        (timers σ
         ++ (if bool_decide (k < Job.max_retries j)
             then [mkTimer (timer_delay b k) (Job.id j)]
             else []))
        (clock σ) [] (shell σ)))
  ∧ (0 ≤ k → 1 ≤ b ^ k * 1000 ≤ 2 ^ 31 - 1 →
     timer_delay b k = Some (b ^ k * 1000))
  ∧ (0 ≤ k → b ^ k * 1000 < 1 ∨ 2 ^ 31 - 1 < b ^ k * 1000 →
     timer_delay b k = Some 1).
Proof.
  intros Hr Hc Hf Hkey Hsel Hsh b k. split; [|split].
  - rewrite (processNextJob_claims w σ j) by done. cbv zeta.
    unfold try_catch.
    rewrite executeJob_command_fails with (msg := msg) by done.
    rewrite (handleJobFailure_no_fault _ _ _ (row_locked (workerId w) (clock σ) j))
      by (done || apply held_row_locked).
    cbn [fst snd jobs config timers clock shell message].
    change (Job.id (row_locked _ _ j)) with (Job.id j).
    by rewrite insert_insert_eq.
  - intros Hk Hd. rewrite timer_delay_nonneg by done.
    rewrite !bool_decide_eq_true_2 by (unfold TIMEOUT_MAX; lia). done.
  - intros Hk Hd. rewrite timer_delay_nonneg by done.
    destruct Hd as [Hd|Hd].
    + by rewrite (bool_decide_eq_false_2 (1 ≤ _)) by lia.
    + rewrite (bool_decide_eq_false_2 (_ ≤ TIMEOUT_MAX))
        by (unfold TIMEOUT_MAX; lia).
      by rewrite andb_false_r.
Qed.

Lemma processNextJob_fails_witness :
  processNextJob
    (mkWorker "w1" true None,
     mkWorld Sample.two_jobs (Sample.cfg "3" "2") [] 20 [] Sample.sh_fail)
  = (inr tt,
     (mkWorker "w1" true None,
      mkWorld
        (<["a" := row_failed "Command failed: false" 1 3 20
                    (row_locked "w1" 20 Sample.scheduled)]> Sample.two_jobs)
        (Sample.cfg "3" "2") [mkTimer (Some 2000) "a"] 20 [] Sample.sh_fail)).
Proof.
  apply (processNextJob_fails (mkWorker "w1" true None)
           (mkWorld Sample.two_jobs (Sample.cfg "3" "2") [] 20 [] Sample.sh_fail)
           Sample.scheduled "Command failed: false");
    [reflexivity|reflexivity|reflexivity| |vm_compute; reflexivity|reflexivity].
  intros k j. cbn [jobs]. unfold Sample.two_jobs.
  rewrite !lookup_insert_Some, lookup_empty.
  intros [[<- <-]|[_ [[<- <-]|[_ ?]]]]; done.
Defined.

(** ** Store failures while a result is recorded *)

Lemma query_fault {A} (q : Z → Store → Result A * Store) σ fs :
  faults σ = true :: fs →
  query q σ =
    (inl StoreFailure,
     mkWorld (jobs σ) (config σ) (timers σ) (clock σ) fs (shell σ)).
Proof. intros H. unfold query. by rewrite H. Qed.

Lemma query_answer {A} (q : Z → Store → Result A * Store) σ :
  head (faults σ) ≠ Some true →
  query q σ =
    ((q (clock σ) (jobs σ)).1,
     mkWorld (q (clock σ) (jobs σ)).2 (config σ) (timers σ) (clock σ)
       (tail (faults σ)) (shell σ)).
Proof. intros H. by destruct (query_cases q σ) as [[_ ?]|[-> _]]. Qed.

(** X10. The command succeeded but its completion could not be stored:
    [executeJob] treats the store's error like a failure of the command.
    When the next round trip works, the row is written failed (or dead)
    with one attempt more and the store's message as [last_error]; it is
    not completed and the output of the command is not kept.  When that
    round trip fails too, [executeJob] throws and the table is untouched:
    the row stays processing and locked. *)
Theorem executeJob_completion_not_stored (job j : Job.t) (σ : World)
    (stdout stderr : string) (fs : list bool) :
  shell σ (Job.command job) = ExecOk stdout stderr →
  faults σ = true :: fs →
  jobs σ !! Job.id job = Some j →
  (head fs ≠ Some true →
   ∃ j', jobs (executeJob job σ).2 = <[Job.id job := j']> (jobs σ)
     ∧ j' = row_failed (message StoreFailure) (Job.attempts job + 1)
              (Job.max_retries job) (clock σ) j
     ∧ Job.state j' ≠ COMPLETED ∧ Job.output j' = Job.output j
     ∧ Job.attempts j' = Job.attempts job + 1
     ∧ Job.locked_by j' = None)
  ∧ (head fs = Some true →
     executeJob job σ
     = (inl StoreFailure,
        mkWorld (jobs σ) (config σ) (timers σ) (clock σ) (tail fs) (shell σ))).
Proof.
  intros Hsh Hf Hj.
  assert (Hrun : run_command job σ
                 = (inl StoreFailure,
                    mkWorld (jobs σ) (config σ) (timers σ) (clock σ) fs (shell σ))).
  { unfold run_command, mbind, ST_bind, execAsync. rewrite Hsh.
    by rewrite (query_fault _ _ fs). }
  unfold executeJob, try_catch. rewrite Hrun.
  unfold handleJobFailure, mbind, ST_bind. split; intros Hfs.
  - rewrite query_answer by done. cbn [jobs clock config timers shell faults].
    rewrite (markJobFailed_row _ _ _ _ _ _ _ Hj). cbn [fst snd].
    eexists. split; [|split; [reflexivity|]].
    + case_bool_decide; [|done].
      match goal with |- context [getConfig ?k ?w] =>
        destruct (getConfig_cases k w) as [[-> _]|[-> _]] end; done.
    + simpl. repeat split; try done. by case_bool_decide.
  - by destruct fs as [|[] fs']; simplify_eq/=.
Qed.

Lemma executeJob_completion_not_stored_witness :
  executeJob (Sample.claimed 0 3)
    (Sample.world_of (Sample.claimed 0 3) (Sample.cfg "3" "2") [true; true]
       Sample.sh_ok)
  = (inl StoreFailure,
     mkWorld (<["a" := Sample.claimed 0 3]> ∅) (Sample.cfg "3" "2") [] 10 []
       Sample.sh_ok).
Proof.
  apply (executeJob_completion_not_stored (Sample.claimed 0 3)
           (Sample.claimed 0 3)
           (Sample.world_of (Sample.claimed 0 3) (Sample.cfg "3" "2")
              [true; true] Sample.sh_ok) "done" "" [true]);
    reflexivity.
Defined.

(** ** The life cycle over the runs of the system *)

Lemma insert_edge σ op (s s' : Store) k0 j' k :
  s' = <[k0 := j']> s → edge σ op (s !! k0) j' →
  s' !! k = s !! k ∨ ∃ j', s' !! k = Some j' ∧ edge σ op (s !! k) j'.
Proof.
  intros -> He. destruct (decide (k0 = k)) as [<-|Hne].
  - right. exists j'. by rewrite lookup_insert_eq.
  - left. by rewrite lookup_insert_ne.
Qed.

Lemma claim_world jobId w σ :
  world (exec (OpClaim w jobId) σ) = (query (lockJob jobId w) (world σ)).2.
Proof.
  unfold exec. by destruct (query (lockJob jobId w) (world σ)) as [[e|[l|]] σ'].
Qed.

Lemma exec_edge op σ k :
  Inv σ →
  jobs (world (exec op σ)) !! k = jobs (world σ) !! k
  ∨ ∃ j', jobs (world (exec op σ)) !! k = Some j'
          ∧ edge σ op (jobs (world σ) !! k) j'.
Proof.
  intros HI. destruct op as [c cfg f sh|jobSpec uuid|w jobId|jobId|i|jobId].
  - by left.
  - simpl. destruct (enqueue_effect jobSpec uuid (world σ))
      as [_ [Hj|(job & Hfresh & Hj & Hst & Ha & Hl & _)]]; simpl in *.
    + left. by rewrite Hj.
    + eapply insert_edge; [done|]. rewrite Hfresh. by eapply edge_create.
  - rewrite claim_world.
    destruct (claim_effect jobId w (world σ))
      as [_ [[Hj _]|(j & Hj & Hst & Hl & _ & Hs)]]; simpl in *.
    + left. by rewrite Hj.
    + eapply insert_edge; [done|]. rewrite Hj.
      pose proof (inv_key _ _ _ HI _ _ Hj) as Hid.
      apply edge_claim; [by rewrite Hid|done..].
  - simpl. destruct (held σ !! jobId) as [job|] eqn:Hw; [|by left].
    destruct (inv_held _ _ _ HI jobId job Hw) as (Hjob & Hst).
    pose proof (inv_key _ _ _ HI jobId job Hjob) as Hid. subst jobId.
    destruct (executeJob_effect job (world σ))
      as [[Hj _]|[(j & out & Hj & Hs & _)|(j & err & Hj & Hs & _)]];
      simpl in *.
    + left. by rewrite Hj.
    + eapply insert_edge; [done|]. rewrite Hj. simplify_eq.
      by apply edge_complete.
    + eapply insert_edge; [done|]. rewrite Hj. simplify_eq.
      by apply edge_fail.
  - simpl. destruct (fire_effect i (world σ))
      as [[-> _]|(t & Hi & _ & [Hj|(j & Hj & Hs)])]; simpl in *.
    + by left.
    + left. by rewrite Hj.
    + eapply insert_edge; [done|].
      destruct (inv_timers _ _ _ HI t) as (j' & Hj' & Hst);
        [by eapply list_elem_of_lookup_2|].
      assert (j' = j) as -> by congruence. rewrite Hj.
      pose proof (inv_key _ _ _ HI _ _ Hj) as Hid.
      by eapply edge_requeue.
  - simpl. destruct (dlq_retry_effect jobId (world σ))
      as [_ [[Hj _]|(j & Hj & Hst & Hs)]]; simpl in *.
    + left. by rewrite Hj.
    + eapply insert_edge; [done|]. rewrite Hj.
      pose proof (inv_key _ _ _ HI _ _ Hj) as Hid.
      apply edge_dlq_retry; [by rewrite Hid|done].
Qed.

(** An execution in flight starts with a claim of a pending row. *)
Lemma exec_held op σ k x :
  held (exec op σ) !! k = Some x →
  held σ !! k = Some x
  ∨ ∃ w j, op = OpClaim w k ∧ jobs (world σ) !! k = Some j
           ∧ Job.state j = PENDING.
Proof.
  destruct op as [c cfg f sh|jobSpec uuid|w jobId|jobId|i|jobId]; simpl; auto.
  - destruct (claim_effect jobId w (world σ))
      as [_ [[_ Hr]|(j & Hj & Hst & _ & Hr & _)]];
      destruct (query (lockJob jobId w) (world σ)) as [[e|[l|]] σ'];
      simpl in *; auto; try by destruct (Hr l).
    rewrite lookup_insert. case_decide; [|by auto].
    subst. intros _. right. eauto.
  - destruct (held σ !! jobId) as [job|] eqn:Hw; simpl; [|by auto].
    rewrite lookup_delete. case_decide; [done|by auto].
Qed.

(** A timer is set by an execution in flight, for its own job. *)
Lemma exec_timers op σ t :
  Inv σ →
  t ∈ timers (world (exec op σ)) →
  t ∈ timers (world σ)
  ∨ (op = OpExecute (t_jobId t) ∧ is_Some (held σ !! t_jobId t)).
Proof.
  intros HI. destruct op as [c cfg f sh|jobSpec uuid|w jobId|jobId|i|jobId].
  - by left.
  - simpl. destruct (enqueue_effect jobSpec uuid (world σ)) as [Ht _].
    simpl in Ht. rewrite Ht. by left.
  - rewrite claim_world.
    destruct (claim_effect jobId w (world σ)) as [Ht _].
    simpl in Ht. rewrite Ht. by left.
  - simpl. destruct (held σ !! jobId) as [job|] eqn:Hw; [|by left].
    destruct (inv_held _ _ _ HI jobId job Hw) as (Hjob & Hst).
    pose proof (inv_key _ _ _ HI jobId job Hjob) as Hid. subst jobId.
    destruct (executeJob_effect job (world σ))
      as [[_ Ht]|[(j & out & _ & _ & Ht)|(j & err & Hj & _ & Ht)]];
      simpl in *; try (rewrite Ht; by left).
    destruct Ht as [Ht|(_ & delay & Ht)]; rewrite Ht; [by left|].
    intros [Hin|Hin]%elem_of_app; [by left|].
    apply list_elem_of_singleton in Hin as ->. simpl. right. eauto.
  - simpl. destruct (fire_effect i (world σ))
      as [[-> _]|(t0 & Hi & Ht & _)]; simpl in *; [by left|].
    rewrite Ht. intros Hin. left. by eapply list_elem_of_delete_inv.
  - simpl. destruct (dlq_retry_effect jobId (world σ)) as [Ht _].
    simpl in Ht. rewrite Ht. by left.
Qed.

Lemma edge_frame σ op j j' :
  edge σ op (Some j) j' →
  Job.id j' = Job.id j ∧ Job.command j' = Job.command j
  ∧ Job.max_retries j' = Job.max_retries j
  ∧ Job.created_at j' = Job.created_at j
  ∧ Job.scheduled_at j' = Job.scheduled_at j
  ∧ Job.attempts j ≤ Job.attempts j'.
Proof. inversion 1; simpl; repeat split; try done; lia. Qed.

(** X11. The life cycle.  In every state that the system reaches without
    a [dlq retry], a step other than a [dlq retry] leaves a row as it is or
    takes it along one edge: a new row is pending with no attempts and no
    lock; a pending, unlocked row is locked by a claim; a processing row is
    completed or failed (one attempt more) by the execution that holds it;
    a failed row is requeued by a timer of that job.  No such step removes
    a row. *)
Theorem job_life_cycle (ops : list Op) (op : Op) (k : string) :
  Forall (λ op, is_dlq_retry op = false) (ops ++ [op]) →
  (jobs (world (exec op (run ops init))) !! k
   = jobs (world (run ops init)) !! k
   ∨ ∃ j', jobs (world (exec op (run ops init))) !! k = Some j'
           ∧ edge (run ops init) op (jobs (world (run ops init)) !! k) j'
           ∧ ∀ j, jobs (world (run ops init)) !! k = Some j →
                  Job.state j ≠ DEAD ∧ Job.state j ≠ COMPLETED)
  ∧ (is_Some (jobs (world (run ops init)) !! k) →
     is_Some (jobs (world (exec op (run ops init))) !! k)).
Proof.
  intros Hops. apply Forall_app in Hops as [_ Hop]. apply Forall_inv in Hop.
  pose proof (exec_edge op (run ops init) k (Inv_run _ _ Inv_init)) as H.
  split.
  - destruct H as [H|(j' & Hj' & He)]; [by left|right].
    exists j'. split; [done|]. split; [done|].
    intros j Hj. rewrite Hj in He.
    inversion He; subst; try (split; congruence). done.
  - intros Hs. destruct H as [->|(j' & -> & _)]; eauto.
Qed.

Lemma job_life_cycle_witness :
  ∃ j', jobs (world (exec (OpClaim "w1" "t1")
                       (run (take 2 Scenario.success) init))) !! "t1" = Some j'
        ∧ Job.state j' = PROCESSING.
Proof.
  destruct (job_life_cycle (take 2 Scenario.success) (OpClaim "w1" "t1") "t1")
    as [[E|(j' & Hj' & He & _)] _].
  - repeat constructor.
  - exfalso. vm_compute in E. congruence.
  - exists j'. split; [exact Hj'|].
    vm_compute in Hj'. injection Hj' as <-. reflexivity.
Defined.

Lemma run_snoc ops op σ : run (ops ++ [op]) σ = exec op (run ops σ).
Proof. unfold run. by rewrite foldl_app. Qed.

Lemma run_app ops ops' σ : run (ops ++ ops') σ = run ops' (run ops σ).
Proof. unfold run. by rewrite foldl_app. Qed.

Lemma keeps_columns_refl j : keeps_columns j j.
Proof. by repeat split. Qed.

Lemma keeps_columns_trans j1 j2 j3 :
  keeps_columns j1 j2 → keeps_columns j2 j3 → keeps_columns j1 j3.
Proof.
  intros (? & ? & ? & ? & ?) (? & ? & ? & ? & ?). repeat split; congruence.
Qed.

(** No write of the registry removes a row or writes one of the columns
    that its updates leave alone. *)
Lemma apply_op_keeps op now (s : Store) k j :
  s !! k = Some j →
  ∃ j', apply_op op now s !! k = Some j' ∧ keeps_columns j j'.
Proof.
  intros Hj.
  destruct op; unfold apply_op, enqueueJob, lockJob, markJobCompleted,
    markJobFailed, requeueFailedJob, updateJob;
    repeat case_match; simplify_eq/=;
    rewrite ?lookup_insert; repeat case_decide; simplify_eq/=;
    eauto using keeps_columns_refl;
    (eexists; split; [reflexivity|by repeat split]).
Qed.

(** X12. Rows stay.  No sequence of writes of the registry (create, claim,
    complete, fail, requeue, with any arguments and in any order) removes
    a row or changes its id, command, retry ceiling, creation or schedule
    instant.  In a run of the system without [dlq retry] the attempts of a
    row are never lower than before. *)
Theorem rows_persist :
  (∀ (writes : list (RegistryOp * Z)) (s : Store) k j,
     s !! k = Some j →
     ∃ j', foldl (λ s w, apply_op w.1 w.2 s) s writes !! k = Some j'
       ∧ Job.id j' = Job.id j ∧ Job.command j' = Job.command j
       ∧ Job.max_retries j' = Job.max_retries j
       ∧ Job.created_at j' = Job.created_at j
       ∧ Job.scheduled_at j' = Job.scheduled_at j)
  ∧ (∀ (ops ops' : list Op) k j,
       Forall (λ op, is_dlq_retry op = false) (ops ++ ops') →
       jobs (world (run ops init)) !! k = Some j →
       ∃ j', jobs (world (run (ops ++ ops') init)) !! k = Some j'
         ∧ Job.id j' = Job.id j ∧ Job.command j' = Job.command j
         ∧ Job.max_retries j' = Job.max_retries j
         ∧ Job.created_at j' = Job.created_at j
         ∧ Job.scheduled_at j' = Job.scheduled_at j
         ∧ Job.attempts j ≤ Job.attempts j').
Proof.
  split.
  - intros writes. induction writes as [|[op now] writes IH]; intros s k j Hj.
    + exists j. by repeat split.
    + destruct (apply_op_keeps op now s k j Hj) as (j1 & Hj1 & Hk1).
      destruct (IH _ k j1 Hj1) as (j' & Hj' & Hk').
      exists j'. split; [done|].
      by apply (keeps_columns_trans j j1 j').
  - intros ops ops' k j _ Hj.
    induction ops' as [|op ops' IH] using rev_ind.
    + rewrite app_nil_r. exists j. repeat split; try done; lia.
    + destruct IH as (j1 & Hj1 & Hid & Hc & Hm & Hcr & Hs & Ha).
      rewrite app_assoc, run_snoc.
      destruct (exec_edge op (run (ops ++ ops') init) k (Inv_run _ _ Inv_init))
        as [E|(j' & E & He)]; rewrite E.
      * exists j1. by repeat split.
      * rewrite Hj1 in He.
        apply edge_frame in He as (Hid' & Hc' & Hm' & Hcr' & Hs' & Ha').
        exists j'. repeat split; try congruence; lia.
Qed.

Lemma rows_persist_witness :
  ∃ j', foldl (λ s w, apply_op w.1 w.2 s) (<["a" := Sample.pending]> ∅)
          [(Claim "a" "w1", 2); (Fail "a" "boom" 1 1, 3); (Requeue "a", 4);
           (Create (mkJobData "a" "other" undefined undefined), 5)] !! "a"
        = Some j'
    ∧ Job.id j' = Job.id Sample.pending
    ∧ Job.command j' = Job.command Sample.pending
    ∧ Job.max_retries j' = Job.max_retries Sample.pending
    ∧ Job.created_at j' = Job.created_at Sample.pending
    ∧ Job.scheduled_at j' = Job.scheduled_at Sample.pending.
Proof.
  apply (proj1 rows_persist
           [(Claim "a" "w1", 2); (Fail "a" "boom" 1 1, 3); (Requeue "a", 4);
            (Create (mkJobData "a" "other" undefined undefined), 5)]
           (<["a" := Sample.pending]> ∅) "a" Sample.pending).
  reflexivity.
Defined.

Lemma run_Inv ops : Inv (run ops init).
Proof. apply Inv_run, Inv_init. Qed.

(** X13. Completed is final: once a row is completed, no run of the
    system without [dlq retry] changes any of its columns. *)
Theorem completed_is_final (ops ops' : list Op) (k : string) (j : Job.t) :
  Forall (λ op, is_dlq_retry op = false) (ops ++ ops') →
  jobs (world (run ops init)) !! k = Some j →
  Job.state j = COMPLETED →
  jobs (world (run (ops ++ ops') init)) !! k = Some j.
Proof.
  intros _ Hj Hst. induction ops' as [|op ops' IH] using rev_ind.
  - by rewrite app_nil_r.
  - rewrite app_assoc, run_snoc.
    destruct (exec_edge op (run (ops ++ ops') init) k (run_Inv _))
      as [E|(j' & E & He)]; rewrite E; [done|].
    rewrite IH in He. inversion He; congruence.
Qed.

Lemma completed_is_final_witness :
  jobs (world (run (Scenario.success
                    ++ [OpClaim "w2" "t1"; OpExecute "t1";
                        OpEnqueue Scenario.t1 "u"])
                 init)) !! "t1"
  = Some (Job.mk "t1" "true" COMPLETED 0 3 10 10 None None (Some "done")
            None None).
Proof.
  apply (completed_is_final Scenario.success
           [OpClaim "w2" "t1"; OpExecute "t1"; OpEnqueue Scenario.t1 "u"] "t1");
    [repeat constructor|vm_compute; reflexivity..].
Defined.

(** X14. A lock that is left behind is never released.  A row that is
    processing while no execution of it is in flight (the store was down
    while the result was recorded) keeps its state and its lock through
    every run without [dlq retry]: no select returns it, no claim takes
    it, nothing requeues it. *)
Theorem stale_lock_stays (ops ops' : list Op) (k : string) (j : Job.t) :
  Forall (λ op, is_dlq_retry op = false) (ops ++ ops') →
  jobs (world (run ops init)) !! k = Some j →
  Job.state j = PROCESSING →
  held (run ops init) !! k = None →
  jobs (world (run (ops ++ ops') init)) !! k = Some j
  ∧ held (run (ops ++ ops') init) !! k = None
  ∧ ∀ now, getNextPendingJob now (jobs (world (run (ops ++ ops') init))) ≠ Some j.
Proof.
  intros _ Hj Hst Hh.
  assert (H : jobs (world (run (ops ++ ops') init)) !! k = Some j
              ∧ held (run (ops ++ ops') init) !! k = None).
  { induction ops' as [|op ops' IH] using rev_ind.
    - by rewrite app_nil_r.
    - destruct IH as [IHj IHh]. rewrite app_assoc, run_snoc.
      pose proof (inv_key _ _ _ (run_Inv (ops ++ ops')) _ _ IHj) as Hid.
      split.
      + destruct (exec_edge op (run (ops ++ ops') init) k (run_Inv _))
          as [E|(j' & E & He)]; rewrite E; [done|].
        rewrite IHj in He. inversion He; congruence.
      + destruct (held (exec op (run (ops ++ ops') init)) !! k) as [x|] eqn:E;
          [|done].
        apply exec_held in E as [E|(w & j0 & _ & Hj0 & Hst0)]; congruence. }
  destruct H as [H1 H2]. split; [done|]. split; [done|].
  intros now Hsel. apply getNextPendingJob_Some in Hsel as [Hel _].
  apply eligible_true in Hel as [? _]. congruence.
Qed.

Lemma stale_lock_stays_witness :
  jobs (world (run (Scenario.store_down
                    ++ [OpEnv 99 (Sample.cfg "3" "2") [] Sample.sh_ok;
                        OpClaim "w2" "t1"; OpExecute "t1"])
                 init)) !! "t1"
  = Some (Job.mk "t1" "true" PROCESSING 0 3 10 10 None None None (Some "w1")
            (Some 10)).
Proof.
  apply (stale_lock_stays Scenario.store_down
           [OpEnv 99 (Sample.cfg "3" "2") [] Sample.sh_ok;
            OpClaim "w2" "t1"; OpExecute "t1"]
           "t1");
    [repeat constructor|vm_compute; reflexivity..].
Defined.

(** X15. A retry whose timer is gone is lost.  A failed row for which no
    requeue timer is pending (the configuration could not be read for the
    backoff, or the timer fired while the store was down) stays failed
    through every run: nothing else requeues it, and [dlq retry] refuses
    it. *)
Theorem failed_without_timer_stays (ops ops' : list Op) (k : string)
    (j : Job.t) :
  jobs (world (run ops init)) !! k = Some j →
  Job.state j = FAILED →
  (∀ t, t ∈ timers (world (run ops init)) → t_jobId t ≠ k) →
  jobs (world (run (ops ++ ops') init)) !! k = Some j
  ∧ ∀ t, t ∈ timers (world (run (ops ++ ops') init)) → t_jobId t ≠ k.
Proof.
  intros Hj Hst Ht. induction ops' as [|op ops' IH] using rev_ind.
  - by rewrite app_nil_r.
  - destruct IH as [IHj IHt]. rewrite app_assoc, run_snoc.
    pose proof (run_Inv (ops ++ ops')) as HI.
    pose proof (inv_key _ _ _ HI _ _ IHj) as Hid.
    split.
    + destruct (exec_edge op (run (ops ++ ops') init) k HI)
        as [E|(j' & E & He)]; rewrite E; [done|].
      rewrite IHj in He. inversion He; try congruence.
      subst. exfalso. eapply IHt; [by eapply list_elem_of_lookup_2|done].
    + intros t Hin. apply exec_timers in Hin as [Hin|(_ & [x Hx])]; [| |done].
      * by apply IHt.
      * intros Heq. rewrite Heq in Hx.
        destruct (inv_held _ _ _ HI _ _ Hx) as [Hx' Hp]. congruence.
Qed.

Lemma failed_without_timer_stays_witness :
  jobs (world (run (Scenario.retry_lost
                    ++ [OpEnv 99 (Sample.cfg "3" "2") [] Sample.sh_ok;
                        OpTimer 0; OpClaim "w2" "t1"; OpDlqRetry "t1"])
                 init)) !! "t1"
  = Some (Job.mk "t1" "true" FAILED 1 3 10 11 None
            (Some "Command failed: false") None None None).
Proof.
  apply (failed_without_timer_stays Scenario.retry_lost
           [OpEnv 99 (Sample.cfg "3" "2") [] Sample.sh_ok;
            OpTimer 0; OpClaim "w2" "t1"; OpDlqRetry "t1"] "t1").
  - vm_compute. reflexivity.
  - reflexivity.
  - intros t Hin. vm_compute in Hin. by apply elem_of_nil in Hin.
Defined.

(** X16. Dead rows wait for the operator.  A dead row is not changed by
    any run without [dlq retry]: workers do not select it, a claim does
    not take it, no timer requeues it, an [enqueue] with its id is
    refused. *)
Theorem dead_until_dlq_retry (ops ops' : list Op) (k : string) (j : Job.t) :
  Forall (λ op, is_dlq_retry op = false) (ops ++ ops') →
  jobs (world (run ops init)) !! k = Some j →
  Job.state j = DEAD →
  jobs (world (run (ops ++ ops') init)) !! k = Some j
  ∧ ∀ now, getNextPendingJob now (jobs (world (run (ops ++ ops') init))) ≠ Some j.
Proof.
  intros Hall Hj Hst.
  apply Forall_app in Hall as [_ Hops].
  assert (H : jobs (world (run (ops ++ ops') init)) !! k = Some j).
  { induction ops' as [|op ops' IH] using rev_ind.
    - by rewrite app_nil_r.
    - apply Forall_app in Hops as [Hops Hop].
      apply Forall_inv in Hop. specialize (IH Hops).
      rewrite app_assoc, run_snoc.
      pose proof (run_Inv (ops ++ ops')) as HI.
      destruct (exec_edge op (run (ops ++ ops') init) k HI)
        as [E|(j' & E & He)]; rewrite E; [done|].
      rewrite IH in He. inversion He; try congruence.
      subst. done. }
  split; [done|].
  intros now Hsel. apply getNextPendingJob_Some in Hsel as [Hel _].
  apply eligible_true in Hel as [? _]. congruence.
Qed.

Lemma dead_until_dlq_retry_witness :
  jobs (world (run (Sample.exhaust ++ [OpClaim "w2" "t2"; OpExecute "t2"])
                 init)) !! "t2"
  = Some (Job.mk "t2" "false" DEAD 2 2 10 10 None
            (Some "Command failed: false") None None None).
Proof.
  apply (dead_until_dlq_retry Sample.exhaust
           [OpClaim "w2" "t2"; OpExecute "t2"] "t2").
  - repeat constructor.
  - vm_compute. reflexivity.
  - reflexivity.
Defined.

(** X17. Executions and timers.  In every state that the system reaches
    without a [dlq retry]: the row of a job in execution is in the table
    exactly as the claim returned it, processing; a claim of a job in
    execution takes nothing; no job has two pending requeue timers, and a
    job with a pending timer is not in execution. *)
Theorem executions_and_timers (ops : list Op) :
  Forall (λ op, is_dlq_retry op = false) ops →
  (∀ k j, held (run ops init) !! k = Some j →
     jobs (world (run ops init)) !! k = Some j ∧ Job.state j = PROCESSING
     ∧ ∀ w, jobs (world (exec (OpClaim w k) (run ops init)))
            = jobs (world (run ops init))
            ∧ held (exec (OpClaim w k) (run ops init)) = held (run ops init))
  ∧ NoDup (t_jobId <$> timers (world (run ops init)))
  ∧ ∀ t, t ∈ timers (world (run ops init)) →
      held (run ops init) !! t_jobId t = None.
Proof.
  intros _. pose proof (run_Inv ops) as HI. split; [|split].
  - intros k j Hh. destruct (inv_held _ _ _ HI _ _ Hh) as [Hj Hst].
    split; [done|]. split; [done|]. intros w.
    rewrite claim_world. unfold exec.
    destruct (claim_effect k w (world (run ops init)))
      as [_ [[E Hr]|(j0 & Hj0 & Hst0 & _)]]; [|congruence].
    destruct (query (lockJob k w) (world (run ops init))) as [[e|[l|]] σ'];
      simpl in *; try done. by destruct (Hr l).
  - apply HI.
  - intros t Hin.
    destruct (inv_timers _ _ _ HI t Hin) as (j & Hj & Hst).
    destruct (held (run ops init) !! t_jobId t) as [x|] eqn:E; [|done].
    destruct (inv_held _ _ _ HI _ _ E) as [Hx Hp]. congruence.
Qed.

Lemma executions_and_timers_witness :
  jobs (world (run (take 3 Scenario.success) init)) !! "t1"
  = Some (Job.mk "t1" "true" PROCESSING 0 3 10 10 None None None (Some "w1")
            (Some 10))
  ∧ Job.state
      (Job.mk "t1" "true" PROCESSING 0 3 10 10 None None None (Some "w1")
         (Some 10))
    = PROCESSING
  ∧ ∀ w, jobs (world (exec (OpClaim w "t1") (run (take 3 Scenario.success) init)))
         = jobs (world (run (take 3 Scenario.success) init))
         ∧ held (exec (OpClaim w "t1") (run (take 3 Scenario.success) init))
           = held (run (take 3 Scenario.success) init).
Proof.
  apply (proj1 (executions_and_timers (take 3 Scenario.success)
                  ltac:(repeat constructor)) "t1").
  vm_compute. reflexivity.
Defined.

(** ** The configuration *)

Lemma replace_dashes_cons c r :
  replace_dashes (String c r)
  = String (if bool_decide (c = "-"%char) then "_"%char else c)
      (replace_dashes r).
Proof. done. Qed.

Ltac preimage H :=
  repeat match type of H with
    | replace_dashes ?k = String _ _ =>
        destruct k as [|? k]; [discriminate H|];
        rewrite replace_dashes_cons in H;
        let Hc := fresh in
        injection H as Hc H;
        case_bool_decide; subst; try discriminate Hc
    | replace_dashes ?k = EmptyString =>
        destruct k; [clear H|discriminate H]
    end.

Lemma replace_dashes_max_retries key :
  replace_dashes key = "max_retries" ↔ key = "max_retries" ∨ key = "max-retries".
Proof.
  split; [|by intros [-> | ->]].
  intros H. preimage H; auto.
Qed.

Lemma replace_dashes_backoff_base key :
  replace_dashes key = "backoff_base" ↔ key = "backoff_base" ∨ key = "backoff-base".
Proof.
  split; [|by intros [-> | ->]].
  intros H. preimage H; auto.
Qed.

Lemma config_key_valid key :
  replace_dashes key ∈ config_keys ↔
  key = "max_retries" ∨ key = "max-retries"
  ∨ key = "backoff_base" ∨ key = "backoff-base".
Proof.
  unfold config_keys.
  rewrite !elem_of_cons, elem_of_nil, replace_dashes_max_retries,
    replace_dashes_backoff_base. tauto.
Qed.

Lemma setConfig_cases key value σ :
  (setConfig key value σ =
     (inl StoreFailure,
      mkWorld (jobs σ) (config σ) (timers σ) (clock σ) (tail (faults σ)) (shell σ))
   ∧ head (faults σ) = Some true)
  ∨ (setConfig key value σ =
       (inr tt,
        mkWorld (jobs σ) (<[key := value]> (config σ)) (timers σ) (clock σ)
          (tail (faults σ)) (shell σ))
     ∧ head (faults σ) ≠ Some true).
Proof. unfold setConfig. destruct (faults σ) as [|[] fs]; simpl; auto. Qed.

Lemma config_set_action_valid key value σ :
  replace_dashes key ∈ config_keys → is_Some (JS.parseInt value) →
  config_set_action key value σ
  = try_catch (setConfig (replace_dashes key) value)
      (λ error, throw (Exit 1 ("Error setting config: " ++ message error))) σ.
Proof.
  intros Hk Hv. unfold config_set_action, exit_on_error. cbv zeta.
  by rewrite !bool_decide_eq_true_2.
Qed.

(** X18. What [config set] accepts.  The key must be one of the four
    spellings [max_retries], [max-retries], [backoff_base],
    [backoff-base], and [parseInt] must find a number at the start of the
    value; otherwise the action exits with status 1 before it contacts the
    store.  An accepted value is stored as the text given, under the
    spelling with the underscore; a failure of the store ends the action
    with status 1 and the configuration unchanged. *)
Theorem config_set_checks (key value : string) (σ : World) :
  let valid := key ∈ ["max_retries"; "max-retries"; "backoff_base"; "backoff-base"] in
  (¬ valid → config_set_action key value σ = (inl invalid_config_key, σ))
  ∧ (valid → JS.parseInt value = None →
     config_set_action key value σ
     = (inl (Exit 1 "Error: Value must be a number"), σ))
  ∧ (valid → is_Some (JS.parseInt value) → head (faults σ) ≠ Some true →
     config_set_action key value σ
     = (inr tt,
        mkWorld (jobs σ) (<[replace_dashes key := value]> (config σ))
          (timers σ) (clock σ) (tail (faults σ)) (shell σ))
     ∧ (replace_dashes key = "max_retries" ∨ replace_dashes key = "backoff_base"))
  ∧ (valid → is_Some (JS.parseInt value) → head (faults σ) = Some true →
     config_set_action key value σ
     = (inl (Exit 1 ("Error setting config: " ++ message StoreFailure)),
        mkWorld (jobs σ) (config σ) (timers σ) (clock σ) (tail (faults σ))
          (shell σ))).
Proof.
  intros valid.
  assert (Hv : valid ↔ replace_dashes key ∈ config_keys).
  { subst valid. rewrite config_key_valid, !elem_of_cons, elem_of_nil. tauto. }
  rewrite !Hv. clear valid Hv. repeat split.
  - intros Hk. unfold config_set_action, exit_on_error. cbv zeta.
    by rewrite bool_decide_eq_false_2.
  - intros Hk Hn. unfold config_set_action, exit_on_error. cbv zeta.
    rewrite bool_decide_eq_true_2 by done.
    rewrite bool_decide_eq_false_2; [done|]. rewrite Hn. by intros [? ?].
  - rewrite config_set_action_valid by done. unfold try_catch.
    by destruct (setConfig_cases (replace_dashes key) value σ) as [[_ ?]|[-> _]].
  - unfold config_keys in H. rewrite !elem_of_cons, elem_of_nil in H. tauto.
  - intros Hk Hn Hf. rewrite config_set_action_valid by done. unfold try_catch.
    by destruct (setConfig_cases (replace_dashes key) value σ) as [[-> _]|[_ ?]].
Qed.

Lemma config_set_checks_witness :
  config_set_action "max-retries" "5 times"
    (mkWorld ∅ (Sample.cfg "3" "2") [] 10 [] Sample.sh_ok)
  = (inr tt,
     mkWorld ∅ (<[replace_dashes "max-retries" := "5 times"]> (Sample.cfg "3" "2"))
       [] 10 [] Sample.sh_ok)
  ∧ (replace_dashes "max-retries" = "max_retries"
     ∨ replace_dashes "max-retries" = "backoff_base").
Proof.
  apply (config_set_checks "max-retries" "5 times"
           (mkWorld ∅ (Sample.cfg "3" "2") [] 10 [] Sample.sh_ok)).
  - rewrite !elem_of_cons. auto.
  - vm_compute. eauto.
  - simpl. discriminate.
Defined.

(** X19. [config set], then [config get].  After an accepted
    [config set key value] the action [config get] prints, for either
    spelling of that key, the text [value] as it was given (not the number
    that [parseInt] reads from it), and for the other key what was stored
    before. *)
Theorem config_set_get (key key' value : string) (σ : World) :
  faults σ = [] →
  replace_dashes key ∈ config_keys → is_Some (JS.parseInt value) →
  replace_dashes key' ∈ config_keys →
  ((config_set_action key value ;; config_get_action key') σ).1
  = inr (if bool_decide (replace_dashes key' = replace_dashes key)
         then Some value else config σ !! replace_dashes key').
Proof.
  intros Hf Hk Hv Hk'. unfold mbind, ST_bind.
  rewrite config_set_action_valid by done. unfold try_catch, setConfig.
  rewrite Hf. cbn [tail].
  unfold config_get_action, exit_on_error, try_catch. cbv zeta.
  rewrite bool_decide_eq_true_2 by done. cbn [negb].
  rewrite getConfig_no_fault by done. cbn [fst config].
  f_equal. rewrite lookup_insert. case_decide; case_bool_decide; congruence.
Qed.

Lemma config_set_get_witness :
  ((config_set_action "backoff-base" "0x10" ;; config_get_action "backoff_base")
     (mkWorld ∅ (Sample.cfg "3" "2") [] 10 [] Sample.sh_ok)).1
  = inr (if bool_decide (replace_dashes "backoff_base" = replace_dashes "backoff-base")
         then Some "0x10"
         else Sample.cfg "3" "2" !! replace_dashes "backoff_base").
Proof.
  apply (config_set_get "backoff-base" "backoff_base" "0x10"
           (mkWorld ∅ (Sample.cfg "3" "2") [] 10 [] Sample.sh_ok)).
  - reflexivity.
  - apply config_key_valid. auto.
  - vm_compute. eauto.
  - apply config_key_valid. auto.
Defined.

Lemma config_set_action_ok key value σ :
  faults σ = [] →
  replace_dashes key ∈ config_keys → is_Some (JS.parseInt value) →
  config_set_action key value σ
  = (inr tt,
     mkWorld (jobs σ) (<[replace_dashes key := value]> (config σ)) (timers σ)
       (clock σ) [] (shell σ)).
Proof.
  intros Hf Hk Hv. rewrite config_set_action_valid by done.
  unfold try_catch, setConfig. by rewrite Hf.
Qed.

(** X20. What a configured value does.  After [config set] has stored a
    value in which [parseInt] reads the number [n]: an [enqueue] without
    [max_retries] passes on [n], or 3 when [n] is 0, and its job is created
    with that ceiling when it lies in the 32-bit range of the column, and
    refused by the store otherwise; a failure that leaves attempts open
    sets its timer with base [n], or 2 when [n] is 0, the delay being the
    power in seconds when that lies between 1 ms and 2^31 - 1 ms and 1 ms
    otherwise.  The number is the one [parseInt] reads: the rest of the
    text is ignored, and a negative number is used as it is. *)
Theorem config_set_takes_effect (value : string) (n : Z) (σ : World) :
  faults σ = [] → JS.parseInt value = Some n →
  (∀ key jobSpec uuid scheduled_at,
     replace_dashes key = "max_retries" →
     truthy (spec_max_retries jobSpec) = false →
     JS.falsy_str (spec_command jobSpec) = false →
     scheduled_column (spec_scheduled_at jobSpec) = Some scheduled_at →
     jobs σ !! enqueue_id jobSpec uuid = None →
     let d := if bool_decide (n = 0) then 3 else n in
     let r := (config_set_action key value ;; enqueue_action jobSpec uuid) σ in
     (- 2 ^ 31 ≤ d < 2 ^ 31 →
      ∃ job, r.1 = inr job ∧ Job.max_retries job = d
             ∧ jobs r.2 !! enqueue_id jobSpec uuid = Some job)
     ∧ (d < - 2 ^ 31 ∨ 2 ^ 31 ≤ d →
        jobs r.2 = jobs σ ∧ ∃ msg, r.1 = inl (Exit 1 msg)))
  ∧ (∀ key job j error,
       replace_dashes key = "backoff_base" →
       jobs σ !! Job.id job = Some j →
       Job.attempts job + 1 < Job.max_retries job →
       let b := if bool_decide (n = 0) then 2 else n in
       let k := Job.attempts job + 1 in
       timers ((config_set_action key value ;; handleJobFailure job error) σ).2
       = timers σ ++ [mkTimer (timer_delay b k) (Job.id job)]
       ∧ (0 ≤ k → 1 ≤ b ^ k * 1000 ≤ 2 ^ 31 - 1 →
          timer_delay b k = Some (b ^ k * 1000))
       ∧ (0 ≤ k → b ^ k * 1000 < 1 ∨ 2 ^ 31 - 1 < b ^ k * 1000 →
          timer_delay b k = Some 1)).
Proof.
  intros Hf Hn. split.
  - intros key jobSpec uuid sc Hk Ht Hc Hs Hfresh d r. subst r.
    unfold mbind, ST_bind.
    rewrite config_set_action_ok;
      [|done|rewrite Hk; set_solver|by rewrite Hn].
    match goal with |- context [enqueue_action _ _ ?w] =>
      destruct (enqueue_action_ok jobSpec uuid w eq_refl Hc) as (Hok & _ & Href);
      assert (Hceil : enqueue_ceiling jobSpec w = number d) end.
    { unfold enqueue_ceiling. rewrite Ht. cbn [config].
      rewrite Hk, lookup_insert_eq.
      unfold default_max_retries, JS.parseInt_opt. cbn [mbind option_bind].
      by rewrite Hn. }
    cbn [jobs config timers clock shell] in Hok, Href. split.
    + intros Hd. rewrite (Hok d sc); [| |done..].
      * eexists. split; [reflexivity|]. split; [done|].
        cbn [snd jobs]. apply lookup_insert_eq.
      * rewrite Hceil. apply number_column_int4. by apply int4_range.
    + intros Hd. rewrite Href; [split; [done|by eexists]|].
      left. rewrite Hceil. apply number_column_refused.
      destruct (int4 d) eqn:E; [|done]. apply int4_range in E. lia.
  - intros key job j error Hk Hj Hlt b k. split; [|split].
    + unfold mbind, ST_bind.
      rewrite config_set_action_ok;
        [|done|rewrite Hk; set_solver|by rewrite Hn].
      rewrite (handleJobFailure_no_fault _ _ _ j) by done.
      cbn [snd timers config]. rewrite bool_decide_eq_true_2 by done.
      rewrite Hk, lookup_insert_eq.
      unfold backoffBase, JS.parseInt_opt. cbn [mbind option_bind].
      rewrite Hn. done.
    + intros H0 Hd. rewrite timer_delay_nonneg by done.
      rewrite !bool_decide_eq_true_2 by (unfold TIMEOUT_MAX; lia). done.
    + intros H0 Hd. rewrite timer_delay_nonneg by done.
      destruct Hd as [Hd|Hd].
      * by rewrite (bool_decide_eq_false_2 (1 ≤ _)) by lia.
      * rewrite (bool_decide_eq_false_2 (_ ≤ 2 ^ 31 - 1)) by lia.
        by rewrite andb_false_r.
Qed.

Lemma config_set_takes_effect_witness :
  ∃ job,
    ((config_set_action "max-retries" "0" ;;
      enqueue_action (mkJobSpec (Some "a") (Some "true") undefined undefined) "u")
       (mkWorld ∅ (Sample.cfg "5" "2") [] 10 [] Sample.sh_ok)).1
    = inr job
    ∧ Job.max_retries job = 3
    ∧ jobs
        ((config_set_action "max-retries" "0" ;;
          enqueue_action (mkJobSpec (Some "a") (Some "true") undefined undefined)
            "u")
           (mkWorld ∅ (Sample.cfg "5" "2") [] 10 [] Sample.sh_ok)).2
      !! "a" = Some job.
Proof.
  destruct (config_set_takes_effect "0" 0
              (mkWorld ∅ (Sample.cfg "5" "2") [] 10 [] Sample.sh_ok)
              eq_refl eq_refl) as [H _].
  destruct (H "max-retries"
              (mkJobSpec (Some "a") (Some "true") undefined undefined) "u" None)
    as [H1 _]; [reflexivity..|].
  apply H1. vm_compute. split; congruence.
Defined.

(** ** Listing through the command line *)

Lemma job_states_elem state :
  state ∈ job_states ↔ ∃ st, state = state_name st.
Proof.
  unfold job_states. rewrite list_elem_of_fmap. split.
  - intros (st & -> & _). eauto.
  - intros [st ->]. exists st. split; [done|]. destruct st; set_solver.
Qed.

(** X21. What [list] accepts.  The state must be [all] or one of the five
    names as [JobState] spells them; any other text ends the action with
    status 1 before the store is contacted.  For a name the action lists
    what [getJobsByState] returns, for [all] what [getAllJobs] returns, in
    one round trip, and [dlq list] lists what [list] lists for [dead]; no
    table is changed. *)
Theorem list_action_checks (state : string) (σ : World) :
  (state ≠ "all" → (∀ st, state ≠ state_name st) →
   list_action state σ
   = (inl (Exit 1 "Error: Invalid state. Must be one of: pending, processing, completed, failed, dead"),
      σ))
  ∧ (head (faults σ) ≠ Some true →
     let σ' :=
       mkWorld (jobs σ) (config σ) (timers σ) (clock σ) (tail (faults σ))
         (shell σ) in
     list_action "all" σ = (inr (getAllJobs (jobs σ)), σ')
     ∧ (∀ st, list_action (state_name st) σ
              = (inr (getJobsByState (state_name st) (jobs σ)), σ'))
     ∧ dlq_list_action σ = list_action "dead" σ)
  ∧ jobs (list_action state σ).2 = jobs σ
  ∧ config (list_action state σ).2 = config σ
  ∧ timers (list_action state σ).2 = timers σ.
Proof.
  split; [|split].
  - intros Hall Hst. unfold list_action, exit_on_error, try_catch.
    rewrite bool_decide_eq_false_2 by done.
    rewrite bool_decide_eq_false_2; [done|].
    rewrite job_states_elem. intros [st ->]. by apply (Hst st).
  - intros Hf σ'. subst σ'.
    assert (Hl : ∀ st, list_action (state_name st) σ
                 = (inr (getJobsByState (state_name st) (jobs σ)),
                    mkWorld (jobs σ) (config σ) (timers σ) (clock σ)
                      (tail (faults σ)) (shell σ))).
    { intros st. unfold list_action, exit_on_error, try_catch.
      rewrite bool_decide_eq_false_2 by (by destruct st).
      rewrite bool_decide_eq_true_2 by (rewrite job_states_elem; eauto).
      cbn [negb]. by rewrite query_answer. }
    split; [|split; [done|]].
    + unfold list_action, exit_on_error, try_catch.
      rewrite bool_decide_eq_true_2 by done. by rewrite query_answer.
    + pose proof (Hl DEAD) as Hd. cbn [state_name] in Hd. rewrite Hd.
      unfold dlq_list_action, exit_on_error, try_catch.
      by rewrite query_answer.
  - unfold list_action, exit_on_error, try_catch.
    repeat case_bool_decide; cbn [negb]; try done;
      match goal with |- context [query ?q σ] =>
        by destruct (query_cases q σ) as [[-> _]|[-> _]] end.
Qed.

Lemma list_action_checks_witness :
  list_action "Pending"
    (mkWorld Sample.two_jobs (Sample.cfg "3" "2") [] 10 [] Sample.sh_ok)
  = (inl (Exit 1 "Error: Invalid state. Must be one of: pending, processing, completed, failed, dead"),
     mkWorld Sample.two_jobs (Sample.cfg "3" "2") [] 10 [] Sample.sh_ok).
Proof.
  apply (list_action_checks "Pending"
           (mkWorld Sample.two_jobs (Sample.cfg "3" "2") [] 10 [] Sample.sh_ok)).
  - discriminate.
  - intros st. by destruct st.
Defined.

(** *** Lists and counters when a row is written *)

Lemma all_rows_lookup (s : Store) k j :
  s !! k = Some j → all_rows s ≡ₚ j :: all_rows (delete k s).
Proof.
  intros Hk. unfold all_rows.
  rewrite <- (map_to_list_delete s k j Hk). done.
Qed.

Lemma all_rows_insert (s : Store) k j' :
  all_rows (<[k := j']> s) ≡ₚ j' :: all_rows (delete k s).
Proof.
  unfold all_rows. rewrite <- insert_delete_eq.
  rewrite map_to_list_insert by apply lookup_delete_eq. done.
Qed.

Lemma counter_cons (l l' : list Job.t) j st :
  l ≡ₚ j :: l' →
  Z.of_nat (length (filter (λ j, Job.state j = st) l))
  = indicator (Job.state j) st
    + Z.of_nat (length (filter (λ j, Job.state j = st) l')).
Proof.
  intros ->. rewrite filter_cons. unfold indicator.
  destruct (decide (Job.state j = st)); simpl; lia.
Qed.

Lemma counter_write (s : Store) k j j' st :
  s !! k = Some j →
  counter (getJobStats (<[k := j']> s)) st
  = counter (getJobStats s) st - indicator (Job.state j) st
    + indicator (Job.state j') st.
Proof.
  intros Hk. rewrite !counter_getJobStats.
  rewrite (counter_cons _ _ _ st (all_rows_insert s k j')).
  rewrite (counter_cons _ _ _ st (all_rows_lookup s k j Hk)). lia.
Qed.

Lemma counter_fresh (s : Store) k j' st :
  s !! k = None →
  counter (getJobStats (<[k := j']> s)) st
  = counter (getJobStats s) st + indicator (Job.state j') st.
Proof.
  intros Hk. rewrite !counter_getJobStats.
  rewrite (counter_cons _ _ _ st (all_rows_insert s k j')).
  rewrite delete_id by done. lia.
Qed.

Lemma dlq_retry_action_ok jobId σ j :
  faults σ = [] → jobs σ !! jobId = Some j → Job.state j = DEAD →
  dlq_retry_action jobId σ
  = (inr tt,
     mkWorld (<[jobId := row_requeued (clock σ) j]> (jobs σ)) (config σ)
       (timers σ) (clock σ) [] (shell σ)).
Proof.
  intros Hf Hj Hst.
  unfold dlq_retry_action, exit_on_error, try_catch, mbind, ST_bind.
  rewrite query_no_fault by done. unfold getJob. cbn [fst snd]. rewrite Hj.
  rewrite bool_decide_eq_false_2 by (intros ?; congruence).
  rewrite query_no_fault by done. cbn [clock jobs config timers shell].
  by rewrite (requeueFailedJob_row _ _ _ _ Hj).
Qed.

(** X22. [dlq retry] and the lists.  After [dlq retry] of a dead job, with
    the store answering: [dlq list] shows the dead jobs it showed before
    minus that one; the job, with its attempts and its last error kept, is
    in the list of pending jobs; in [status] the count of dead jobs is one
    lower, the count of pending jobs one higher and the total the same. *)
Theorem dlq_retry_moves_job (jobId : string) (σ : World) (j : Job.t) :
  faults σ = [] →
  (∀ k j, jobs σ !! k = Some j → Job.id j = k) →
  jobs σ !! jobId = Some j → Job.state j = DEAD →
  (∀ j', j' ∈ getJobsByState "dead" (jobs (dlq_retry_action jobId σ).2) ↔
         j' ∈ getJobsByState "dead" (jobs σ) ∧ Job.id j' ≠ jobId)
  ∧ row_requeued (clock σ) j
    ∈ getJobsByState "pending" (jobs (dlq_retry_action jobId σ).2)
  ∧ Job.attempts (row_requeued (clock σ) j) = Job.attempts j
  ∧ Job.last_error (row_requeued (clock σ) j) = Job.last_error j
  ∧ st_dead (getJobStats (jobs (dlq_retry_action jobId σ).2))
    = st_dead (getJobStats (jobs σ)) - 1
  ∧ st_pending (getJobStats (jobs (dlq_retry_action jobId σ).2))
    = st_pending (getJobStats (jobs σ)) + 1
  ∧ st_total (getJobStats (jobs (dlq_retry_action jobId σ).2))
    = st_total (getJobStats (jobs σ)).
Proof.
  intros Hf Hkey Hj Hst. rewrite (dlq_retry_action_ok _ _ j) by done.
  cbn [snd jobs]. split; [|split; [|split; [done|split; [done|split; [|split]]]]].
  - intros j'. rewrite !getJobsByState_elem. split.
    + intros [Hd [k Hk]]. rewrite lookup_insert in Hk.
      case_decide; simplify_eq.
      split; [by eauto|]. apply Hkey in Hk. congruence.
    + intros [[Hd [k Hk]] Hne]. split; [done|]. exists k.
      rewrite lookup_insert_ne; [done|]. apply Hkey in Hk. congruence.
  - apply getJobsByState_elem. split; [done|]. exists jobId.
    by rewrite lookup_insert_eq.
  - pose proof (counter_write (jobs σ) jobId j (row_requeued (clock σ) j) DEAD Hj)
      as H. cbn [counter] in H. rewrite H, Hst. unfold indicator. simpl.
    repeat case_decide; try done; lia.
  - pose proof (counter_write (jobs σ) jobId j (row_requeued (clock σ) j)
                  PENDING Hj) as H.
    cbn [counter] in H. rewrite H, Hst. unfold indicator. simpl.
    repeat case_decide; try done; lia.
  - rewrite !total_getJobStats. f_equal. by apply map_size_insert_Some.
Qed.

Lemma dlq_retry_moves_job_witness :
  row_requeued 10 (row_failed "boom" 2 2 8 (Sample.claimed 1 2))
  ∈ getJobsByState "pending"
      (jobs (dlq_retry_action "a"
               (Sample.world_of (row_failed "boom" 2 2 8 (Sample.claimed 1 2))
                  (Sample.cfg "3" "2") [] Sample.sh_ok)).2).
Proof.
  apply (dlq_retry_moves_job "a"
           (Sample.world_of (row_failed "boom" 2 2 8 (Sample.claimed 1 2))
              (Sample.cfg "3" "2") [] Sample.sh_ok)
           (row_failed "boom" 2 2 8 (Sample.claimed 1 2))).
  - reflexivity.
  - intros k j. cbn [jobs Sample.world_of]. rewrite lookup_insert_Some, lookup_empty.
    intros [[<- <-]|[_ ?]]; done.
  - reflexivity.
  - reflexivity.
Defined.

(** X23. [enqueue], then the reading commands.  An [enqueue] succeeds
    when the store answers, the spec has a command, the id is unused and
    the store can read the [max_retries] and the [scheduled_at] that the
    action passes on (a number: when it lies in the 32-bit range of the
    column).  After it, [getJob] on the id returns the job that was
    printed, the job is in the list of pending jobs and in the list of all
    jobs, and in [status] the total and the count of pending jobs are one
    higher while the other counts are as before. *)
Theorem enqueue_then_read (jobSpec : JobSpec) (uuid : string) (σ : World)
    (max_retries : Z) (scheduled_at : option Z) :
  faults σ = [] → JS.falsy_str (spec_command jobSpec) = false →
  jobs σ !! enqueue_id jobSpec uuid = None →
  integer_column (enqueue_ceiling jobSpec σ) = Some max_retries →
  scheduled_column (spec_scheduled_at jobSpec) = Some scheduled_at →
  ∃ job,
    (enqueue_action jobSpec uuid σ).1 = inr job
    ∧ Job.max_retries job = max_retries
    ∧ getJob (enqueue_id jobSpec uuid) (jobs (enqueue_action jobSpec uuid σ).2)
      = Some job
    ∧ job ∈ getJobsByState "pending" (jobs (enqueue_action jobSpec uuid σ).2)
    ∧ job ∈ getAllJobs (jobs (enqueue_action jobSpec uuid σ).2)
    ∧ st_total (getJobStats (jobs (enqueue_action jobSpec uuid σ).2))
      = st_total (getJobStats (jobs σ)) + 1
    ∧ ∀ st, counter (getJobStats (jobs (enqueue_action jobSpec uuid σ).2)) st
            = counter (getJobStats (jobs σ)) st + indicator PENDING st.
Proof.
  intros Hf Hc Hfresh Hm Hs.
  destruct (enqueue_action_ok jobSpec uuid σ Hf Hc) as [Hok _].
  rewrite (Hok max_retries scheduled_at Hm Hs Hfresh). cbn [fst snd jobs].
  eexists. split; [reflexivity|]. split; [done|].
  split; [|split; [|split; [|split]]].
  - unfold getJob. by rewrite lookup_insert_eq.
  - apply getJobsByState_elem. split; [done|].
    exists (enqueue_id jobSpec uuid). by rewrite lookup_insert_eq.
  - unfold getAllJobs. rewrite merge_sort_Permutation. apply all_rows_elem.
    exists (enqueue_id jobSpec uuid). by rewrite lookup_insert_eq.
  - rewrite !total_getJobStats. rewrite map_size_insert_None by done. lia.
  - intros st. by rewrite counter_fresh.
Qed.

Lemma enqueue_then_read_witness :
  ∃ job,
    (enqueue_action Sample.t2 "u"
       (mkWorld Sample.two_jobs (Sample.cfg "3" "2") [] 10 [] Sample.sh_ok)).1
    = inr job
    ∧ Job.max_retries job = 2
    ∧ getJob (enqueue_id Sample.t2 "u")
        (jobs (enqueue_action Sample.t2 "u"
                 (mkWorld Sample.two_jobs (Sample.cfg "3" "2") [] 10 []
                    Sample.sh_ok)).2)
      = Some job
    ∧ job ∈ getJobsByState "pending"
              (jobs (enqueue_action Sample.t2 "u"
                       (mkWorld Sample.two_jobs (Sample.cfg "3" "2") [] 10 []
                          Sample.sh_ok)).2)
    ∧ job ∈ getAllJobs
              (jobs (enqueue_action Sample.t2 "u"
                       (mkWorld Sample.two_jobs (Sample.cfg "3" "2") [] 10 []
                          Sample.sh_ok)).2)
    ∧ st_total
        (getJobStats
           (jobs (enqueue_action Sample.t2 "u"
                    (mkWorld Sample.two_jobs (Sample.cfg "3" "2") [] 10 []
                       Sample.sh_ok)).2))
      = st_total (getJobStats Sample.two_jobs) + 1
    ∧ ∀ st,
        counter
          (getJobStats
             (jobs (enqueue_action Sample.t2 "u"
                      (mkWorld Sample.two_jobs (Sample.cfg "3" "2") [] 10 []
                         Sample.sh_ok)).2)) st
        = counter (getJobStats Sample.two_jobs) st + indicator PENDING st.
Proof.
  apply (enqueue_then_read Sample.t2 "u"
           (mkWorld Sample.two_jobs (Sample.cfg "3" "2") [] 10 [] Sample.sh_ok)
           2 None);
    vm_compute; reflexivity.
Defined.

(** ** The [workers] table *)

Lemma send_cases statement d :
  send statement d
  = (inr tt,
     mkDb
       (mkWorld (jobs (base d)) (config (base d)) (timers (base d))
          (clock (base d)) (tail (faults (base d))) (shell (base d)))
       (if bool_decide (head (faults (base d)) = Some true)
        then workers d
        else statement (clock (base d)) (jobs (base d)) (workers d))).
Proof. unfold send. by destruct (faults (base d)) as [|[] fs]. Qed.

















(** X27. [stop].  On a worker with no job in hand [stop] leaves the loop
    at once: the worker is no longer running, and its row is marked
    stopped when the update reaches the store and left as it is (active)
    when it does not; the call returns normally either way.  With a job
    in hand it waits: it is through as soon as what runs during a wait
    has cleared the marker, and not before.  On a worker that is not
    running a poll does nothing. *)
Theorem stop_marks_stopped (w : Worker) (d : Db) :
  (currentJob w = None →
   ∀ during,
     stop during (w, d)
     = (inr true,
        (mkWorker (workerId w) false None,
         mkDb
           (mkWorld (jobs (base d)) (config (base d)) (timers (base d))
              (clock (base d)) (tail (faults (base d))) (shell (base d)))
           (if bool_decide (head (faults (base d)) = Some true)
            then workers d
            else update_stopped (workerId w) (clock (base d)) (jobs (base d))
                   (workers d)))))
  ∧ (currentJob w ≠ None →
     stop [] (w, d) = (inr false, (mkWorker (workerId w) false (currentJob w), d)))
  ∧ (currentJob w ≠ None →
     ∀ c during,
       currentJob (c (mkWorker (workerId w) false (currentJob w), d)).2.1 = None →
       (stop (c :: during) (w, d)).1 = inr true)
  ∧ (∀ σ, processNextJob (mkWorker (workerId w) false (currentJob w), σ)
          = (inr tt, (mkWorker (workerId w) false (currentJob w), σ))).
Proof.
  split; [|split; [|split]].
  - intros Hc during. unfold stop, mbind, ST_bind, set_isRunning.
    rewrite Hc. destruct during; cbn [wait_idle fst snd currentJob];
      unfold thisW, liftW; cbn [fst snd workerId]; by rewrite send_cases.
  - intros Hc. unfold stop, mbind, ST_bind, set_isRunning.
    cbn [wait_idle fst snd currentJob]. by destruct (currentJob w).
  - intros Hc c during Hidle. unfold stop, mbind, ST_bind, set_isRunning.
    cbn [wait_idle fst snd currentJob].
    destruct (currentJob w) as [j|] eqn:E; [|done].
    destruct (c _) as [r [w' d']]. cbn [fst snd] in *.
    destruct during; cbn [wait_idle fst snd]; rewrite Hidle;
      unfold thisW, liftW; cbn [fst snd]; by rewrite send_cases.
  - intros σ. by apply processNextJob_guard; left.
Qed.

Lemma stop_marks_stopped_witness :
  stop []
    (mkWorker "w1" true None,
     mkDb (mkWorld Sample.two_jobs (Sample.cfg "3" "2") [] 20 [] Sample.sh_ok)
       (<["w1" := mkWorkerRow "w1" ACTIVE 1 2 None]> ∅))
  = (inr true,
     (mkWorker "w1" false None,
      mkDb (mkWorld Sample.two_jobs (Sample.cfg "3" "2") [] 20 [] Sample.sh_ok)
        (<["w1" := mkWorkerRow "w1" STOPPED 1 2 None]> ∅))).
Proof.
  etrans.
  - exact (proj1 (stop_marks_stopped (mkWorker "w1" true None)
                    (mkDb (mkWorld Sample.two_jobs (Sample.cfg "3" "2") [] 20 []
                             Sample.sh_ok)
                       (<["w1" := mkWorkerRow "w1" ACTIVE 1 2 None]> ∅)))
             eq_refl []).
  - vm_compute. reflexivity.
Defined.

(** ** The [.env] file *)

Local Open Scope string_scope.

Lemma key_part_app s :
  s = (key_part s).1 ++ (key_part s).2
  ∧ has_char "#" (key_part s).1 = false
  ∧ has_char "=" (key_part s).1 = false
  ∧ match (key_part s).2 with
    | String c _ => c = "#"%char ∨ c = "="%char
    | EmptyString => True
    end.
Proof.
  induction s as [|c r IH]; [done|]. simpl.
  destruct (bool_decide (c = "#"%char)) eqn:E1; simpl.
  { apply bool_decide_eq_true in E1. auto. }
  destruct (bool_decide (c = "="%char)) eqn:E2; simpl.
  { apply bool_decide_eq_true in E2. auto. }
  destruct (key_part r) as [k rest]. simpl in *.
  destruct IH as (-> & H1 & H2 & H3). rewrite E1, E2. done.
Qed.

Lemma key_part_prefix k rest :
  has_char "#" k = false → has_char "=" k = false →
  match rest with
  | String c _ => c = "#"%char ∨ c = "="%char
  | EmptyString => True
  end →
  key_part (k ++ rest) = (k, rest).
Proof.
  intros H1 H2 H3. induction k as [|c k IH]; simpl in *.
  - destruct rest as [|c r]; [done|]. simpl.
    destruct H3 as [-> | ->]; done.
  - apply orb_false_iff in H1 as [E1 H1]. apply orb_false_iff in H2 as [E2 H2].
    rewrite E1, E2. simpl. by rewrite IH.
Qed.

Lemma match_line_Some line k v :
  match_line line = Some (k, v) ↔
  line = k ++ "=" ++ v ∧ k ≠ ""
  ∧ has_char "#" k = false ∧ has_char "=" k = false
  ∧ has_char CR v = false ∧ has_char LF v = false.
Proof.
  unfold match_line. split.
  - pose proof (key_part_app line) as (Hl & H1 & H2 & _).
    destruct (key_part line) as [[|c k0] [|c' rest]]; try done.
    simpl in *. destruct c' as [[] [] [] [] [] [] [] []]; try done.
    destruct (has_char CR rest) eqn:E1; [done|].
    destruct (has_char LF rest) eqn:E2; [done|]. simpl.
    intros [= <- <-]. by repeat split.
  - intros (-> & Hk & H1 & H2 & H3 & H4).
    rewrite (key_part_prefix k ("=" ++ v)) by (simpl; auto).
    destruct k as [|c k]; [done|].
    change ("=" ++ v) with (String "=" v). cbv iota. by rewrite H3, H4.
Qed.

Lemma has_char_app c a b : has_char c (a ++ b) = has_char c a || has_char c b.
Proof.
  induction a as [|c' a IH]; [done|].
  change (String c' a ++ b) with (String c' (a ++ b)).
  cbn [has_char]. rewrite IH. by rewrite orb_assoc.
Qed.

Lemma ends_in_CR l k v :
  l ++ String CR "" = k ++ "=" ++ v → has_char CR v = true.
Proof.
  revert l. induction k as [|c k IH]; intros l.
  - change ("" ++ "=" ++ v) with (String "=" v).
    destruct l as [|c l].
    + change ("" ++ String CR "") with (String CR ""). intros H. discriminate H.
    + change (String c l ++ String CR "") with (String c (l ++ String CR "")).
      intros [= -> <-]. rewrite has_char_app. cbn [has_char].
      rewrite bool_decide_eq_true_2 by done. apply orb_true_r.
  - change (String c k ++ "=" ++ v) with (String c (k ++ "=" ++ v)).
    destruct l as [|c' l].
    + change ("" ++ String CR "") with (String CR ""). intros [= <- H].
      by destruct k.
    + change (String c' l ++ String CR "") with (String c' (l ++ String CR "")).
      intros [= -> H]. by eapply IH.
Qed.

Lemma match_line_CR l : match_line (l ++ String CR "") = None.
Proof.
  destruct (match_line _) as [[k v]|] eqn:E; [|done].
  apply match_line_Some in E as (E & _ & _ & _ & H & _).
  apply ends_in_CR in E. congruence.
Qed.

(** X28. Which lines of [.env] are read.  A line is an assignment exactly
    when a non-empty text without [#] and [=] stands before its first [=]
    and no carriage return follows it; the key is that text and the value
    everything after the first [=], a later [#] or [=] and quotes
    included.  So a line that starts with [#], a line without [=] and a
    line that ends in a carriage return are skipped. *)
Theorem env_line_read :
  (∀ line k v,
     match_line line = Some (k, v) ↔
     line = k ++ "=" ++ v ∧ k ≠ ""
     ∧ has_char "#" k = false ∧ has_char "=" k = false
     ∧ has_char CR v = false ∧ has_char LF v = false)
  ∧ (∀ line, match_line (String "#" line) = None)
  ∧ (∀ line, has_char "=" line = false → match_line line = None)
  ∧ (∀ line, match_line (line ++ String CR "") = None).
Proof.
  split; [apply match_line_Some|]. split; [done|]. split.
  - intros line Hno.
    destruct (match_line line) as [[k v]|] eqn:E; [|done].
    apply match_line_Some in E as (-> & _). rewrite !has_char_app in Hno.
    cbn [has_char] in Hno. rewrite bool_decide_eq_true_2 in Hno by done.
    by rewrite orb_true_r in Hno.
  - apply match_line_CR.
Qed.

Lemma env_line_read_witness :
  match_line "URL=http://host/?a=b # c" = Some ("URL", "http://host/?a=b # c").
Proof.
  apply (proj1 env_line_read). repeat split; done.
Defined.

Lemma split_lines_cons c r :
  split_lines (String c r)
  = if bool_decide (c = LF) then "" :: split_lines r
    else match split_lines r with
         | l :: ls => String c l :: ls
         | [] => [String c ""]
         end.
Proof. done. Qed.

Lemma split_lines_line l rest :
  has_char LF l = false →
  split_lines (l ++ String LF rest) = l :: split_lines rest.
Proof.
  induction l as [|c l IH]; intros H.
  - change ("" ++ String LF rest) with (String LF rest).
    rewrite split_lines_cons. by rewrite bool_decide_eq_true_2.
  - change (String c l ++ String LF rest) with (String c (l ++ String LF rest)).
    cbn [has_char] in H. apply orb_false_iff in H as [Hc H].
    rewrite split_lines_cons, Hc, IH by done. done.
Qed.

Lemma append_assoc (a b c : string) : (a ++ b) ++ c = a ++ b ++ c.
Proof.
  induction a as [|x a IH]; [done|].
  change (String x (a ++ b) ++ c = String x (a ++ b ++ c)).
  change (String x ((a ++ b) ++ c) = String x (a ++ b ++ c)). by rewrite IH.
Qed.

Lemma split_lines_unlines e lines :
  has_char LF e = false →
  Forall (λ l, has_char LF l = false) lines →
  split_lines (unlines (e ++ String LF "") lines)
  = (((λ l : string, (l ++ e)%string) <$> lines) ++ [""])%list.
Proof.
  intros He. induction 1 as [|l lines Hl _ IH]; [done|].
  cbn [unlines foldr fmap list_fmap app].
  change (foldr _ "" lines) with (unlines (e ++ String LF "") lines).
  rewrite (append_assoc e), <- (append_assoc l e).
  change (String LF "" ++ ?r) with (String LF r).
  rewrite split_lines_line by (rewrite has_char_app, Hl, He; done).
  by rewrite IH.
Qed.

Lemma read_line_skip envVars line :
  match_line line = None → read_line envVars line = envVars.
Proof. unfold read_line. by intros ->. Qed.

Lemma append_nil_r (a : string) : a ++ "" = a.
Proof.
  induction a as [|x a IH]; [done|].
  change (String x (a ++ "") = String x a). by rewrite IH.
Qed.

Lemma parse_env_lf lines :
  Forall (λ l, has_char LF l = false) lines →
  parse_env (unlines (String LF "") lines) = foldl read_line ∅ lines.
Proof.
  intros Hl. unfold parse_env.
  change (String LF "") with ("" ++ String LF "").
  rewrite (split_lines_unlines "" lines) by done.
  rewrite foldl_app. cbn [foldl].
  rewrite read_line_skip by done. f_equal.
  clear. induction lines as [|l lines IH]; [done|].
  cbn [fmap list_fmap]. rewrite append_nil_r. by f_equal.
Qed.

Lemma parse_env_crlf lines :
  Forall (λ l, has_char LF l = false) lines →
  parse_env (unlines (String CR (String LF "")) lines) = ∅.
Proof.
  intros Hl. unfold parse_env.
  change (String CR (String LF "")) with (String CR "" ++ String LF "").
  rewrite (split_lines_unlines (String CR "") lines) by done.
  rewrite foldl_app. cbn [foldl]. rewrite read_line_skip by done.
  clear. induction lines as [|l lines IH] using rev_ind; [done|].
  rewrite fmap_app, foldl_app. cbn [fmap list_fmap foldl].
  rewrite read_line_skip by apply match_line_CR. done.
Qed.

(** X29. Which files are read.  For a file whose lines end in a line
    feed, the variables are those of its lines, read in order, so that a
    later assignment of a key replaces an earlier one.  For a file whose
    lines end in carriage return and line feed, no line is an assignment:
    the file gives no variable at all. *)
Theorem env_file_read (lines : list string) :
  Forall (λ l, has_char LF l = false) lines →
  parse_env (unlines (String LF "") lines) = foldl read_line ∅ lines
  ∧ parse_env (unlines (String CR (String LF "")) lines) = ∅
  ∧ (∀ line k v,
       has_char LF line = false → match_line line = Some (k, v) →
       parse_env (unlines (String LF "") (lines ++ [line])%list) !! trim k
       = Some (trim v)).
Proof.
  intros Hl. split; [by apply parse_env_lf|]. split; [by apply parse_env_crlf|].
  intros line k v Hline Hm. rewrite parse_env_lf.
  - rewrite foldl_app. cbn [foldl]. unfold read_line at 1. rewrite Hm.
    by rewrite lookup_insert_eq.
  - apply Forall_app. split; [done|]. by apply Forall_singleton.
Qed.

Lemma env_file_read_witness :
  parse_env
    (unlines (String CR (String LF ""))
       ["SUPABASE_URL=http://localhost"; "SUPABASE_SERVICE_ROLE_KEY=secret"])
  = ∅.
Proof.
  apply (env_file_read
           ["SUPABASE_URL=http://localhost"; "SUPABASE_SERVICE_ROLE_KEY=secret"]).
  repeat constructor.
Defined.

(** X30. Where the client's address and key come from.  A client that
    was made before is returned as it is.  Otherwise [.env] must be
    readable: when it is not, the process exits with status 1 even if the
    environment of the process holds both variables.  A non-empty value
    in the file goes before the environment; for a file with carriage
    returns at its line ends the environment alone counts; when neither
    gives the address the process exits. *)
Theorem getSupabase_sources {Client : Type}
    (createClient : string → string → sum string Client)
    (process_env : gmap string string) :
  (∀ client env_file,
     getSupabase createClient (Some client) env_file process_env
     = (inr client, Some client))
  ∧ (∀ msg,
       getSupabase createClient None (inl msg) process_env
       = (inl (init_failure msg), None))
  ∧ (∀ lines,
       Forall (λ l, has_char LF l = false) lines →
       getSupabase createClient None
         (inr (unlines (String CR (String LF "")) lines)) process_env
       = getSupabase createClient None (inr "") process_env)
  ∧ (∀ envContent url key,
       parse_env envContent !! "SUPABASE_URL" = Some url → url ≠ "" →
       parse_env envContent !! "SUPABASE_SERVICE_ROLE_KEY" = Some key →
       key ≠ "" →
       getSupabase createClient None (inr envContent) process_env
       = match createClient url key with
         | inr client => (inr client, Some client)
         | inl msg => (inl (init_failure msg), None)
         end)
  ∧ (∀ envContent,
       JS.falsy_str (parse_env envContent !! "SUPABASE_URL") = true →
       JS.falsy_str (process_env !! "SUPABASE_URL") = true →
       getSupabase createClient None (inr envContent) process_env
       = (inl (init_failure
                 "SUPABASE_URL and SUPABASE_SERVICE_ROLE_KEY must be set in .env file"),
          None)).
Proof.
  split; [done|]. split; [done|]. split; [|split].
  - intros lines Hl. unfold getSupabase.
    by rewrite parse_env_crlf.
  - intros envContent url key Hu Hun Hk Hkn. unfold getSupabase, or_undefined.
    rewrite Hu, Hk. unfold JS.falsy_str.
    rewrite !bool_decide_eq_false_2 by done. reflexivity.
  - intros envContent Hf He. unfold getSupabase, or_undefined.
    rewrite Hf, He. done.
Qed.

Lemma getSupabase_sources_witness :
  getSupabase (λ url key, inr (url, key)) None
    (inr (unlines (String CR (String LF ""))
            ["SUPABASE_URL=http://localhost"; "SUPABASE_SERVICE_ROLE_KEY=secret"]))
    (<["SUPABASE_URL" := "http://other"]> ∅)
  = getSupabase (λ url key, inr (url, key)) None (inr "")
      (<["SUPABASE_URL" := "http://other"]> ∅).
Proof.
  apply (proj1 (proj2 (proj2 (getSupabase_sources (λ url key, inr (url, key))
                                (<["SUPABASE_URL" := "http://other"]> ∅))))
           ["SUPABASE_URL=http://localhost"; "SUPABASE_SERVICE_ROLE_KEY=secret"]).
  repeat constructor.
Defined.

Local Close Scope string_scope.
